(** * upgear: the self-update pipeline of [src/index.ts]

    A shallow embedding of [checkAndUpdate] and of the functions it calls.
    The program is effectful: it reads the process environment and the
    clock, talks to the registry, and reads and writes the file system.
    The embedding makes every effect explicit:

    - the read-only surroundings of a run (environment variables, clock,
      registry answers, the behaviour of [tar], which file-system calls are
      refused) are a record [host];
    - what a run can change (the file system, the timestamp store and the
      function's own [cleanup] object) is a record [state];
    - a computation is a function from a state to the events it produced
      (logger calls, network requests, mutating file-system calls and their
      outcome), the state it left and either a value or a thrown error.

    JavaScript's [try]/[catch]/[finally] are the combinators [try_catch]
    and [try_finally]; [await] is sequencing.  *)

From Stdlib Require Import ZArith Lia Ascii String.
From stdpp Require Import base option list strings gmap fin_maps pretty.

Local Open Scope string_scope.
Local Open Scope list_scope.
Local Open Scope stdpp_scope.

(** ** Paths

    A path is the list of the segments from the root of the tree to a node;
    a relative path starts at the working directory, which is the root of
    the tree.  [join] is the node that [pathe.join] of a base with one more
    string names: the string is split at the separators ([pathe] reads a
    backslash as a slash), empty and [.] segments disappear and [..] pops a
    segment.  Drive letters and UNC prefixes are not modelled. *)

Abbreviation path := (list string).

Definition backslash : ascii := ascii_of_nat 92.

Definition is_separator (c : ascii) : bool :=
  Ascii.eqb c "/"%char || Ascii.eqb c backslash.

Fixpoint split_segments (acc : string) (s : string) : list string :=
  match s with
  | EmptyString => [String.rev acc]
  | String c s' =>
      if is_separator c then String.rev acc :: split_segments EmptyString s'
      else split_segments (String c acc) s'
  end.

Definition push_segment (base : path) (seg : string) : path :=
  if decide (seg = "") then base
  else if decide (seg = ".") then base
  else if decide (seg = "..") then removelast base
  else base ++ [seg].

Definition join (base : path) (rel : string) : path :=
  foldl push_segment base (split_segments EmptyString rel).

Definition to_path (s : string) : path := join [] s.

Definition dirname (p : path) : path := removelast p.

(** *** The spelling of a joined path

    The string that [pathe.join] returns matters twice beyond the node it
    names.  It keeps a trailing separator, and the file system finds
    nothing but a directory under a spelling that ends with one; and
    [backupFiles] appends [.bak] to the string, which after a trailing
    separator, after the [.] of an empty relative path and after a [..]
    does not land on the name of the node. *)

Definition starts_with_separator (s : string) : bool :=
  match s with
  | EmptyString => false
  | String c _ => is_separator c
  end.

Fixpoint ends_with_separator (s : string) : bool :=
  match s with
  | EmptyString => false
  | String c EmptyString => is_separator c
  | String _ s' => ends_with_separator s'
  end.

(** [normalizeString]: the number of [..] kept in front of a relative path
    that climbs above its start, and the segments after them. *)
Definition push_spelled (allowAboveRoot : bool) (acc : nat * path) (seg : string)
  : nat * path :=
  if decide (seg = "") then acc
  else if decide (seg = ".") then acc
  else if decide (seg = "..") then
    match acc.2 with
    | [] => (if allowAboveRoot then S acc.1 else acc.1, [])
    | _ :: _ => (acc.1, removelast acc.2)
    end
  else (acc.1, acc.2 ++ [seg]).

Record spelling := {
  sp_absolute : bool;
  sp_above : nat;
  sp_segments : path;
  sp_trailing : bool;
}.

(** [pathe.join(a, b)]: arguments that are empty are left out, and the
    last character of the joined string decides on the trailing separator. *)
Definition pathe_join (a b : string) : spelling :=
  let absolute := starts_with_separator (if decide (a = "") then b else a) in
  let n := foldl (push_spelled (negb absolute)) (O, [])
                 (split_segments EmptyString a ++ split_segments EmptyString b) in
  {| sp_absolute := absolute;
     sp_above := n.1;
     sp_segments := n.2;
     sp_trailing := ends_with_separator (if decide (b = "") then a else b) |}.

(** The spelling of [pathe.join(installDir, filePath)] ends with a
    separator. *)
Definition trailing_separator (installDir filePath : string) : bool :=
  sp_trailing (pathe_join installDir filePath).

(** [`${fullPath}.bak`] on a list of segments: the suffix lands on the last
    segment. *)
Definition with_suffix (p : path) (suffix : string) : path :=
  match reverse p with
  | [] => [suffix]
  | l :: rest => reverse rest ++ [l +:+ suffix]
  end.

(** The node of [`${fullPath}${suffix}`] for the spelling of [fullPath]:
    after a trailing separator (the root [/] is spelled with one) the suffix
    is a name of its own inside the directory; an empty relative path is
    spelled [.] and one that ends above its start ends with [..], and the
    suffix makes a new name of either. *)
Definition spelled_with_suffix (sp : spelling) (suffix : string) : path :=
  if sp_trailing sp then sp_segments sp ++ [suffix]
  else match sp_segments sp with
       | [] => if sp_absolute sp then [suffix]
               else match sp_above sp with
                    | O => ["." +:+ suffix]
                    | S _ => [".." +:+ suffix]
                    end
       | _ :: _ => with_suffix (sp_segments sp) suffix
       end.

(** [`${pathe.join(installDir, filePath)}.bak`] *)
Definition backup_path (installDir filePath : string) : path :=
  spelled_with_suffix (pathe_join installDir filePath) ".bak".

Definition show_path (p : path) : string :=
  foldl (fun acc seg => acc +:+ "/" +:+ seg) "" p.

(** [a] and [b] lie on one branch of the tree: one is a prefix of the other. *)
Definition comparable (a b : path) : Prop := a `prefix_of` b ∨ b `prefix_of` a.

(** ** Errors, log messages and events *)

Inductive fsop :=
  | OpMkdir | OpUnlink | OpRmdir | OpCopyFile | OpCp | OpWriteStream | OpUntar.

Inductive error :=
  | ErrFs (op : fsop) (p : path) (code : string)
  | ErrStat (p : path)
  | ErrReaddir (p : path)
  | ErrFetch (reason : string)
  | ErrJson
  | ErrHttp (status : Z) (statusText : string)
  | ErrBodyNull
  | ErrStream (reason : string)
  | ErrTar (reason : string)
  | ErrEmptyExtraction
  | ErrAssertion (message : string)
  | ErrTypeError (what : string)
  | ErrSemver (reason : string)
  | ErrCallback (reason : string).

Inductive result (A : Type) :=
  | Ok (a : A)
  | Throw (e : error).
Arguments Ok {A} a.
Arguments Throw {A} e.

Inductive level := Debug | Info | Warn.

Record DisplayInfo := {
  di_version : string;
  di_packageName : string;
  di_needReinstall : bool;
  di_changelogUrl : option string;
}.

Record UpdatePaths := {
  tarballPath : path;
  extractDir : path;
}.

Record UpgearConfig := {
  files : list string;
  needReinstall : bool;
  changelogUrl : option string;
}.

(** The options after the defaults are filled in ([options] in
    [checkAndUpdate]), as far as they are printed. *)
Record OptionsView := {
  ov_registryBase : string;
  ov_channel : string;
  ov_skipOnCI : bool;
  ov_updateCheckIntervalMs : Z;
  ov_dryRun : bool;
}.

(** One constructor per logger call of the source. *)
Inductive msg :=
  (* checkAndUpdate *)
  | MStart (o : OptionsView)
  | MSkipCI
  | MSkipInterval (since interval : Z)
  | MProceedInterval (since interval : Z)
  | MCouldNotCheck (name : string)
  | MChannelNotFound (channel name : string)
  | MVersions (current latest : string)
  | MNoUpdateNeeded
  | MUpdateAvailable (name current latest : string)
  | MCannotUpdate (latest : string)
  | MUpgearConfig (c : UpgearConfig)
  | MSkipDownloadReinstall
  | MCreatedTempPaths (p : UpdatePaths)
  | MDeletedTarball (p : path)
  | MInstallDir (d : string)
  | MUpdateCompleted (version : string)
  | MErrorUpdateProcess (e : error)
  | MErrorUpdateCheck (e : error)
  (* fetchPackageMetadata *)
  | MFetching (url : string)
  | MFetchFailed (status : Z) (statusText : string)
  | MFetched
  | MErrorFetching (e : error)
  (* isUpdateNeeded *)
  | MInvalidVersion (current latest : string)
  | MVersionComparison (current latest : string) (needed : bool)
  | MErrorComparing (e : error)
  (* extractVersionInfo *)
  | MVersionNotFound (version : string)
  | MNoTarballUrl (version : string)
  | MNoUpgearConfig (version : string)
  | MInvalidFiles
  | MExtractedInfo (version tarballUrl : string)
  | MErrorExtractingInfo (version : string) (e : error)
  (* downloadTarball *)
  | MDryDownload (url : string) (target : path)
  | MDownloading (url : string) (target : path)
  | MDownloaded (target : path)
  | MErrorCleaningDownload (e : error)
  (* extractTarball *)
  | MDryExtract (tarball dir : path)
  | MExtracting (tarball dir : path)
  | MExtracted (dir : path)
  | MExtractedContents (names : list string)
  (* backupFiles *)
  | MBackupStart (n : nat)
  | MSkipBackup (full : path)
  | MDryBackup (full backup : path)
  | MRemovingBackup (backup : path)
  | MBackingUpDir (full backup : path)
  | MBackingUpFile (full backup : path)
  | MBackedUp (full : path)
  | MErrorBackingUp (full : path) (e : error)
  | MBackupDone
  (* copyUpdatedFiles *)
  | MCopyStart (n : nat)
  | MUsingPackageDir (p : path)
  | MSourceNotFound (source : path)
  | MDryCopy (source dest : path)
  | MCreatingDestDir (d : path)
  | MCopyingDir (source dest : path)
  | MCopyingFile (source dest : path)
  | MCopied (dest : path)
  | MErrorCopying (source dest : path) (e : error)
  | MCopyDone
  (* displayUpdateNotification *)
  | MDryNotify (name version : string)
  | MCustomDisplay
  (* cleanupTemporaryFiles *)
  | MCleaningUp
  | MDeletedExtractDir (p : path)
  | MErrorCleaning (e : error).

Inductive event :=
  | EvLog (l : level) (m : msg)          (* a call of logger.debug / info / warn *)
  | EvRegistry (url : string)            (* fetch of the package metadata *)
  | EvDownload (url : string)            (* fetch of the tarball *)
  | EvFs (op : fsop) (p : path) (ok : bool)   (* a mutating fs call and its outcome *)
  | EvStoreRead                          (* the timestamp file is read *)
  | EvStoreWrite (ok : bool)             (* the timestamp file is written *)
  | EvDisplay (custom : bool) (i : DisplayInfo). (* onDisplay or the default banner *)

(** What reaches the console: [logger.debug] prints only under [debug]. *)
Definition printed (debug : bool) (e : event) : bool :=
  match e with
  | EvLog Debug _ => debug
  | EvLog _ _ => true
  | EvDisplay false _ => true
  | _ => false
  end.

Definition is_warning (e : event) : bool :=
  match e with EvLog Warn _ => true | _ => false end.

Definition is_fs_mutation (e : event) : bool :=
  match e with EvFs _ _ _ => true | EvStoreWrite _ => true | _ => false end.

Definition is_failure (e : event) : bool :=
  match e with EvFs _ _ false => true | EvStoreWrite false => true | _ => false end.

(** ** The registry's answer, as [PackageMetadata] types it

    A field that the type declares but a registry answer may lack is an
    [option]: reading a property of a missing object throws a [TypeError]
    in the source, and the embedding throws [ErrTypeError] there. *)

Record UpgearRaw := {
  raw_files : option (list string);
  raw_needReinstall : option bool;
  raw_changelogUrl : option string;
}.

Record VersionData := {
  vd_dist : option (option string);     (* [dist], and [dist.tarball] in it *)
  vd_upgear : option UpgearRaw;
}.

Record PackageMetadata := {
  dist_tags : option (gmap string string);
  versions : option (gmap string VersionData);
}.

Record VersionInfo := {
  vi_version : string;
  vi_tarballUrl : string;
  vi_upgear : UpgearConfig;
}.

Inductive fetch_result :=
  | FetchReject (reason : string)               (* network failure, timeout *)
  | FetchStatus (status : Z) (statusText : string)   (* [!response.ok] *)
  | FetchBadJson                                (* [response.json()] rejects *)
  | FetchOk (m : PackageMetadata).

Inductive download_result :=
  | DlReject (reason : string)
  | DlStatus (status : Z) (statusText : string)
  | DlNoBody
  | DlBody (data : string) (complete : bool).   (* the stream, and whether it ends well *)

(** ** File system, timestamp store, host and state *)

Inductive node :=
  | File (data : string)
  | Dir.

Inductive store_file :=
  | StoreMissing
  | StoreGarbage
  | StoreData (m : gmap string Z).

Record CleanupOperations := {
  tempFilesCreated : bool;
  paths : option UpdatePaths;
}.

Record state := {
  st_fs : gmap path node;
  st_store : store_file;
  st_cleanup : CleanupOperations;
}.

Record host := {
  h_env : gmap string string;             (* process.env *)
  h_now : Z;                              (* Date.now() *)
  h_tmpdir : path;                        (* os.tmpdir() *)
  h_encode : string -> string;            (* encodeURIComponent *)
  h_registry : string -> fetch_result;    (* the answer to GET url *)
  h_tarball : string -> download_result;
  h_untar : string -> list (path * node) * bool;  (* entries of an archive; is it sound *)
  h_refuses : fsop -> path -> bool;       (* calls the file system refuses (EACCES) *)
  h_store_refuses : bool;                 (* the timestamp file cannot be written *)
}.

Definition set_fs (st : state) (fs : gmap path node) : state :=
  {| st_fs := fs; st_store := st_store st; st_cleanup := st_cleanup st |}.

Definition set_store (st : state) (s : store_file) : state :=
  {| st_fs := st_fs st; st_store := s; st_cleanup := st_cleanup st |}.

Definition set_cleanup (st : state) (c : CleanupOperations) : state :=
  {| st_fs := st_fs st; st_store := st_store st; st_cleanup := c |}.

(** ** The monad of effects *)

Record outcome (A : Type) := Out {
  events : list event;
  final : state;
  res : result A;
}.
Arguments Out {A} _ _ _.
Arguments events {A} _.
Arguments final {A} _.
Arguments res {A} _.

Definition M (A : Type) : Type := state -> outcome A.

Definition ret {A} (a : A) : M A := fun st => Out [] st (Ok a).

Definition throw {A} (e : error) : M A := fun st => Out [] st (Throw e).

Definition bind {A B} (m : M A) (k : A -> M B) : M B := fun st =>
  let o := m st in
  match res o with
  | Ok a => let o' := k a (final o) in Out (events o ++ events o') (final o') (res o')
  | Throw e => Out (events o) (final o) (Throw e)
  end.

#[global] Instance M_ret : MRet M := @ret.
#[global] Instance M_bind : MBind M := fun A B k m => bind m k.

(** [try { m } catch (e) { h e }] *)
Definition try_catch {A} (m : M A) (h : error -> M A) : M A := fun st =>
  let o := m st in
  match res o with
  | Ok a => o
  | Throw e => let o' := h e (final o) in Out (events o ++ events o') (final o') (res o')
  end.

(** [try { m } finally { f }]: [f] runs on every exit of [m]; what [m]
    returned or threw stands unless [f] throws itself. *)
Definition try_finally {A} (m : M A) (f : M unit) : M A := fun st =>
  let o := m st in
  let o' := f (final o) in
  Out (events o ++ events o') (final o')
      (match res o' with Ok _ => res o | Throw e => Throw e end).

Definition emit (e : event) : M unit := fun st => Out [e] st (Ok tt).

Definition get_state : M state := fun st => Out [] st (Ok st).

Definition modify (f : state -> state) : M unit := fun st => Out [] (f st) (Ok tt).

(** [for (const x of xs) { body x }] *)
Fixpoint for_each {A} (xs : list A) (body : A -> M unit) : M unit :=
  match xs with
  | [] => ret tt
  | x :: rest => body x ;; for_each rest body
  end.

(** ** createLogger: [debug], [info] and [warn] *)

Definition log_debug (m : msg) : M unit := emit (EvLog Debug m).
Definition log_info (m : msg) : M unit := emit (EvLog Info m).
Definition log_warn (m : msg) : M unit := emit (EvLog Warn m).

(** ** The file system calls

    The file system is a finite map from paths to nodes; the root is a
    directory that is always there.  Each call of [fs] that the source
    uses is a function here.  The reading calls never fail for a reason
    the map does not show; a mutating call also fails where the host
    refuses it, and every mutating call leaves an [EvFs] event. *)

Definition lookup_node (fs : gmap path node) (p : path) : option node :=
  match p with
  | [] => Some Dir
  | _ => fs !! p
  end.

Definition child_name (p k : path) : option string :=
  match reverse k with
  | n :: r => if decide (reverse r = p) then Some n else None
  | [] => None
  end.

(** The names [readdirSync p] lists. *)
Definition readdir_names (fs : gmap path node) (p : path) : list string :=
  omap (fun kv => child_name p kv.1) (map_to_list fs).

Fixpoint strip_prefix (p k : path) : option path :=
  match p, k with
  | [], _ => Some k
  | a :: p', b :: k' => if decide (a = b) then strip_prefix p' k' else None
  | _ :: _, [] => None
  end.

(** The nodes below [p], with their paths relative to [p]. *)
Definition subtree (fs : gmap path node) (p : path) : list (path * node) :=
  omap (fun kv => match strip_prefix p kv.1 with
                  | Some (s :: r) => Some (s :: r, kv.2)
                  | _ => None
                  end) (map_to_list fs).

(** [mkdirSync(pre/segs, { recursive: true })], [pre] being there. *)
Fixpoint mkdir_p (pre : path) (segs : list string) (fs : gmap path node)
  : gmap path node * option string :=
  match segs with
  | [] => (fs, None)
  | s :: rest =>
      let q := pre ++ [s] in
      match fs !! q with
      | Some (File _) => (fs, Some "EEXIST")
      | Some Dir => mkdir_p q rest fs
      | None => mkdir_p q rest (<[q := Dir]> fs)
      end
  end.

Definition unlink (p : path) (fs : gmap path node) : gmap path node * option string :=
  match lookup_node fs p with
  | Some (File _) => (delete p fs, None)
  | Some Dir => (fs, Some "EISDIR")
  | None => (fs, Some "ENOENT")
  end.

Definition rmdir (p : path) (fs : gmap path node) : gmap path node * option string :=
  match p with
  | [] => (fs, Some "EBUSY")
  | _ =>
    match fs !! p with
    | Some Dir =>
        match readdir_names fs p with
        | [] => (delete p fs, None)
        | _ :: _ => (fs, Some "ENOTEMPTY")
        end
    | Some (File _) => (fs, Some "ENOTDIR")
    | None => (fs, Some "ENOENT")
    end
  end.

Definition write_file (p : path) (data : string) (fs : gmap path node)
  : gmap path node * option string :=
  match lookup_node fs (dirname p), lookup_node fs p with
  | Some Dir, Some Dir => (fs, Some "EISDIR")
  | Some Dir, _ => (<[p := File data]> fs, None)
  | _, _ => (fs, Some "ENOENT")
  end.

Definition copy_file (src dest : path) (fs : gmap path node)
  : gmap path node * option string :=
  match lookup_node fs src with
  | Some (File data) => write_file dest data fs
  | Some Dir => (fs, Some "EISDIR")
  | None => (fs, Some "ENOENT")
  end.

(** One entry of a recursive copy: a directory is not put over a file nor
    a file over a directory; the copy stops at the first entry that fails. *)
Fixpoint cp_entries (refuses : path -> bool) (dest : path) (es : list (path * node))
    (fs : gmap path node) : gmap path node * option string :=
  match es with
  | [] => (fs, None)
  | (r, n) :: rest =>
      let t := dest ++ r in
      if refuses t then (fs, Some "EACCES")
      else match lookup_node fs t, n with
           | Some Dir, File _ => (fs, Some "ERR_FS_CP_NON_DIR_TO_DIR")
           | Some (File _), Dir => (fs, Some "ERR_FS_CP_DIR_TO_NON_DIR")
           | _, _ => cp_entries refuses dest rest (<[t := n]> fs)
           end
  end.

(** [cpSync(src, dest, { recursive: true })] *)
Definition cp_tree (refuses : path -> bool) (src dest : path) (fs : gmap path node)
  : gmap path node * option string :=
  match lookup_node fs src with
  | None => (fs, Some "ENOENT")
  | Some n =>
      if decide (src `prefix_of` dest) then (fs, Some "ERR_FS_CP_EINVAL")
      else match mkdir_p [] (dirname dest) fs with
           | (fs1, Some code) => (fs1, Some code)
           | (fs1, None) => cp_entries refuses dest (([], n) :: subtree fs src) fs1
           end
  end.

(** [tar.extract({ file, cwd, strict: false })]: an entry that cannot be
    written is skipped, and none can be written under a [cwd] that is not
    a directory. *)
Definition untar_entry (refuses : path -> bool) (cwd : path) (fs : gmap path node)
    (e : path * node) : gmap path node :=
  match e.1 with
  | [] => fs
  | _ :: _ =>
      let t := cwd ++ e.1 in
      if refuses t then fs
      else match lookup_node fs cwd with
           | Some Dir =>
               match mkdir_p cwd (removelast e.1) fs with
               | (fs1, Some _) => fs1
               | (fs1, None) =>
                   match fs1 !! t, e.2 with
                   | Some Dir, File _ => fs1
                   | Some (File _), Dir => fs1
                   | _, _ => <[t := e.2]> fs1
                   end
               end
           | _ => fs
           end
  end.

Section Calls.
Context (h : host).

Definition existsSync (p : path) : M bool := fun st =>
    Out [] st (Ok (match lookup_node (st_fs st) p with Some _ => true | None => false end)).

  (** [existsSync] of a spelling of [p]: one that ends with a separator
      names a directory or nothing. *)
Definition spelled_found (trailing : bool) (n : option node) : bool :=
    match n with
    | Some Dir => true
    | Some (File _) => negb trailing
    | None => false
    end.

Definition existsSync_spelled (trailing : bool) (p : path) : M bool := fun st =>
    Out [] st (Ok (spelled_found trailing (lookup_node (st_fs st) p))).

  (** [statSync] and [lstatSync]; the file system has no symbolic links. *)
Definition statSync (p : path) : M node := fun st =>
    match lookup_node (st_fs st) p with
    | Some n => Out [] st (Ok n)
    | None => Out [] st (Throw (ErrStat p))
    end.

Definition readdirSync (p : path) : M (list string) := fun st =>
    match lookup_node (st_fs st) p with
    | Some Dir => Out [] st (Ok (readdir_names (st_fs st) p))
    | _ => Out [] st (Throw (ErrReaddir p))
    end.

Definition fs_call (op : fsop) (p : path)
      (f : gmap path node -> gmap path node * option string) : M unit := fun st =>
    if h_refuses h op p then Out [EvFs op p false] st (Throw (ErrFs op p "EACCES"))
    else match f (st_fs st) with
         | (fs', None) => Out [EvFs op p true] (set_fs st fs') (Ok tt)
         | (fs', Some code) => Out [EvFs op p false] (set_fs st fs') (Throw (ErrFs op p code))
         end.

Definition mkdirSync (p : path) : M unit := fs_call OpMkdir p (mkdir_p [] p).
Definition unlinkSync (p : path) : M unit := fs_call OpUnlink p (unlink p).
Definition rmdirSync (p : path) : M unit := fs_call OpRmdir p (rmdir p).
Definition copyFileSync (src dest : path) : M unit :=
    fs_call OpCopyFile dest (copy_file src dest).
Definition cpSync (src dest : path) : M unit :=
    fs_call OpCp dest (cp_tree (h_refuses h OpCp) src dest).

  (** [createWriteStream(target)] and [pipeline(body, stream)] *)
Definition writeStream (target : path) (data : string) : M unit :=
    fs_call OpWriteStream target (write_file target data).

  (** [tar] checks [cwd] before it writes its first entry: a [cwd] that is
      not a directory makes the extraction fail. *)
Definition cwd_ready (fs : gmap path node) (cwd : path) (entries : list (path * node))
    : bool :=
    match entries, lookup_node fs cwd with
    | [], _ | _, Some Dir => true
    | _, _ => false
    end.

Definition tar_extract (file cwd : path) : M unit := fun st =>
    match lookup_node (st_fs st) file with
    | Some (File data) =>
        let '(entries, sound) := h_untar h data in
        let fs' := foldl (untar_entry (h_refuses h OpUntar) cwd) (st_fs st) entries in
        let ok := sound && cwd_ready (st_fs st) cwd entries in
        Out [EvFs OpUntar cwd ok] (set_fs st fs')
            (if ok then Ok tt
             else Throw (ErrTar (if sound then "ENOTDIR" else "TAR_BAD_ARCHIVE")))
    | _ => Out [EvFs OpUntar cwd false] st (Throw (ErrTar "ENOENT"))
    end.
End Calls.

(** ** The [semver] package

    [isUpdateNeeded] only uses [semver.valid] (is the result non-null) and
    [semver.gt], which throws on a string it cannot parse.  The test suite
    of the repository replaces the package by a mock, and so the embedding
    takes it as an interface. *)

Class Semver := {
  semver_valid : string -> bool;
  semver_gt : string -> string -> result bool;
}.

(** ** Options *)

Record CheckAndUpdateOptions := {
  debug : bool;
  version : string;
  name : string;
  registryBase : option string;
  channel : option string;
  skipOnCI : option bool;
  updateCheckIntervalMs : option Z;
  dryRun : option bool;
  installDir : option string;
  onDisplay : option (DisplayInfo -> result unit);
}.

(** The object [options] of [checkAndUpdate]: [??] fills in the defaults. *)
Definition the_registryBase (opts : CheckAndUpdateOptions) : string :=
  default "https://registry.npmjs.org" (registryBase opts).
Definition the_channel (opts : CheckAndUpdateOptions) : string :=
  default "latest" (channel opts).
Definition the_skipOnCI (opts : CheckAndUpdateOptions) : bool :=
  default true (skipOnCI opts).
Definition the_updateCheckIntervalMs (opts : CheckAndUpdateOptions) : Z :=
  default 21600000%Z (updateCheckIntervalMs opts).
Definition the_dryRun (opts : CheckAndUpdateOptions) : bool :=
  default false (dryRun opts).

Definition options_view (opts : CheckAndUpdateOptions) : OptionsView :=
  {| ov_registryBase := the_registryBase opts;
     ov_channel := the_channel opts;
     ov_skipOnCI := the_skipOnCI opts;
     ov_updateCheckIntervalMs := the_updateCheckIntervalMs opts;
     ov_dryRun := the_dryRun opts |}.

Definition lift_result {A} (r : result A) : M A :=
  match r with
  | Ok a => ret a
  | Throw e => throw e
  end.

Fixpoint ends_with_slash (s : string) : bool :=
  match s with
  | EmptyString => false
  | String c EmptyString => Ascii.eqb c "/"%char
  | String _ rest => ends_with_slash rest
  end.

Definition is_alnum (c : ascii) : bool :=
  let n := nat_of_ascii c in
  ((48 <=? n) && (n <=? 57) || (65 <=? n) && (n <=? 90) || (97 <=? n) && (n <=? 122))%nat.

(** [packageName.replace(/[^a-zA-Z0-9]/g, '_')] *)
Fixpoint sanitize (s : string) : string :=
  match s with
  | EmptyString => EmptyString
  | String c rest => String (if is_alnum c then c else "_"%char) (sanitize rest)
  end.

Definition fs_depth (fs : gmap path node) : nat :=
  foldr (fun kv acc => max (length kv.1) acc) 0%nat (map_to_list fs).

Section Program.
Context {SV : Semver} (h : host).

  (** *** isCI (lines 198-210): a variable counts when its value is truthy,
      that is a non-empty string. *)
Definition env_truthy (k : string) : bool :=
    match h_env h !! k with
    | Some v => negb (String.eqb v "")
    | None => false
    end.

Definition isCI : bool :=
    env_truthy "CI" || env_truthy "CONTINUOUS_INTEGRATION"
    || env_truthy "BUILD_NUMBER" || env_truthy "GITHUB_ACTIONS".

  (** *** readLastCheckTimestamp (lines 230-246) and writeCurrentTimestamp
      (lines 252-279).  The timestamp file is the component [st_store] of
      the state: missing, unreadable as JSON, or a map from package names
      to times.  Neither function throws. *)
Definition readLastCheckTimestamp (packageName : string) : M Z :=
    emit EvStoreRead ;;
    st ← get_state;
    mret (match st_store st with
          | StoreData data => default 0%Z (data !! packageName)
          | _ => 0%Z
          end).

Definition writeCurrentTimestamp (packageName : string) : M unit := fun st =>
    if h_store_refuses h then Out [EvStoreWrite false] st (Ok tt)
    else
      let data := match st_store st with StoreData data => data | _ => ∅ end in
      Out [EvStoreWrite true]
          (set_store st (StoreData (<[packageName := h_now h]> data))) (Ok tt).

  (** *** buildPackageUrl (lines 286-297) *)
Definition buildPackageUrl (packageName registryBase : string) : string :=
    let baseUrl := if ends_with_slash registryBase then registryBase
                   else registryBase +:+ "/" in
    baseUrl +:+ h_encode h packageName.

  (** *** fetchPackageMetadata (lines 306-352) *)
Definition fetchPackageMetadata (packageName registryBase : string)
    : M (option PackageMetadata) :=
    try_catch
      (let url := buildPackageUrl packageName registryBase in
       log_debug (MFetching url) ;;
       emit (EvRegistry url) ;;
       match h_registry h url with
       | FetchReject reason => throw (ErrFetch reason)
       | FetchStatus status text => log_warn (MFetchFailed status text) ;; mret None
       | FetchBadJson => throw ErrJson
       | FetchOk data => log_debug MFetched ;; mret (Some data)
       end)
      (fun error => log_warn (MErrorFetching error) ;; mret None).

  (** *** isUpdateNeeded (lines 361-383) *)
Definition isUpdateNeeded (currentVersion latestVersion : string) : M bool :=
    try_catch
      (if negb (semver_valid currentVersion) || negb (semver_valid latestVersion)
       then log_warn (MInvalidVersion currentVersion latestVersion) ;; mret false
       else
         updateNeeded ← lift_result (semver_gt latestVersion currentVersion);
         log_debug (MVersionComparison currentVersion latestVersion updateNeeded) ;;
         mret updateNeeded)
      (fun error => log_warn (MErrorComparing error) ;; mret false).

  (** *** extractVersionInfo (lines 392-442) *)
Definition extractVersionInfo (metadata : PackageMetadata) (version : string)
    : M (option VersionInfo) :=
    try_catch
      (match versions metadata with
       | None => throw (ErrTypeError "metadata.versions")
       | Some vs =>
         match vs !! version with
         | None => log_warn (MVersionNotFound version) ;; mret None
         | Some versionData =>
           match vd_dist versionData with
           | None => throw (ErrTypeError "versionData.dist")
           | Some tarball =>
             match tarball with
             | None | Some EmptyString => log_warn (MNoTarballUrl version) ;; mret None
             | Some tarballUrl =>
               match vd_upgear versionData with
               | None => log_warn (MNoUpgearConfig version) ;; mret None
               | Some upgear =>
                 let files := ["dist"; "package.json"] ++ default [] (raw_files upgear) in
                 if (length files =? 0)%nat
                 then log_warn MInvalidFiles ;; mret None
                 else
                   log_debug (MExtractedInfo version tarballUrl) ;;
                   mret (Some {| vi_version := version;
                                 vi_tarballUrl := tarballUrl;
                                 vi_upgear :=
                                   {| files := files;
                                      needReinstall := default false (raw_needReinstall upgear);
                                      changelogUrl := raw_changelogUrl upgear |} |})
               end
             end
           end
         end
       end)
      (fun error => log_warn (MErrorExtractingInfo version error) ;; mret None).

  (** *** createTempPaths (lines 450-479).  The file name has no slash (the
      package name is sanitized, the version has passed [semver.valid], the
      time is a number), so [pathe.join] adds it as one segment. *)
Definition createTempPaths (packageName version : string) : UpdatePaths :=
    let stem := sanitize packageName +:+ "-" +:+ version +:+ "-" +:+ pretty (h_now h) in
    {| tarballPath := h_tmpdir h ++ [stem +:+ ".tgz"];
       extractDir := h_tmpdir h ++ [stem +:+ "-extract"] |}.

  (** *** downloadTarball (lines 489-564) *)
Definition downloadTarball (url : string) (targetPath : path) (dryRun : bool) : M unit :=
    if dryRun then log_info (MDryDownload url targetPath)
    else
      log_debug (MDownloading url targetPath) ;;
      try_catch
        (let targetDir := dirname targetPath in
         (there ← existsSync targetDir;
          if there : bool then mret tt else mkdirSync h targetDir) ;;
         emit (EvDownload url) ;;
         match h_tarball h url with
         | DlReject reason => throw (ErrFetch reason)
         | DlStatus status text => throw (ErrHttp status text)
         | DlNoBody => throw ErrBodyNull
         | DlBody data complete =>
             writeStream h targetPath data ;;
             (if complete then mret tt else throw (ErrStream "aborted")) ;;
             log_debug (MDownloaded targetPath)
         end)
        (fun error =>
           (there ← existsSync targetPath;
            if there : bool
            then try_catch (unlinkSync h targetPath)
                           (fun cleanupError => log_debug (MErrorCleaningDownload cleanupError))
            else mret tt) ;;
           throw error).

  (** *** extractTarball (lines 574-613) *)
Definition extractTarball (tarballPath extractDir : path) (dryRun : bool) : M unit :=
    if dryRun then log_info (MDryExtract tarballPath extractDir)
    else
      log_debug (MExtracting tarballPath extractDir) ;;
      (there ← existsSync extractDir;
       if there : bool then mret tt else mkdirSync h extractDir) ;;
      tar_extract h tarballPath extractDir ;;
      log_debug (MExtracted extractDir) ;;
      files ← readdirSync extractDir;
      log_debug (MExtractedContents files) ;;
      if (length files =? 0)%nat then throw ErrEmptyExtraction else mret tt.

  (** *** deleteDirRecursive (lines 823-840).  The source recurses on what
      it finds in the directory; the embedding recurses on a bound of the
      depth, and [deleteDirRecursive] starts it above the depth of the file
      system.  [readdirSync] lists plain names, which [pathe.join] appends. *)
Fixpoint deleteDirRecursive_fuel (fuel : nat) (dirPath : path) : M unit :=
    match fuel with
    | O => mret tt
    | S fuel' =>
        try_catch
          (there ← existsSync dirPath;
           if there : bool then
             names ← readdirSync dirPath;
             for_each names (fun file =>
               let curPath := dirPath ++ [file] in
               n ← statSync curPath;
               match n with
               | Dir => deleteDirRecursive_fuel fuel' curPath
               | File _ => unlinkSync h curPath
               end) ;;
             rmdirSync h dirPath
           else mret tt)
          (fun _ => mret tt)
    end.

Definition deleteDirRecursive (dirPath : path) : M unit := fun st =>
    deleteDirRecursive_fuel (S (fs_depth (st_fs st))) dirPath st.

  (** *** backupFiles (lines 623-683).  [fullPath] is the node of
      [pathe.join(installDir, filePath)]; its spelling decides what
      [existsSync] finds and where [`${fullPath}.bak`] is. *)
Definition backupOne (installDir : string) (dryRun : bool) (filePath : string) : M unit :=
    let fullPath := join (to_path installDir) filePath in
    let backupPath := backup_path installDir filePath in
    there ← existsSync_spelled (trailing_separator installDir filePath) fullPath;
    if negb there then log_debug (MSkipBackup fullPath)
    else if dryRun then log_info (MDryBackup fullPath backupPath)
    else
      try_catch
        ((stale ← existsSync backupPath;
          if stale : bool then
            log_debug (MRemovingBackup backupPath) ;;
            n ← statSync backupPath;
            match n with
            | Dir => deleteDirRecursive backupPath
            | File _ => unlinkSync h backupPath
            end
          else mret tt) ;;
         n ← statSync fullPath;
         match n with
         | Dir =>
             log_debug (MBackingUpDir fullPath backupPath) ;;
             mkdirSync h backupPath ;;
             filesList ← readdirSync fullPath;
             for_each filesList (fun file =>
               let srcFile := fullPath ++ [file] in
               let destFile := backupPath ++ [file] in
               n ← statSync srcFile;
               match n with
               | Dir => cpSync h srcFile destFile
               | File _ => copyFileSync h srcFile destFile
               end)
         | File _ =>
             log_debug (MBackingUpFile fullPath backupPath) ;;
             copyFileSync h fullPath backupPath
         end ;;
         log_debug (MBackedUp fullPath))
        (fun error => log_warn (MErrorBackingUp fullPath error)).

Definition backupFiles (files : list string) (installDir : string) (dryRun : bool)
    : M unit :=
    log_debug (MBackupStart (length files)) ;;
    for_each files (backupOne installDir dryRun) ;;
    log_debug MBackupDone.

  (** *** copyUpdatedFiles (lines 694-759).  [sourceBase] is the variable
      of that name (lines 705-710); it is spelled without a trailing
      separator, so that of [sourcePath] is the one of [filePath]. *)
Definition sourceBase (extractDir : path) : M path :=
    let packageDir := extractDir ++ ["package"] in
    there ← existsSync packageDir;
    if there : bool then
      n ← statSync packageDir;
      match n with
      | Dir => log_debug (MUsingPackageDir packageDir) ;; mret packageDir
      | File _ => mret extractDir
      end
    else mret extractDir.

Definition copyOne (base : path) (installDir : string) (dryRun : bool)
      (filePath : string) : M unit :=
    let sourcePath := join base filePath in
    let destPath := join (to_path installDir) filePath in
    let destTrailing := trailing_separator installDir filePath in
    there ← existsSync_spelled (ends_with_separator filePath) sourcePath;
    if negb there then log_warn (MSourceNotFound sourcePath)
    else if dryRun then log_info (MDryCopy sourcePath destPath)
    else
      try_catch
        (let destDir := dirname destPath in
         (there ← existsSync destDir;
          if there : bool then mret tt
          else log_debug (MCreatingDestDir destDir) ;; mkdirSync h destDir) ;;
         n ← statSync sourcePath;
         match n with
         | Dir =>
             log_debug (MCopyingDir sourcePath destPath) ;;
             destThere ← existsSync_spelled destTrailing destPath;
             destIsDir ← (if destThere : bool then
                            d ← statSync destPath;
                            mret (match d with Dir => true | File _ => false end)
                          else mret false);
             if destIsDir : bool then cpSync h sourcePath destPath
             else
               (destThere ← existsSync_spelled destTrailing destPath;
                if destThere : bool then unlinkSync h destPath else mret tt) ;;
               cpSync h sourcePath destPath
         | File _ =>
             log_debug (MCopyingFile sourcePath destPath) ;;
             copyFileSync h sourcePath destPath
         end ;;
         log_debug (MCopied destPath))
        (fun error => log_warn (MErrorCopying sourcePath destPath error)).

Definition copyUpdatedFiles (files : list string) (extractDir : path)
      (installDir : string) (dryRun : bool) : M unit :=
    log_debug (MCopyStart (length files)) ;;
    base ← sourceBase extractDir;
    for_each files (copyOne base installDir dryRun) ;;
    log_debug MCopyDone.

  (** *** displayUpdateNotification (lines 771-817).  The callback is the
      caller's code and may throw; the default banner is [console.log]. *)
Definition displayUpdateNotification (version packageName : string)
      (needReinstall : bool) (changelogUrl : option string) (dryRun : bool)
      (onDisplay : option (DisplayInfo -> result unit)) : M unit :=
    let info := {| di_version := version; di_packageName := packageName;
                   di_needReinstall := needReinstall;
                   di_changelogUrl := changelogUrl |} in
    if dryRun then log_info (MDryNotify packageName version)
    else match onDisplay with
         | Some callback =>
             log_debug MCustomDisplay ;;
             emit (EvDisplay true info) ;;
             lift_result (callback info)
         | None => emit (EvDisplay false info)
         end.

  (** *** cleanupTemporaryFiles (lines 848-872) *)
Definition cleanupTemporaryFiles (paths : option UpdatePaths) (dryRun : bool) : M unit :=
    match paths with
    | Some ps =>
        if dryRun then mret tt
        else
          log_debug MCleaningUp ;;
          try_catch
            ((there ← existsSync (tarballPath ps);
              if there : bool then
                unlinkSync h (tarballPath ps) ;; log_debug (MDeletedTarball (tarballPath ps))
              else mret tt) ;;
             (there ← existsSync (extractDir ps);
              if there : bool then
                deleteDirRecursive (extractDir ps) ;;
                log_debug (MDeletedExtractDir (extractDir ps))
              else mret tt))
            (fun error => log_warn (MErrorCleaning error))
    | None => mret tt
    end.

  (** *** checkAndUpdate (lines 880-1079), in the order of the source.

      The interval gate (lines 913-932): [true] when the check goes on. *)
Definition intervalGate (opts : CheckAndUpdateOptions) : M bool :=
    if negb (the_dryRun opts) && (0 <? the_updateCheckIntervalMs opts)%Z then
      lastCheckTime ← readLastCheckTimestamp (name opts);
      let timeSinceLastCheck := (h_now h - lastCheckTime)%Z in
      if (0 <? lastCheckTime)%Z && (timeSinceLastCheck <? the_updateCheckIntervalMs opts)%Z
      then
        log_debug (MSkipInterval timeSinceLastCheck (the_updateCheckIntervalMs opts)) ;;
        mret false
      else
        log_debug (MProceedInterval timeSinceLastCheck (the_updateCheckIntervalMs opts)) ;;
        mret true
    else mret true.

  (** The body of the inner [try] (lines 1004-1059). *)
Definition updateSteps (opts : CheckAndUpdateOptions) (versionInfo : VersionInfo)
      (updatePaths : UpdatePaths) : M unit :=
    let dry := the_dryRun opts in
    downloadTarball (vi_tarballUrl versionInfo) (tarballPath updatePaths) dry ;;
    (if negb dry
     then modify (fun st => set_cleanup st
            {| tempFilesCreated := true; paths := paths (st_cleanup st) |})
     else mret tt) ;;
    extractTarball (tarballPath updatePaths) (extractDir updatePaths) dry ;;
    (if negb dry then
       there ← existsSync (tarballPath updatePaths);
       if there : bool then
         unlinkSync h (tarballPath updatePaths) ;;
         log_debug (MDeletedTarball (tarballPath updatePaths))
       else mret tt
     else mret tt) ;;
    match installDir opts with
    | None | Some EmptyString => throw (ErrAssertion "installDir is required")
    | Some installDir =>
        log_debug (MInstallDir installDir) ;;
        backupFiles (files (vi_upgear versionInfo)) installDir dry ;;
        copyUpdatedFiles (files (vi_upgear versionInfo)) (extractDir updatePaths)
                         installDir dry ;;
        displayUpdateNotification (vi_version versionInfo) (name opts)
          (needReinstall (vi_upgear versionInfo)) (changelogUrl (vi_upgear versionInfo))
          dry (onDisplay opts) ;;
        log_debug (MUpdateCompleted (vi_version versionInfo))
    end.

  (** The inner [finally] (lines 1062-1068). *)
Definition innerFinally (opts : CheckAndUpdateOptions) : M unit :=
    st ← get_state;
    let cleanup := st_cleanup st in
    match tempFilesCreated cleanup, paths cleanup with
    | true, Some ps =>
        cleanupTemporaryFiles (Some ps) (the_dryRun opts) ;;
        modify (fun st => set_cleanup st {| tempFilesCreated := false; paths := None |})
    | _, _ => mret tt
    end.

  (** The outer [finally] (lines 1072-1078). *)
Definition outerFinally (opts : CheckAndUpdateOptions) : M unit :=
    st ← get_state;
    let cleanup := st_cleanup st in
    match tempFilesCreated cleanup, paths cleanup with
    | true, Some ps => cleanupTemporaryFiles (Some ps) (the_dryRun opts)
    | _, _ => mret tt
    end.

  (** From the temporary paths to the end of the inner [try] statement
      (lines 996-1068). *)
Definition applyUpdate (opts : CheckAndUpdateOptions) (versionInfo : VersionInfo)
    : M unit :=
    let updatePaths := createTempPaths (name opts) (vi_version versionInfo) in
    log_debug (MCreatedTempPaths updatePaths) ;;
    modify (fun st => set_cleanup st
      {| tempFilesCreated := tempFilesCreated (st_cleanup st);
         paths := Some updatePaths |}) ;;
    try_finally
      (try_catch (updateSteps opts versionInfo updatePaths)
                 (fun error => log_warn (MErrorUpdateProcess error)))
      (innerFinally opts).

  (** What follows a positive version decision (lines 967-1068). *)
Definition afterDecision (opts : CheckAndUpdateOptions) (metadata : PackageMetadata)
      (latestVersion : string) : M unit :=
    log_debug (MUpdateAvailable (name opts) (version opts) latestVersion) ;;
    found ← extractVersionInfo metadata latestVersion;
    match found with
    | None => log_warn (MCannotUpdate latestVersion)
    | Some versionInfo =>
        log_debug (MUpgearConfig (vi_upgear versionInfo)) ;;
        if needReinstall (vi_upgear versionInfo) then
          log_debug MSkipDownloadReinstall ;;
          displayUpdateNotification (vi_version versionInfo) (name opts) true
            (changelogUrl (vi_upgear versionInfo)) (the_dryRun opts) (onDisplay opts)
        else applyUpdate opts versionInfo
    end.

  (** From the registry request to the version decision (lines 934-965). *)
Definition checkRegistry (opts : CheckAndUpdateOptions) : M unit :=
    (if negb (the_dryRun opts) then writeCurrentTimestamp (name opts) else mret tt) ;;
    fetched ← fetchPackageMetadata (name opts) (the_registryBase opts);
    match fetched with
    | None => log_warn (MCouldNotCheck (name opts))
    | Some metadata =>
        match dist_tags metadata with
        | None => throw (ErrTypeError "metadata['dist-tags']")
        | Some tags =>
            match tags !! the_channel opts with
            | None | Some EmptyString =>
                log_warn (MChannelNotFound (the_channel opts) (name opts))
            | Some latestVersion =>
                log_debug (MVersions (version opts) latestVersion) ;;
                needed ← isUpdateNeeded (version opts) latestVersion;
                if negb needed then log_debug MNoUpdateNeeded
                else afterDecision opts metadata latestVersion
            end
        end
    end.

  (** The body of the outer [try] (lines 908-1068). *)
Definition checkBody (opts : CheckAndUpdateOptions) : M unit :=
    if the_skipOnCI opts && isCI then log_debug MSkipCI
    else
      proceed ← intervalGate opts;
      if negb proceed then mret tt else checkRegistry opts.

Definition checkAndUpdate (opts : CheckAndUpdateOptions) : M unit :=
    log_debug (MStart (options_view opts)) ;;
    modify (fun st => set_cleanup st {| tempFilesCreated := false; paths := None |}) ;;
    try_finally
      (try_catch (checkBody opts)
                 (fun error => log_warn (MErrorUpdateCheck error)))
      (outerFinally opts).
End Program.

(** ** Two instances of the [semver] interface

    [MockSemver] is the mock of [src/index.test.ts]: every string is valid
    and nothing is greater than anything.

    [NodeSemver] follows the package in strict mode, which is how
    [isUpdateNeeded] calls it: the string is trimmed, may start with one
    [v], has three numeric parts without leading zeros, then optionally a
    pre-release list after [-] and build metadata after [+].  Precedence
    is by the numeric parts, then a version with a pre-release list is
    below the one without, then the lists are compared identifier by
    identifier, numeric ones below the others.  The package is not part of
    the repository; the instance serves to run the embedding on concrete
    version strings. *)

Definition MockSemver : Semver :=
  {| semver_valid := fun _ => true;
     semver_gt := fun _ _ => Ok false |}.

Module NodeSemver.

Definition MAX_LENGTH : nat := 256.
Definition MAX_SAFE_INTEGER : N := 9007199254740991%N.

Inductive identifier :=
    | Numeric (n : N)
    | Alpha (s : string).

Record SemVer := {
    major : N;
    minor : N;
    patch : N;
    prerelease : list identifier;
  }.

Definition is_digit (c : ascii) : bool :=
    let n := nat_of_ascii c in ((48 <=? n) && (n <=? 57))%nat.

Definition is_space (c : ascii) : bool :=
    let n := nat_of_ascii c in ((9 <=? n) && (n <=? 13) || (n =? 32))%nat.

Definition is_ident_char (c : ascii) : bool :=
    is_alnum c || Ascii.eqb c "-"%char.

Fixpoint drop_spaces (s : string) : string :=
    match s with
    | String c rest => if is_space c then drop_spaces rest else s
    | EmptyString => s
    end.

Definition trim (s : string) : string :=
    String.rev (drop_spaces (String.rev (drop_spaces s))).

Fixpoint all_chars (f : ascii -> bool) (s : string) : bool :=
    match s with
    | EmptyString => true
    | String c rest => f c && all_chars f rest
    end.

Fixpoint digits_value (acc : N) (s : string) : N :=
    match s with
    | EmptyString => acc
    | String c rest => digits_value (acc * 10 + (N.of_nat (nat_of_ascii c) - 48))%N rest
    end.

  (** [0|[1-9]\d*] *)
Definition numeric_identifier (s : string) : option N :=
    match s with
    | EmptyString => None
    | String c rest =>
        if all_chars is_digit s && (negb (Ascii.eqb c "0"%char) || String.eqb rest "")
        then Some (digits_value 0%N s) else None
    end.

Definition main_number (s : string) : option N :=
    n ← numeric_identifier s;
    if (n <=? MAX_SAFE_INTEGER)%N then Some n else None.

  (** A pre-release identifier: numeric, or with a letter or hyphen. *)
Definition prerelease_identifier (s : string) : option identifier :=
    match s with
    | EmptyString => None
    | _ =>
        if all_chars is_digit s then
          n ← numeric_identifier s;
          Some (if (n <? MAX_SAFE_INTEGER)%N then Numeric n else Alpha s)
        else if all_chars is_ident_char s then Some (Alpha s) else None
    end.

Definition build_identifier (s : string) : bool :=
    match s with
    | EmptyString => false
    | _ => all_chars is_ident_char s
    end.

  (** Splits at the first occurrence of [sep]. *)
Fixpoint cut (sep : ascii) (acc : string) (s : string) : string * option string :=
    match s with
    | EmptyString => (String.rev acc, None)
    | String c rest =>
        if Ascii.eqb c sep then (String.rev acc, Some rest)
        else cut sep (String c acc) rest
    end.

Fixpoint split_dot (acc : string) (s : string) : list string :=
    match s with
    | EmptyString => [String.rev acc]
    | String c rest =>
        if Ascii.eqb c "."%char then String.rev acc :: split_dot EmptyString rest
        else split_dot (String c acc) rest
    end.

Definition parse (version : string) : option SemVer :=
    if (MAX_LENGTH <? String.length version)%nat then None
    else
      let s := trim version in
      let s := match s with
               | String c rest => if Ascii.eqb c "v"%char then rest else s
               | EmptyString => s
               end in
      let '(front, build) := cut "+"%char EmptyString s in
      let build_ok := match build with
                      | None => true
                      | Some b => forallb build_identifier (split_dot EmptyString b)
                      end in
      let '(main, pre) := cut "-"%char EmptyString front in
      pre_ids ← match pre with
                | None => Some []
                | Some p => mapM prerelease_identifier (split_dot EmptyString p)
                end;
      match split_dot EmptyString main with
      | [a; b; c] =>
          ma ← main_number a; mi ← main_number b; pa ← main_number c;
          if build_ok : bool
          then Some {| major := ma; minor := mi; patch := pa; prerelease := pre_ids |}
          else None
      | _ => None
      end.

Fixpoint string_compare (a b : string) : comparison :=
    match a, b with
    | EmptyString, EmptyString => Eq
    | EmptyString, String _ _ => Lt
    | String _ _, EmptyString => Gt
    | String x a', String y b' =>
        match (nat_of_ascii x ?= nat_of_ascii y)%nat with
        | Eq => string_compare a' b'
        | c => c
        end
    end.

Definition compareIdentifiers (a b : identifier) : comparison :=
    match a, b with
    | Numeric x, Numeric y => (x ?= y)%N
    | Numeric _, Alpha _ => Lt
    | Alpha _, Numeric _ => Gt
    | Alpha x, Alpha y => string_compare x y
    end.

Fixpoint comparePreLists (a b : list identifier) : comparison :=
    match a, b with
    | [], [] => Eq
    | [], _ :: _ => Lt
    | _ :: _, [] => Gt
    | x :: a', y :: b' =>
        match compareIdentifiers x y with
        | Eq => comparePreLists a' b'
        | c => c
        end
    end.

Definition comparePre (a b : SemVer) : comparison :=
    match prerelease a, prerelease b with
    | _ :: _, [] => Lt
    | [], _ :: _ => Gt
    | pa, pb => comparePreLists pa pb
    end.

Definition compareMain (a b : SemVer) : comparison :=
    match (major a ?= major b)%N with
    | Eq => match (minor a ?= minor b)%N with
            | Eq => (patch a ?= patch b)%N
            | c => c
            end
    | c => c
    end.

Definition compare (a b : SemVer) : comparison :=
    match compareMain a b with
    | Eq => comparePre a b
    | c => c
    end.

Definition valid (version : string) : bool :=
    match parse version with Some _ => true | None => false end.

Definition gt (a b : string) : result bool :=
    match parse a, parse b with
    | Some x, Some y => Ok (match compare x y with Gt => true | _ => false end)
    | _, _ => Throw (ErrSemver "Invalid Version")
    end.

Definition instance : Semver := {| semver_valid := valid; semver_gt := gt |}.

End NodeSemver.

(** ** Vocabulary of the statements

    A relation between the state before, the events and the state after is
    an [ActionRel] when it holds of no step at all and of two steps in a
    row; [sat R m] says that every run of [m] is in [R]. *)

Class ActionRel (R : state -> list event -> state -> Prop) : Prop := {
  ar_refl : forall st, R st [] st;
  ar_trans : forall s1 e1 s2 e2 s3, R s1 e1 s2 -> R s2 e2 s3 -> R s1 (e1 ++ e2) s3;
}.

Definition sat {A} (R : state -> list event -> state -> Prop) (m : M A) : Prop :=
  forall st, R st (events (m st)) (final (m st)).

(** All events are of one kind; the nodes at some paths stay as they are;
    the timestamp store, or the whole file system, stays as it is. *)
Definition events_in (E : event -> Prop) : state -> list event -> state -> Prop :=
  fun _ evs _ => Forall E evs.

Definition keeps (K : path -> Prop) : state -> list event -> state -> Prop :=
  fun st _ st' => forall q, K q -> st_fs st' !! q = st_fs st !! q.

Definition keeps_store : state -> list event -> state -> Prop :=
  fun st _ st' => st_store st' = st_store st.

Definition keeps_fs : state -> list event -> state -> Prop :=
  fun st _ st' => st_fs st' = st_fs st.

(** A computation that never throws. *)
Definition total {A} (m : M A) : Prop :=
  forall st, exists a, res (m st) = Ok a.

(** The decisions of [checkAndUpdate] as functions of the host, the
    options and the state, for use in the statements; the lemmas below tie
    each to the code it describes. *)

Definition last_check (st : state) (packageName : string) : Z :=
  match st_store st with
  | StoreData data => default 0%Z (data !! packageName)
  | _ => 0%Z
  end.

Definition ci_skips (h : host) (opts : CheckAndUpdateOptions) : bool :=
  the_skipOnCI opts && isCI h.

Definition interval_skips (h : host) (opts : CheckAndUpdateOptions) (st : state) : bool :=
  negb (the_dryRun opts) && (0 <? the_updateCheckIntervalMs opts)%Z
  && (0 <? last_check st (name opts))%Z
  && (h_now h - last_check st (name opts) <? the_updateCheckIntervalMs opts)%Z.

Definition registry_url (h : host) (opts : CheckAndUpdateOptions) : string :=
  buildPackageUrl h (name opts) (the_registryBase opts).

(** The metadata the registry answers with and the version the channel
    points to, when both are there. *)
Definition resolved_latest (h : host) (opts : CheckAndUpdateOptions)
  : option (PackageMetadata * string) :=
  match h_registry h (registry_url h opts) with
  | FetchOk metadata =>
      match dist_tags metadata with
      | Some tags =>
          match tags !! the_channel opts with
          | Some (String c rest) => Some (metadata, String c rest)
          | _ => None
          end
      | None => None
      end
  | _ => None
  end.

Definition update_needed `{Semver} (current latest : string) : bool :=
  semver_valid current && semver_valid latest
  && match semver_gt latest current with Ok true => true | _ => false end.

Definition core_files : list string := ["dist"; "package.json"].

Definition policy_of (version tarballUrl : string) (upgear : UpgearRaw) : VersionInfo :=
  {| vi_version := version;
     vi_tarballUrl := tarballUrl;
     vi_upgear := {| files := core_files ++ default [] (raw_files upgear);
                     needReinstall := default false (raw_needReinstall upgear);
                     changelogUrl := raw_changelogUrl upgear |} |}.

Definition policy (metadata : PackageMetadata) (version : string) : option VersionInfo :=
  match versions metadata with
  | Some vs =>
      match vs !! version with
      | Some versionData =>
          match vd_dist versionData, vd_upgear versionData with
          | Some (Some (String c rest)), Some upgear =>
              Some (policy_of version (String c rest) upgear)
          | _, _ => None
          end
      | None => None
      end
  | None => None
  end.

(** The run gets as far as an update to apply: past the gates, with
    metadata, a newer version and a policy that does not ask for a
    reinstall. *)
Definition applicable_update `{Semver} (h : host) (opts : CheckAndUpdateOptions)
    (st : state) : option VersionInfo :=
  if ci_skips h opts || interval_skips h opts st then None
  else match resolved_latest h opts with
       | Some (metadata, latest) =>
           if update_needed (version opts) latest then
             match policy metadata latest with
             | Some versionInfo =>
                 if needReinstall (vi_upgear versionInfo) then None else Some versionInfo
             | None => None
             end
           else None
       | None => None
       end.

Definition fresh_cleanup : CleanupOperations :=
  {| tempFilesCreated := false; paths := None |}.

(** ** A concrete installation

    The scenario of the specification: version [1.0.0] runs, the registry
    has [1.1.0] under [latest] with the policy
    [{files: ["dist", "package.json"], changelogUrl}], the archive wraps its
    payload in [package/]. *)

Definition ex_upgear : UpgearRaw :=
  {| raw_files := Some ["dist"; "package.json"];
     raw_needReinstall := None;
     raw_changelogUrl := Some "https://x/CHANGELOG" |}.

Definition ex_metadata : PackageMetadata :=
  {| dist_tags := Some {[ "latest" := "1.1.0" ]};
     versions := Some {[ "1.1.0" :=
       {| vd_dist := Some (Some "https://registry.npmjs.org/my-cli/-/my-cli-1.1.0.tgz");
          vd_upgear := Some ex_upgear |} ]} |}.

Definition ex_archive : list (path * node) :=
  [ (["package"], Dir);
    (["package"; "dist"], Dir);
    (["package"; "dist"; "index.js"], File "new code");
    (["package"; "package.json"], File "{ version: 1.1.0 }") ].

Definition ex_host_with (env : gmap string string)
    (refuses : fsop -> path -> bool) : host :=
  {| h_env := env;
     h_now := 1700000000000%Z;
     h_tmpdir := ["tmp"];
     h_encode := fun s => s;
     h_registry := fun _ => FetchOk ex_metadata;
     h_tarball := fun _ => DlBody "archive bytes" true;
     h_untar := fun _ => (ex_archive, true);
     h_refuses := refuses;
     h_store_refuses := false |}.

Definition ex_host : host := ex_host_with ∅ (fun _ _ => false).

Definition ex_fs : gmap path node :=
  list_to_map
    [ (["tmp"], Dir); (["opt"], Dir); (["opt"; "cli"], Dir);
      (["opt"; "cli"; "dist"], Dir);
      (["opt"; "cli"; "dist"; "index.js"], File "old code");
      (["opt"; "cli"; "package.json"], File "{ version: 1.0.0 }") ].

Definition ex_state_with (store : store_file) : state :=
  {| st_fs := ex_fs; st_store := store; st_cleanup := fresh_cleanup |}.

Definition ex_state : state := ex_state_with StoreMissing.

Definition ex_options_with (version : string) (dryRun : option bool)
    (installDir : option string) : CheckAndUpdateOptions :=
  {| debug := true; version := version; name := "my-cli";
     registryBase := None; channel := None; skipOnCI := None;
     updateCheckIntervalMs := None; dryRun := dryRun;
     installDir := installDir; onDisplay := None |}.

Definition ex_options : CheckAndUpdateOptions :=
  ex_options_with "1.0.0" None (Some "/opt/cli").

(** The events up to the version decision: the gate's, the timestamp's,
    the registry request and the logger calls around them. *)
Definition is_gate_event (e : event) : bool :=
  match e with
  | EvStoreRead | EvStoreWrite _ | EvRegistry _ => true
  | EvLog _ m =>
      match m with
      | MStart _ | MSkipInterval _ _ | MProceedInterval _ _ | MFetching _ | MFetched
      | MVersions _ _ | MInvalidVersion _ _ | MVersionComparison _ _ _
      | MErrorComparing _ | MNoUpdateNeeded => true
      | _ => false
      end
  | _ => false
  end.

(** Every event but the reading of the timestamp file. *)
Definition not_store_read (e : event) : bool :=
  match e with EvStoreRead => false | _ => true end.

(** C10 as the specification states it: a recognized variable that is
    merely set makes the run stop after its first two logger calls. *)
Definition ci_variables : list string :=
  ["CI"; "CONTINUOUS_INTEGRATION"; "BUILD_NUMBER"; "GITHUB_ACTIONS"].

Definition ci_variable_set (h : host) : Prop :=
  exists k, k ∈ ci_variables /\ is_Some (h_env h !! k).

Definition ci_skip_as_stated `{Semver} (h : host) (opts : CheckAndUpdateOptions)
    (st : state) : Prop :=
  the_skipOnCI opts = true -> ci_variable_set h ->
  events (checkAndUpdate h opts st)
  = [EvLog Debug (MStart (options_view opts)); EvLog Debug MSkipCI].

Definition ci_variable_truthy (h : host) : Prop :=
  exists k v, k ∈ ci_variables /\ h_env h !! k = Some v /\ v <> "".

(** C7 as the specification states it: the effective list is the union of
    the core paths and the declared ones, each path once. *)
Definition union_once (upgear : UpgearRaw) (fl : list string) : Prop :=
  NoDup fl /\ forall f, f ∈ fl <-> f ∈ core_files \/ f ∈ default [] (raw_files upgear).

Definition effective_files_as_stated (metadata : PackageMetadata) (version : string)
    (st : state) : Prop :=
  forall vs versionData upgear versionInfo,
    versions metadata = Some vs -> vs !! version = Some versionData ->
    vd_upgear versionData = Some upgear ->
    res (extractVersionInfo metadata version st) = Ok (Some versionInfo) ->
    union_once upgear (files (vi_upgear versionInfo)).

(** C8 as the specification states it: one top-level folder, whatever its
    name, becomes the source root. *)
Definition wrapper_folder (fs : gmap path node) (dir : path) : option string :=
  match readdir_names fs dir with
  | [n] => match fs !! (dir ++ [n]) with Some Dir => Some n | _ => None end
  | _ => None
  end.

Definition source_root_as_stated (extractDir : path) (st : state) : Prop :=
  res (sourceBase extractDir st)
  = Ok (match wrapper_folder (st_fs st) extractDir with
        | Some n => extractDir ++ [n]
        | None => extractDir
        end).

(** An extraction directory whose only entry is a folder not called [package]. *)
Definition ex_unwrapped_state : state :=
  {| st_fs := list_to_map
       [ (["tmp"], Dir); (["tmp"; "x"], Dir); (["tmp"; "x"; "my-cli-1.1.0"], Dir);
         (["tmp"; "x"; "my-cli-1.1.0"; "package.json"], File "{ version: 1.1.0 }") ];
     st_store := StoreMissing; st_cleanup := fresh_cleanup |}.

(** How the backup loop and the copy loop end the handling of one path:
    each way is one logger call of the source. *)
Inductive handled :=
  | Absent (p : path)                 (* nothing there: skipped *)
  | Simulated (p : path)              (* dry run: only announced *)
  | Completed (p : path)
  | Failed (p : path) (e : error).    (* the error was caught and logged *)

Definition handled_path (o : handled) : path :=
  match o with
  | Absent p | Simulated p | Completed p | Failed p _ => p
  end.

Definition backup_outcome (e : event) : option handled :=
  match e with
  | EvLog Debug (MSkipBackup full) => Some (Absent full)
  | EvLog Info (MDryBackup full _) => Some (Simulated full)
  | EvLog Debug (MBackedUp full) => Some (Completed full)
  | EvLog Warn (MErrorBackingUp full err) => Some (Failed full err)
  | _ => None
  end.

Definition copy_outcome (e : event) : option handled :=
  match e with
  | EvLog Warn (MSourceNotFound source) => Some (Absent source)
  | EvLog Info (MDryCopy _ dest) => Some (Simulated dest)
  | EvLog Debug (MCopied dest) => Some (Completed dest)
  | EvLog Warn (MErrorCopying _ dest err) => Some (Failed dest err)
  | _ => None
  end.

(** The events of [m] that [f] keeps are [last] when [m] returns and none
    when it throws. *)
Definition closes_with {A B} (f : event -> option B) (last : list B) (m : M A) : Prop :=
  forall st, omap f (events (m st))
             = match res (m st) with Ok _ => last | Throw _ => [] end.

(** More relations of the same kind: the file system only loses nodes;
    the [cleanup] object stays as it is. *)
Definition shrinks : state -> list event -> state -> Prop :=
  fun st _ st' => forall k, is_Some (st_fs st' !! k) -> is_Some (st_fs st !! k).

Definition keeps_cleanup : state -> list event -> state -> Prop :=
  fun st _ st' => st_cleanup st' = st_cleanup st.

(** A relation that only looks at the two states and holds when nothing
    changes, whatever the events. *)
Class Still (R : state -> list event -> state -> Prop) : Prop :=
  still : forall st evs, R st evs st.

(** The body of the [forEach] of [deleteDirRecursive], for the statements
    about it. *)
Definition delete_entry (h : host) (fuel : nat) (dirPath : path) (file : string)
  : M unit :=
  let curPath := dirPath ++ [file] in
  n ← statSync curPath;
  match n with
  | Dir => deleteDirRecursive_fuel h fuel curPath
  | File _ => unlinkSync h curPath
  end.

(** Every node of the file system lies less than [b] deep. *)
Definition shallow (fs : gmap path node) (b : nat) : Prop :=
  forall k, is_Some (fs !! k) -> length k < b.

(** The file system lets everything at or below [p] be deleted. *)
Definition deletable (h : host) (p : path) : Prop :=
  forall q, p `prefix_of` q ->
    h_refuses h OpUnlink q = false /\ h_refuses h OpRmdir q = false.

(** A relation that does not look at the file system. *)
Class IgnoresFs (R : state -> list event -> state -> Prop) : Prop :=
  ignores_fs : forall st evs fs, R st evs (set_fs st fs).

(** The two scratch paths are two different names in one directory, as
    [createTempPaths] makes them. *)
Definition siblings (ps : UpdatePaths) : Prop :=
  exists tmp a b, a <> b /\ tarballPath ps = tmp ++ [a] /\ extractDir ps = tmp ++ [b].

(** Neither scratch path is there. *)
Definition scratch_gone (ps : UpdatePaths) (fs : gmap path node) : Prop :=
  fs !! tarballPath ps = None /\ fs !! extractDir ps = None.

(** What is at the scratch paths, if anything, is a file for the archive
    and a directory for the extraction. *)
Definition scratch_ok (ps : UpdatePaths) (fs : gmap path node) : Prop :=
  (fs !! tarballPath ps = None \/ exists data, fs !! tarballPath ps = Some (File data))
  /\ (fs !! extractDir ps = None \/ fs !! extractDir ps = Some Dir).

Definition keeps_scratch_ok (ps : UpdatePaths) : state -> list event -> state -> Prop :=
  fun st _ st' => scratch_ok ps (st_fs st) -> scratch_ok ps (st_fs st').

(** The paths the backup and the copy write to are apart from the scratch
    paths: neither above nor below them. *)
Definition install_apart (opts : CheckAndUpdateOptions) (fl : list string)
    (ps : UpdatePaths) : Prop :=
  forall d f s,
    installDir opts = Some d -> f ∈ fl ->
    s = tarballPath ps \/ s = extractDir ps ->
    ~ comparable s (join (to_path d) f)
    /\ ~ comparable s (backup_path d f).

(** The events before the temporary paths are made. *)
Definition is_prelude_event (e : event) : bool :=
  is_gate_event e
  || match e with
     | EvLog Debug (MUpdateAvailable _ _ _) | EvLog Debug (MExtractedInfo _ _)
     | EvLog Debug (MUpgearConfig _) => true
     | _ => false
     end.

(** The update the registry of the scenario offers to version 1.0.0. *)
Definition ex_versionInfo : VersionInfo :=
  {| vi_version := "1.1.0";
     vi_tarballUrl := "https://registry.npmjs.org/my-cli/-/my-cli-1.1.0.tgz";
     vi_upgear := {| files := ["dist"; "package.json"; "dist"; "package.json"];
                     needReinstall := false;
                     changelogUrl := Some "https://x/CHANGELOG" |} |}.

(** The [cleanup] object keeps its paths, and [tempFilesCreated] is set or
    left as it is. *)
Definition cleanup_grows : state -> list event -> state -> Prop :=
  fun st _ st' =>
    paths (st_cleanup st') = paths (st_cleanup st)
    /\ (tempFilesCreated (st_cleanup st') = tempFilesCreated (st_cleanup st)
        \/ tempFilesCreated (st_cleanup st') = true).

(** The scratch area of a run: the two scratch paths, what is below them
    and the directories above them. *)
Definition scratch_area (ps : UpdatePaths) (p : path) : Prop :=
  comparable (tarballPath ps) p \/ comparable (extractDir ps) p.

(** The logger calls of the download, the extraction and the cleanup, and
    of the handler of the update attempt. *)
Definition is_scratch_msg (m : msg) : bool :=
  match m with
  | MCreatedTempPaths _ | MDryDownload _ _ | MDownloading _ _ | MDownloaded _
  | MErrorCleaningDownload _ | MDryExtract _ _ | MExtracting _ _ | MExtracted _
  | MExtractedContents _ | MDeletedTarball _ | MErrorUpdateProcess _
  | MCleaningUp | MDeletedExtractDir _ | MErrorCleaning _ => true
  | _ => false
  end.

(** Events that leave the installation alone: those before the temporary
    paths are made, the archive request, file-system calls in the scratch
    area and the logger calls around them.  No event of the backup, of the
    replace step or of the notification is among them. *)
Definition spares_installation (ps : UpdatePaths) (e : event) : Prop :=
  is_prelude_event e = true
  \/ match e with
     | EvFs _ p _ => scratch_area ps p
     | EvDownload _ => True
     | EvLog _ m => is_scratch_msg m = true
     | _ => False
     end.

(** A computation that throws whatever the state. *)
Definition throws {A} (m : M A) : Prop :=
  forall st, exists e, res (m st) = Throw e.

(** C6 as the specification states it: nothing is written before the
    failed assertion on [installDir] is reported. *)
Definition is_install_abort (e : event) : bool :=
  match e with
  | EvLog Warn (MErrorUpdateProcess (ErrAssertion _)) => true
  | _ => false
  end.

Fixpoint writes_before_abort (evs : list event) : bool :=
  match evs with
  | [] => false
  | e :: rest =>
      if is_install_abort e then false
      else is_fs_mutation e || writes_before_abort rest
  end.

Definition missing_install_dir_as_stated `{Semver} (h : host)
    (opts : CheckAndUpdateOptions) (st : state) : Prop :=
  installDir opts = None -> is_Some (applicable_update h opts st) ->
  writes_before_abort (events (checkAndUpdate h opts st)) = false.

(** More relations: the file system and the timestamp store stay as they
    are; the whole state does. *)
Definition keeps_files : state -> list event -> state -> Prop :=
  fun st _ st' => st_fs st' = st_fs st /\ st_store st' = st_store st.

Definition same_state : state -> list event -> state -> Prop :=
  fun st _ st' => st' = st.

(** The events that change something outside the process: a mutating
    file-system call, a write of the timestamp file, a request for the
    archive. *)
Definition is_effect (e : event) : bool :=
  match e with
  | EvFs _ _ _ | EvStoreWrite _ | EvDownload _ => true
  | _ => false
  end.

(** Nothing is at or below the extraction directory, and the declared
    paths name nodes at or below it. *)
Definition extraction_absent (ps : UpdatePaths) (fs : gmap path node) : Prop :=
  forall q, extractDir ps `prefix_of` q -> fs !! q = None.

Definition below_root (ps : UpdatePaths) (fl : list string) : Prop :=
  Forall (fun f => extractDir ps `prefix_of` join (extractDir ps) f) fl.

(** A host whose file system refuses every [rmdir]. *)
Definition ex_host_no_rmdir : host :=
  ex_host_with ∅ (fun op _ => match op with OpRmdir => true | _ => false end).

(** C2 as the specification states it: once the archive was written,
    neither scratch path is there when the run returns. *)
Definition cleanup_invariant_as_stated `{Semver} (h : host)
    (opts : CheckAndUpdateOptions) (st : state) : Prop :=
  the_dryRun opts = false ->
  forall versionInfo, applicable_update h opts st = Some versionInfo ->
  let ps := createTempPaths h (name opts) (vi_version versionInfo) in
  In (EvFs OpWriteStream (tarballPath ps) true) (events (checkAndUpdate h opts st)) ->
  scratch_gone ps (st_fs (final (checkAndUpdate h opts st))).

(** The scratch paths of the scenario; a state in which a file is left at
    the extraction path; an installation directory that is the path of the
    scratch archive. *)
Definition ex_scratch : UpdatePaths := createTempPaths ex_host "my-cli" "1.1.0".

Definition ex_stale_scratch_state : state :=
  {| st_fs := <[ extractDir ex_scratch := File "left over" ]> ex_fs;
     st_store := StoreMissing; st_cleanup := fresh_cleanup |}.

Definition ex_options_in_scratch : CheckAndUpdateOptions :=
  ex_options_with "1.0.0" None (Some "/tmp/my_cli-1.1.0-1700000000000.tgz").

(** Failures that the source drops without a word: a failed [unlink] or
    [rmdir] (inside [deleteDirRecursive]) and a failed write of the
    timestamp file. *)
Definition is_silent_failure (e : event) : bool :=
  match e with
  | EvFs OpUnlink _ false | EvFs OpRmdir _ false | EvStoreWrite false => true
  | _ => false
  end.

(** Every failure of the trace that is not excused is followed, later in
    the trace, by a warning. *)
Fixpoint warned (excused : event -> bool) (evs : list event) : bool :=
  match evs with
  | [] => true
  | e :: rest =>
      (negb (is_failure e) || excused e || existsb is_warning rest)
      && warned excused rest
  end.

(** When the computation returns, its failures have had their warnings. *)
Definition tidy {A} (m : M A) : Prop :=
  forall st a, res (m st) = Ok a -> warned is_silent_failure (events (m st)) = true.

(** A handler that logs a warning, whatever else it does. *)
Definition warns {A} (hd : error -> M A) : Prop :=
  forall e st, existsb is_warning (events (hd e st)) = true
               /\ warned is_silent_failure (events (hd e st)) = true.


(** The file system only loses nodes: what is left is as it was. *)
Definition only_removes : state -> list event -> state -> Prop :=
  fun st _ st' => st_fs st' ⊆ st_fs st.

(** An [unlink] or [rmdir] call at or below [p]. *)
Definition removal_under (p : path) (e : event) : Prop :=
  exists op q ok, e = EvFs op q ok /\ p `prefix_of` q /\ (op = OpUnlink \/ op = OpRmdir).

(** The URL of a registry request. *)
Definition request_of (e : event) : option string :=
  match e with EvRegistry url => Some url | _ => None end.

(** The update the registry offers to the running version, the gates left
    aside: metadata, a newer valid version under the channel, and a policy
    that does not ask for a reinstall. *)
Definition offered_update `{Semver} (h : host) (opts : CheckAndUpdateOptions)
  : option VersionInfo :=
  match resolved_latest h opts with
  | Some (metadata, latest) =>
      if update_needed (version opts) latest then
        match policy metadata latest with
        | Some versionInfo =>
            if needReinstall (vi_upgear versionInfo) then None else Some versionInfo
        | None => None
        end
      else None
  | None => None
  end.

(** A mutating file-system call or a request for the archive. *)
Definition touches_files (e : event) : bool :=
  match e with
  | EvFs _ _ _ | EvDownload _ => true
  | _ => false
  end.

(** When the computation returns, it has logged a warning. *)
Definition returns_warned {A} (m : M A) : Prop :=
  forall st a, res (m st) = Ok a -> existsb is_warning (events (m st)) = true.

(** The notification an event shows, and by which means. *)
Definition display_of (e : event) : option (bool * DisplayInfo) :=
  match e with EvDisplay custom info => Some (custom, info) | _ => None end.

(** The events of [m] that [f] keeps are [l], however [m] ends. *)
Definition shows {A B} (f : event -> option B) (l : list B) (m : M A) : Prop :=
  forall st, omap f (events (m st)) = l.

(** A registry whose latest version asks for a reinstall. *)
Definition ex_reinstall_metadata : PackageMetadata :=
  {| dist_tags := Some {[ "latest" := "2.0.0" ]};
     versions := Some {[ "2.0.0" :=
       {| vd_dist := Some (Some "https://registry.npmjs.org/my-cli/-/my-cli-2.0.0.tgz");
          vd_upgear := Some {| raw_files := None; raw_needReinstall := Some true;
                               raw_changelogUrl := None |} |} ]} |}.

Definition ex_host_reinstall : host :=
  {| h_env := ∅;
     h_now := 1700000000000%Z;
     h_tmpdir := ["tmp"];
     h_encode := fun s => s;
     h_registry := fun _ => FetchOk ex_reinstall_metadata;
     h_tarball := fun _ => DlBody "archive bytes" true;
     h_untar := fun _ => (ex_archive, true);
     h_refuses := fun _ _ => false;
     h_store_refuses := false |}.

(** The nodes at the paths of [K] that are there stay there, with whatever
    content. *)
Definition survives (K : path -> Prop) : state -> list event -> state -> Prop :=
  fun st _ st' => forall q, K q -> is_Some (st_fs st !! q) -> is_Some (st_fs st' !! q).

(** ** The handling of one path

    [fsop] is compared by cases. *)
Definition fsop_eqb (a b : fsop) : bool :=
  match a, b with
  | OpMkdir, OpMkdir | OpUnlink, OpUnlink | OpRmdir, OpRmdir
  | OpCopyFile, OpCopyFile | OpCp, OpCp | OpWriteStream, OpWriteStream
  | OpUntar, OpUntar => true
  | _, _ => false
  end.

(** The failed calls that [deleteDirRecursive(backupPath)] drops in its own
    [catch]: an [rmdir] at or below the backup path, an [unlink] below it. *)
Definition dropped_by_delete (backupPath : path) (e : event) : bool :=
  match e with
  | EvFs OpRmdir q false => bool_decide (backupPath `prefix_of` q)
  | EvFs OpUnlink q false =>
      bool_decide (backupPath `prefix_of` q) && negb (bool_decide (q = backupPath))
  | _ => false
  end.

(** The failed calls of the backup of one path that reach its [catch]. *)
Definition reaches_backup_catch (installDir filePath : string) (e : event) : bool :=
  is_failure e && negb (dropped_by_delete (backup_path installDir filePath) e).

(** The warning of a per-path [catch] carries the error of the call [op]
    at [q]. *)
Definition reports (m : msg) (op : fsop) (q : path) : bool :=
  match m with
  | MErrorBackingUp _ (ErrFs op' q' _) | MErrorCopying _ _ (ErrFs op' q' _) =>
      fsop_eqb op' op && bool_decide (q' = q)
  | _ => false
  end.

(** Every call of the trace that [loud] singles out is answered at once:
    the warning that reports it comes next, and nothing comes after it. *)
Fixpoint answered_at_once (loud : event -> bool) (evs : list event) : bool :=
  match evs with
  | [] => true
  | e :: rest =>
      (negb (loud e)
       || match e, rest with
          | EvFs op q _, [EvLog Warn m] => reports m op q
          | _, _ => false
          end)
      && answered_at_once loud rest
  end.

(** The calls of the backup of one path are at or below its backup path;
    those of its copy are at its destination or at the directory of the
    destination. *)
Definition backup_call (installDir filePath : string) (e : event) : Prop :=
  match e with
  | EvFs _ q _ => backup_path installDir filePath `prefix_of` q
  | _ => True
  end.

Definition copy_call (installDir filePath : string) (e : event) : Prop :=
  match e with
  | EvFs _ q _ => q = join (to_path installDir) filePath
                  \/ q = dirname (join (to_path installDir) filePath)
  | _ => True
  end.

(** The block ends with the logger call that tells how the handling of the
    path ended, and holds no other such call. *)
Definition ends_with_outcome (f : event -> option handled) (block : list event)
    (o : handled) : Prop :=
  exists pre last, block = pre ++ [last] /\ omap f pre = [] /\ f last = Some o.

(** The events of the handling of one path by the backup loop and by the
    copy loop: they end with the one outcome, which is for that path; every
    failed call that reaches the [catch] is answered at once; and every
    call concerns that path. *)
Definition backup_block (installDir filePath : string) (block : list event) : Prop :=
  (exists o, ends_with_outcome backup_outcome block o
             /\ handled_path o = join (to_path installDir) filePath)
  /\ answered_at_once (reaches_backup_catch installDir filePath) block = true
  /\ Forall (backup_call installDir filePath) block.

Definition copy_block (base : path) (installDir filePath : string)
    (block : list event) : Prop :=
  (exists o, ends_with_outcome copy_outcome block o
             /\ handled_path o = match o with
                                 | Absent _ => join base filePath
                                 | _ => join (to_path installDir) filePath
                                 end)
  /\ answered_at_once is_failure block = true
  /\ Forall (copy_call installDir filePath) block.

(** When the computation returns, [last] was its last event. *)
Definition ends_in {A} (last : event) (m : M A) : Prop :=
  forall st a, res (m st) = Ok a -> exists pre, events (m st) = pre ++ [last].

(** No event of the trace is singled out by [loud]. *)
Definition hushed (loud : event -> bool) (evs : list event) : bool :=
  forallb (fun e => negb (loud e)) evs.

(** A computation whose failed calls, as far as [loud] singles them out,
    make it throw at once: when it returns there was none, and when it
    throws there was at most one, the last event, whose error is thrown. *)
Definition abrupt {A} (loud : event -> bool) (m : M A) : Prop :=
  forall st,
    match res (m st) with
    | Ok _ => hushed loud (events (m st)) = true
    | Throw e =>
        exists pre, hushed loud pre = true
          /\ (events (m st) = pre
              \/ exists op q code,
                   events (m st) = pre ++ [EvFs op q false] /\ e = ErrFs op q code)
    end.

(** C9 as the specification states it: every failed call of the two loops
    is followed, later in the trace, by a warning. *)
Definition per_path_failures_as_stated (h : host) (files : list string)
    (extractDir : path) (installDir : string) (st : state) : Prop :=
  warned (fun _ => false) (events (backupFiles h files installDir false st)) = true
  /\ warned (fun _ => false)
       (events (copyUpdatedFiles h files extractDir installDir false st)) = true.

(** The installation with a backup of [dist] left by an earlier update. *)
Definition ex_stale_backup_state : state :=
  {| st_fs := <[ ["opt"; "cli"; "dist.bak"; "index.js"] := File "older code" ]>
                (<[ ["opt"; "cli"; "dist.bak"] := Dir ]> ex_fs);
     st_store := StoreMissing; st_cleanup := fresh_cleanup |}.




(** * Properties *)

(** ** Running the combinators *)

Lemma run_bind {A B} (m : M A) (k : A -> M B) st :
  (m ≫= k) st =
  match res (m st) with
  | Ok a => Out (events (m st) ++ events (k a (final (m st))))
                (final (k a (final (m st)))) (res (k a (final (m st))))
  | Throw e => Out (events (m st)) (final (m st)) (Throw e)
  end.
Proof. reflexivity. Qed.

Lemma run_bind_ok {A B} (m : M A) (k : A -> M B) st a :
  res (m st) = Ok a ->
  (m ≫= k) st = Out (events (m st) ++ events (k a (final (m st))))
                    (final (k a (final (m st)))) (res (k a (final (m st)))).
Proof. intros H. rewrite run_bind, H. reflexivity. Qed.

Lemma run_bind_throw {A B} (m : M A) (k : A -> M B) st e :
  res (m st) = Throw e ->
  (m ≫= k) st = Out (events (m st)) (final (m st)) (Throw e).
Proof. intros H. rewrite run_bind, H. reflexivity. Qed.

Lemma run_try_catch {A} (m : M A) (hd : error -> M A) st :
  try_catch m hd st =
  match res (m st) with
  | Ok a => m st
  | Throw e => Out (events (m st) ++ events (hd e (final (m st))))
                   (final (hd e (final (m st)))) (res (hd e (final (m st))))
  end.
Proof. reflexivity. Qed.

(** Unfolds a run as far as it is determined. *)
Ltac run := repeat first [ rewrite run_bind | rewrite run_try_catch | progress simpl ].

Lemma outcome_eta {A} (o : outcome A) : Out (events o) (final o) (res o) = o.
Proof. by destruct o. Qed.

(** ** The rules of [sat] *)

Section Sat.
Context (R : state -> list event -> state -> Prop) `{!ActionRel R}.

Lemma sat_ret {A} (a : A) : sat R (mret a).
  Proof. intros st. apply ar_refl. Qed.

Lemma sat_throw {A} e : sat R (@throw A e).
  Proof. intros st. apply ar_refl. Qed.

Lemma sat_get_state : sat R get_state.
  Proof. intros st. apply ar_refl. Qed.

Lemma sat_lift_result {A} (r : result A) : sat R (lift_result r).
  Proof. destruct r; [apply sat_ret | apply sat_throw]. Qed.

Lemma sat_bind {A B} (m : M A) (k : A -> M B) :
    sat R m -> (forall a, sat R (k a)) -> sat R (m ≫= k).
  Proof.
    intros Hm Hk st. rewrite run_bind. specialize (Hm st).
    destruct (res (m st)) as [a|e]; simpl; [|done].
    eapply ar_trans; [exact Hm | apply Hk].
  Qed.

Lemma sat_try_catch {A} (m : M A) (hd : error -> M A) :
    sat R m -> (forall e, sat R (hd e)) -> sat R (try_catch m hd).
  Proof.
    intros Hm Hh st. rewrite run_try_catch. specialize (Hm st).
    destruct (res (m st)) as [a|e]; simpl; [done|].
    eapply ar_trans; [exact Hm | apply Hh].
  Qed.

Lemma sat_try_finally {A} (m : M A) (f : M unit) :
    sat R m -> sat R f -> sat R (try_finally m f).
  Proof.
    intros Hm Hf st. unfold try_finally; simpl.
    eapply ar_trans; [apply Hm | apply Hf].
  Qed.

Lemma sat_for_each {A} (xs : list A) (body : A -> M unit) :
    (forall x, x ∈ xs -> sat R (body x)) -> sat R (for_each xs body).
  Proof.
    induction xs as [|x xs IH]; intros Hb; simpl.
    - apply sat_ret.
    - apply sat_bind; [apply Hb; left | intros _; apply IH].
      intros y Hy. apply Hb. by right.
  Qed.
End Sat.

#[global] Instance events_in_rel E : ActionRel (events_in E).
Proof.
  split; unfold events_in.
  - intros; constructor.
  - intros s1 e1 s2 e2 s3 H1 H2. by apply Forall_app_2.
Qed.

#[global] Instance keeps_rel K : ActionRel (keeps K).
Proof.
  split; unfold keeps.
  - done.
  - intros s1 e1 s2 e2 s3 H1 H2 q Hq. rewrite H2, H1; done.
Qed.

#[global] Instance keeps_store_rel : ActionRel keeps_store.
Proof. split; unfold keeps_store; [done | intros; congruence]. Qed.

#[global] Instance keeps_fs_rel : ActionRel keeps_fs.
Proof. split; unfold keeps_fs; [done | intros; congruence]. Qed.

#[global] Instance and_rel R1 R2 `{!ActionRel R1, !ActionRel R2} :
  ActionRel (fun st evs st' => R1 st evs st' /\ R2 st evs st').
Proof.
  split.
  - intros; split; apply ar_refl.
  - intros s1 e1 s2 e2 s3 [H1 H1'] [H2 H2']; split; eapply ar_trans; eauto.
Qed.

(** Calls that only look: no event, no change. *)
Lemma sat_look {A} R `{!ActionRel R} (m : M A) :
  (forall st, events (m st) = [] /\ final (m st) = st) -> sat R m.
Proof. intros H st. destruct (H st) as [-> ->]. apply ar_refl. Qed.

Lemma existsSync_look p st :
  events (existsSync p st) = [] /\ final (existsSync p st) = st.
Proof. done. Qed.

Lemma existsSync_spelled_look trailing p st :
  events (existsSync_spelled trailing p st) = []
  /\ final (existsSync_spelled trailing p st) = st.
Proof. done. Qed.

Lemma existsSync_spelled_bind {B} trailing p (k : bool -> M B) st :
  (existsSync_spelled trailing p ≫= k) st
  = k (spelled_found trailing (lookup_node (st_fs st) p)) st.
Proof. rewrite run_bind. simpl. by destruct (k _ st). Qed.

Lemma statSync_look p st :
  events (statSync p st) = [] /\ final (statSync p st) = st.
Proof. unfold statSync. by destruct (lookup_node _ _). Qed.

Lemma readdirSync_look p st :
  events (readdirSync p st) = [] /\ final (readdirSync p st) = st.
Proof. unfold readdirSync. by destruct (lookup_node _ _) as [[]|]. Qed.

Lemma sat_existsSync R `{!ActionRel R} p : sat R (existsSync p).
Proof. apply sat_look; [done|]. intros st. apply existsSync_look. Qed.

Lemma sat_existsSync_spelled R `{!ActionRel R} trailing p :
  sat R (existsSync_spelled trailing p).
Proof. apply sat_look; [done|]. intros st. apply existsSync_spelled_look. Qed.

Lemma sat_statSync R `{!ActionRel R} p : sat R (statSync p).
Proof. apply sat_look; [done|]. intros st. apply statSync_look. Qed.

Lemma sat_readdirSync R `{!ActionRel R} p : sat R (readdirSync p).
Proof. apply sat_look; [done|]. intros st. apply readdirSync_look. Qed.

(** *** The events of the calls *)

Lemma events_emit E e : E e -> sat (events_in E) (emit e).
Proof. intros H st. by repeat constructor. Qed.

Lemma events_log_debug E m : E (EvLog Debug m) -> sat (events_in E) (log_debug m).
Proof. apply events_emit. Qed.

Lemma events_log_info E m : E (EvLog Info m) -> sat (events_in E) (log_info m).
Proof. apply events_emit. Qed.

Lemma events_log_warn E m : E (EvLog Warn m) -> sat (events_in E) (log_warn m).
Proof. apply events_emit. Qed.

Lemma events_modify E f : sat (events_in E) (modify f).
Proof. intros st. constructor. Qed.

Lemma events_fs_call h E op p f :
  (forall ok, E (EvFs op p ok)) -> sat (events_in E) (fs_call h op p f).
Proof.
  intros H st. unfold fs_call, events_in.
  destruct (h_refuses h op p); [by repeat constructor|].
  destruct (f (st_fs st)) as [fs' [code|]]; by repeat constructor.
Qed.

Lemma events_tar_extract h E file cwd :
  (forall ok, E (EvFs OpUntar cwd ok)) -> sat (events_in E) (tar_extract h file cwd).
Proof.
  intros H st. unfold tar_extract, events_in.
  destruct (lookup_node _ _) as [[data|]|]; try by repeat constructor.
  destruct (h_untar h data) as [entries sound]. by repeat constructor.
Qed.

Lemma events_readLastCheckTimestamp E packageName :
  E EvStoreRead -> sat (events_in E) (readLastCheckTimestamp packageName).
Proof. intros H st. by repeat constructor. Qed.

Lemma events_writeCurrentTimestamp h E packageName :
  (forall ok, E (EvStoreWrite ok)) ->
  sat (events_in E) (writeCurrentTimestamp h packageName).
Proof.
  intros H st. unfold writeCurrentTimestamp, events_in.
  destruct (h_store_refuses h); by repeat constructor.
Qed.

(** One step of a proof of [sat]: the shape of the computation picks the rule. *)
Ltac sat_step :=
  lazymatch goal with
  | |- ActionRel _ => tc_solve
  | |- sat _ (mret _) => apply sat_ret; tc_solve
  | |- sat _ (ret _) => apply sat_ret; tc_solve
  | |- sat _ (throw _) => apply sat_throw; tc_solve
  | |- sat _ (lift_result _) => apply sat_lift_result; tc_solve
  | |- sat _ get_state => apply sat_get_state; tc_solve
  | |- sat _ (existsSync _) => apply sat_existsSync; tc_solve
  | |- sat _ (existsSync_spelled _ _) => apply sat_existsSync_spelled; tc_solve
  | |- sat _ (statSync _) => apply sat_statSync; tc_solve
  | |- sat _ (readdirSync _) => apply sat_readdirSync; tc_solve
  | |- sat _ (_ ≫= _) => apply sat_bind; [tc_solve| |intros ?]
  | |- sat _ (try_catch _ _) => apply sat_try_catch; [tc_solve| |intros ?]
  | |- sat _ (try_finally _ _) => apply sat_try_finally; [tc_solve| |]
  | |- sat _ (for_each _ _) => apply sat_for_each; [tc_solve|intros ? ?]
  | |- sat _ (if ?b then _ else _) => destruct b
  | |- sat _ (match ?x with _ => _ end) => destruct x
  end.

Ltac sat_events :=
  repeat first
    [ sat_step
    | apply events_log_debug | apply events_log_info | apply events_log_warn
    | apply events_emit | apply events_modify | apply events_fs_call; intros ?
    | apply events_tar_extract; intros ?
    | apply events_readLastCheckTimestamp
    | apply events_writeCurrentTimestamp; intros ? ].

(** ** Computations that never throw *)

Lemma total_ret {A} (a : A) : total (mret a).
Proof. intros st. by exists a. Qed.

Lemma total_emit e : total (emit e).
Proof. intros st. by exists tt. Qed.

Lemma total_modify f : total (modify f).
Proof. intros st. by exists tt. Qed.

Lemma total_get_state : total get_state.
Proof. intros st. by exists st. Qed.

Lemma total_existsSync p : total (existsSync p).
Proof. intros st. by eexists. Qed.

Lemma total_existsSync_spelled trailing p : total (existsSync_spelled trailing p).
Proof. intros st. by eexists. Qed.

Lemma total_bind {A B} (m : M A) (k : A -> M B) :
  total m -> (forall a, total (k a)) -> total (m ≫= k).
Proof.
  intros Hm Hk st. destruct (Hm st) as [a Ha].
  rewrite (run_bind_ok _ _ _ _ Ha). apply Hk.
Qed.

Lemma total_try_catch {A} (m : M A) (hd : error -> M A) :
  (forall e, total (hd e)) -> total (try_catch m hd).
Proof.
  intros Hh st. rewrite run_try_catch.
  destruct (res (m st)) as [a|e] eqn:Hm; [by exists a | apply Hh].
Qed.

Lemma total_try_finally {A} (m : M A) (f : M unit) :
  total m -> total f -> total (try_finally m f).
Proof.
  intros Hm Hf st. unfold try_finally; simpl.
  destruct (Hf (final (m st))) as [[] ->]. apply Hm.
Qed.

Lemma total_for_each {A} (xs : list A) (body : A -> M unit) :
  (forall x, total (body x)) -> total (for_each xs body).
Proof.
  intros Hb. induction xs as [|x xs IH]; simpl.
  - apply total_ret.
  - apply total_bind; [apply Hb | intros _; apply IH].
Qed.

Lemma total_unit (m : M unit) st : total m -> res (m st) = Ok tt.
Proof. intros H. by destruct (H st) as [[] ->]. Qed.

Ltac total_step :=
  lazymatch goal with
  | |- total (mret _) => apply total_ret
  | |- total (ret _) => apply total_ret
  | |- total (emit _) => apply total_emit
  | |- total (log_debug _) => apply total_emit
  | |- total (log_info _) => apply total_emit
  | |- total (log_warn _) => apply total_emit
  | |- total (modify _) => apply total_modify
  | |- total get_state => apply total_get_state
  | |- total (existsSync _) => apply total_existsSync
  | |- total (existsSync_spelled _ _) => apply total_existsSync_spelled
  | |- total (try_catch _ _) => apply total_try_catch; intros ?
  | |- total (try_finally _ _) => apply total_try_finally
  | |- total (for_each _ _) => apply total_for_each; intros ?
  | |- total (_ ≫= _) => apply total_bind; [|intros ?]
  | |- total (if ?b then _ else _) => destruct b
  | |- total (match ?x with _ => _ end) => destruct x
  end.

Lemma total_writeCurrentTimestamp h packageName :
  total (writeCurrentTimestamp h packageName).
Proof.
  intros st. unfold writeCurrentTimestamp. destruct (h_store_refuses h); by exists tt.
Qed.

Lemma total_readLastCheckTimestamp packageName :
  total (readLastCheckTimestamp packageName).
Proof. intros st. by eexists. Qed.

Lemma total_fetchPackageMetadata h packageName registryBase :
  total (fetchPackageMetadata h packageName registryBase).
Proof. unfold fetchPackageMetadata. repeat total_step. Qed.

Lemma total_isUpdateNeeded `{Semver} current latest :
  total (isUpdateNeeded current latest).
Proof. unfold isUpdateNeeded. repeat total_step. Qed.

Lemma total_extractVersionInfo metadata version :
  total (extractVersionInfo metadata version).
Proof. unfold extractVersionInfo. repeat total_step. Qed.

Lemma total_deleteDirRecursive_fuel h fuel dirPath :
  total (deleteDirRecursive_fuel h fuel dirPath).
Proof. destruct fuel; simpl; repeat total_step. Qed.

Lemma total_deleteDirRecursive h dirPath : total (deleteDirRecursive h dirPath).
Proof. intros st. apply total_deleteDirRecursive_fuel. Qed.

Lemma total_backupOne h installDir dryRun filePath :
  total (backupOne h installDir dryRun filePath).
Proof. unfold backupOne. repeat total_step. Qed.

Lemma total_backupFiles h files installDir dryRun :
  total (backupFiles h files installDir dryRun).
Proof.
  unfold backupFiles. repeat total_step. apply total_backupOne.
Qed.

Lemma total_copyOne h base installDir dryRun filePath :
  total (copyOne h base installDir dryRun filePath).
Proof. unfold copyOne. repeat total_step. Qed.

Lemma total_cleanupTemporaryFiles h paths dryRun :
  total (cleanupTemporaryFiles h paths dryRun).
Proof. unfold cleanupTemporaryFiles. repeat total_step. Qed.

Lemma total_innerFinally h opts : total (innerFinally h opts).
Proof.
  unfold innerFinally. repeat total_step; apply total_cleanupTemporaryFiles.
Qed.

Lemma total_outerFinally h opts : total (outerFinally h opts).
Proof.
  unfold outerFinally. repeat total_step; apply total_cleanupTemporaryFiles.
Qed.

Lemma total_applyUpdate `{Semver} h opts versionInfo :
  total (applyUpdate h opts versionInfo).
Proof. unfold applyUpdate. repeat total_step. apply total_innerFinally. Qed.

Lemma total_checkAndUpdate `{Semver} h opts : total (checkAndUpdate h opts).
Proof. unfold checkAndUpdate. repeat total_step. apply total_outerFinally. Qed.

(** ** What the deciding stages return

    None of them changes the state; their results are the pure decisions
    defined above. *)

Lemma intervalGate_spec h opts st :
  res (intervalGate h opts st) = Ok (negb (interval_skips h opts st))
  /\ final (intervalGate h opts st) = st.
Proof.
  unfold intervalGate, interval_skips, last_check.
  destruct (negb (the_dryRun opts) && (0 <? the_updateCheckIntervalMs opts)%Z) eqn:Hg;
    simpl; [|done].
  destruct (st_store st) as [| |data]; simpl; try done.
  clear Hg. by destruct (_ && _).
Qed.

Lemma intervalGate_events h opts st :
  events (intervalGate h opts st) =
  if negb (the_dryRun opts) && (0 <? the_updateCheckIntervalMs opts)%Z then
    [EvStoreRead;
     EvLog Debug ((if interval_skips h opts st then MSkipInterval else MProceedInterval)
                    (h_now h - last_check st (name opts))%Z
                    (the_updateCheckIntervalMs opts))]
  else [].
Proof.
  unfold intervalGate, interval_skips, last_check.
  destruct (negb (the_dryRun opts) && (0 <? the_updateCheckIntervalMs opts)%Z) eqn:Hg;
    simpl; [|done].
  destruct (st_store st) as [| |data]; simpl; try done.
  clear Hg. by destruct (_ && _).
Qed.

Lemma fetchPackageMetadata_spec h packageName registryBase st :
  res (fetchPackageMetadata h packageName registryBase st)
  = Ok (match h_registry h (buildPackageUrl h packageName registryBase) with
        | FetchOk metadata => Some metadata
        | _ => None
        end)
  /\ final (fetchPackageMetadata h packageName registryBase st) = st.
Proof.
  unfold fetchPackageMetadata. rewrite run_try_catch, !run_bind; simpl.
  by destruct (h_registry h _).
Qed.

Lemma fetchPackageMetadata_requests h packageName registryBase st :
  EvRegistry (buildPackageUrl h packageName registryBase)
  ∈ events (fetchPackageMetadata h packageName registryBase st).
Proof.
  unfold fetchPackageMetadata. rewrite run_try_catch, !run_bind; simpl.
  destruct (h_registry h _); simpl; set_solver.
Qed.

Lemma isUpdateNeeded_spec `{Semver} current latest st :
  res (isUpdateNeeded current latest st) = Ok (update_needed current latest)
  /\ final (isUpdateNeeded current latest st) = st.
Proof.
  unfold isUpdateNeeded, update_needed. rewrite run_try_catch.
  destruct (semver_valid current), (semver_valid latest); simpl; try done.
  rewrite !run_bind.
  by destruct (semver_gt latest current) as [[]|e].
Qed.

Lemma extractVersionInfo_spec metadata version st :
  res (extractVersionInfo metadata version st) = Ok (policy metadata version)
  /\ final (extractVersionInfo metadata version st) = st.
Proof.
  unfold extractVersionInfo, policy. rewrite run_try_catch.
  destruct (versions metadata) as [vs|]; simpl; [|done].
  destruct (vs !! version) as [vd|]; simpl; [|done].
  destruct (vd_dist vd) as [[[|c rest]|]|]; simpl; try done;
    destruct (vd_upgear vd) as [upgear|]; simpl; try done.
Qed.

(** ** Where an event of a part shows in the whole *)

Lemma elem_bind_l {A B} (m : M A) (k : A -> M B) st e :
  e ∈ events (m st) -> e ∈ events ((m ≫= k) st).
Proof.
  intros He. rewrite run_bind. destruct (res (m st)); simpl; [|done].
  apply elem_of_app. by left.
Qed.

Lemma elem_bind_r {A B} (m : M A) (k : A -> M B) st a e :
  res (m st) = Ok a -> e ∈ events (k a (final (m st))) -> e ∈ events ((m ≫= k) st).
Proof.
  intros Hm He. rewrite (run_bind_ok _ _ _ _ Hm); simpl.
  apply elem_of_app. by right.
Qed.

Lemma elem_try_catch_l {A} (m : M A) hd st e :
  e ∈ events (m st) -> e ∈ events (try_catch m hd st).
Proof.
  intros He. rewrite run_try_catch. destruct (res (m st)); simpl; [done|].
  apply elem_of_app. by left.
Qed.

Lemma elem_try_finally_l {A} (m : M A) f st e :
  e ∈ events (m st) -> e ∈ events (try_finally m f st).
Proof. intros He. simpl. apply elem_of_app. by left. Qed.

Lemma try_catch_bind_ok {A B} (m : M A) (k : A -> M B) hd st a :
  res (m st) = Ok a ->
  try_catch (m ≫= k) hd st =
  let o := try_catch (k a) hd (final (m st)) in
  Out (events (m st) ++ events o) (final o) (res o).
Proof.
  intros Hm. unfold try_catch at 1. rewrite (run_bind_ok _ _ _ _ Hm); simpl.
  rewrite run_try_catch.
  destruct (res (k a (final (m st)))) eqn:Hk; simpl.
  - by rewrite Hk.
  - by rewrite <- app_assoc.
Qed.

Lemma try_catch_total {A} (m : M A) hd st a :
  res (m st) = Ok a -> try_catch m hd st = m st.
Proof. intros Hm. rewrite run_try_catch. by rewrite Hm. Qed.

(** ** The run up to the version decision *)

Lemma checkAndUpdate_run `{Semver} h opts st :
  checkAndUpdate h opts st =
  let o1 := try_catch (checkBody h opts)
              (fun error => log_warn (MErrorUpdateCheck error))
              (set_cleanup st fresh_cleanup) in
  let o2 := outerFinally h opts (final o1) in
  Out (EvLog Debug (MStart (options_view opts)) :: events o1 ++ events o2)
      (final o2) (Ok tt).
Proof.
  pose proof (total_checkAndUpdate h opts st) as [[] Hres].
  revert Hres. unfold checkAndUpdate. rewrite !run_bind; simpl.
  intros ->. reflexivity.
Qed.

Lemma stamp_spec h opts st :
  let m := (if negb (the_dryRun opts) then writeCurrentTimestamp h (name opts)
            else mret tt) : M unit in
  res (m st) = Ok tt /\ st_fs (final (m st)) = st_fs st
  /\ st_cleanup (final (m st)) = st_cleanup st
  /\ (the_dryRun opts = true -> final (m st) = st /\ events (m st) = [])
  /\ Forall (fun e => is_gate_event e = true) (events (m st)).
Proof.
  simpl. destruct (the_dryRun opts); simpl.
  - repeat split; constructor.
  - unfold writeCurrentTimestamp. destruct (h_store_refuses h); simpl;
      repeat split; try done; by repeat constructor.
Qed.

(** With metadata and a version under the channel, [checkRegistry] is its
    prefix of requests and logger calls followed by what the version
    decision selects. *)
Lemma checkRegistry_reach `{Semver} h opts st metadata latest :
  resolved_latest h opts = Some (metadata, latest) ->
  exists pre st1,
    st_fs st1 = st_fs st /\ st_cleanup st1 = st_cleanup st
    /\ (the_dryRun opts = true -> st1 = st)
    /\ Forall (fun e => is_gate_event e = true) pre
    /\ EvRegistry (registry_url h opts) ∈ pre
    /\ forall hd : error -> M unit,
        try_catch (checkRegistry h opts) hd st =
        let o := try_catch
                   (if update_needed (version opts) latest
                    then afterDecision h opts metadata latest
                    else log_debug MNoUpdateNeeded) hd st1 in
        Out (pre ++ events o) (final o) (res o).
Proof.
  intros Hl. unfold resolved_latest, registry_url in Hl.
  destruct (stamp_spec h opts st) as (Hs1 & Hs2 & Hs3 & Hs4 & Hs5).
  cbv zeta in *.
  set (stamp := if negb (the_dryRun opts) then _ else _) in *.
  pose proof (fetchPackageMetadata_spec h (name opts) (the_registryBase opts)
                (final (stamp st))) as [Hf1 Hf2].
  pose proof (isUpdateNeeded_spec (version opts) latest (final (stamp st))) as [Hu1 Hu2].
  set (fetch := fetchPackageMetadata h (name opts) (the_registryBase opts)) in *.
  destruct (h_registry h _) as [| | |metadata'] eqn:Hreg; try done.
  destruct (dist_tags metadata') as [tags|] eqn:Htags; try done.
  destruct (tags !! the_channel opts) as [[|c rest]|] eqn:Hch; try done.
  injection Hl as -> <-.
  exists (events (stamp st) ++ events (fetch (final (stamp st)))
          ++ EvLog Debug (MVersions (version opts) (String c rest))
          :: events (isUpdateNeeded (version opts) (String c rest) (final (stamp st)))),
         (final (stamp st)).
  split; [done|]. split; [done|]. split; [intros Hd; by apply Hs4|].
  split.
  { apply Forall_app_2; [done|]. apply Forall_app_2.
    - unfold fetch, fetchPackageMetadata. rewrite run_try_catch, !run_bind; simpl.
      rewrite Hreg; simpl. by repeat constructor.
    - constructor; [done|].
      unfold isUpdateNeeded. rewrite run_try_catch.
      destruct (semver_valid (version opts)), (semver_valid (String c rest)); simpl;
        try by repeat constructor.
      rewrite !run_bind.
      destruct (semver_gt (String c rest) (version opts)) as [[]|e]; simpl;
        by repeat constructor. }
  split.
  { apply elem_of_app; right. apply elem_of_app; left.
    apply fetchPackageMetadata_requests. }
  intros hd. unfold checkRegistry. fold stamp. fold fetch.
  rewrite (try_catch_bind_ok _ _ _ _ _ Hs1).
  rewrite (try_catch_bind_ok _ _ _ _ _ Hf1). rewrite Hf2.
  rewrite Htags, Hch.
  rewrite (try_catch_bind_ok (log_debug _) _ _ _ tt eq_refl).
  change (final (log_debug _ ?s)) with s.
  rewrite (try_catch_bind_ok _ _ _ _ _ Hu1). rewrite Hu2.
  cbv zeta. simpl events. simpl final. simpl res.
  destruct (update_needed (version opts) (String c rest)); simpl;
    rewrite <- !app_assoc; reflexivity.
Qed.

Lemma checkBody_open `{Semver} h opts st (hd : error -> M unit) :
  ci_skips h opts = false -> interval_skips h opts st = false ->
  try_catch (checkBody h opts) hd st =
  let o := try_catch (checkRegistry h opts) hd st in
  Out (events (intervalGate h opts st) ++ events o) (final o) (res o).
Proof.
  intros Hci Hgate. unfold checkBody. unfold ci_skips in Hci. rewrite Hci.
  destruct (intervalGate_spec h opts st) as [Hr Hf]. rewrite Hgate in Hr.
  rewrite (try_catch_bind_ok _ _ _ _ _ Hr). by rewrite Hf.
Qed.

Lemma intervalGate_gate_events h opts st :
  Forall (fun e => is_gate_event e = true) (events (intervalGate h opts st)).
Proof.
  rewrite intervalGate_events.
  destruct (_ && _); [|constructor].
  destruct (interval_skips h opts st); by repeat constructor.
Qed.

Lemma checkAndUpdate_reach `{Semver} h opts st metadata latest :
  ci_skips h opts = false -> interval_skips h opts st = false ->
  resolved_latest h opts = Some (metadata, latest) ->
  exists pre st1,
    st_fs st1 = st_fs st /\ st_cleanup st1 = fresh_cleanup
    /\ (the_dryRun opts = true -> st_store st1 = st_store st)
    /\ Forall (fun e => is_gate_event e = true) pre
    /\ EvRegistry (registry_url h opts) ∈ pre
    /\ checkAndUpdate h opts st =
       let o1 := try_catch
                   (if update_needed (version opts) latest
                    then afterDecision h opts metadata latest
                    else log_debug MNoUpdateNeeded)
                   (fun error => log_warn (MErrorUpdateCheck error)) st1 in
       let o2 := outerFinally h opts (final o1) in
       Out (pre ++ events o1 ++ events o2) (final o2) (Ok tt).
Proof.
  intros Hci Hgate Hl.
  destruct (checkRegistry_reach h opts (set_cleanup st fresh_cleanup) _ _ Hl)
    as (pre & st1 & Hfs & Hcl & Hdry & Hpre & Hreq & Hrun).
  exists (EvLog Debug (MStart (options_view opts))
            :: events (intervalGate h opts (set_cleanup st fresh_cleanup)) ++ pre), st1.
  split; [done|]. split; [done|].
  split; [intros Hd; by rewrite (Hdry Hd)|].
  split; [constructor; [done|]; apply Forall_app_2;
          [apply intervalGate_gate_events | done]|].
  split; [apply elem_of_cons; right; apply elem_of_app; by right|].
  rewrite checkAndUpdate_run.
  rewrite checkBody_open by done.
  rewrite Hrun. cbv zeta. simpl. by rewrite <- !app_assoc.
Qed.

Lemma update_needed_iff `{Semver} current latest :
  update_needed current latest = true <->
  semver_valid current = true /\ semver_valid latest = true
  /\ semver_gt latest current = Ok true.
Proof.
  unfold update_needed.
  destruct (semver_valid current), (semver_valid latest),
    (semver_gt latest current) as [[]|e]; simpl;
    (split; [try done | intros (?&?&?); congruence]).
Qed.

Lemma outerFinally_fresh h opts st :
  tempFilesCreated (st_cleanup st) = false ->
  outerFinally h opts st = Out [] st (Ok tt).
Proof.
  intros Hc. unfold outerFinally. rewrite run_bind; simpl. by rewrite Hc.
Qed.

(** ** The stages never read the timestamp file

    Only the interval gate does.  The lemmas hold for every class of
    events that has all the events the stages can produce. *)

Section StageEvents.
Context (E : event -> Prop) (HE : forall e, not_store_read e = true -> E e).
Context `{Semver} (h : host).

Local Ltac stage := sat_events; try (apply HE; reflexivity).

Lemma stage_fetchPackageMetadata packageName registryBase :
  sat (events_in E) (fetchPackageMetadata h packageName registryBase).
Proof. unfold fetchPackageMetadata. stage. Qed.

Lemma stage_isUpdateNeeded current latest :
  sat (events_in E) (isUpdateNeeded current latest).
Proof. unfold isUpdateNeeded. stage. Qed.

Lemma stage_extractVersionInfo metadata version :
  sat (events_in E) (extractVersionInfo metadata version).
Proof. unfold extractVersionInfo. stage. Qed.

Lemma stage_downloadTarball url target dry :
  sat (events_in E) (downloadTarball h url target dry).
Proof. unfold downloadTarball, mkdirSync, unlinkSync, writeStream. stage. Qed.

Lemma stage_extractTarball tarball dir dry :
  sat (events_in E) (extractTarball h tarball dir dry).
Proof. unfold extractTarball, mkdirSync. stage. Qed.

Lemma stage_deleteDirRecursive_fuel fuel dirPath :
  sat (events_in E) (deleteDirRecursive_fuel h fuel dirPath).
Proof.
  revert dirPath. induction fuel as [|fuel IH]; intros dirPath; simpl.
  - sat_step.
  - unfold unlinkSync, rmdirSync. stage. apply IH.
Qed.

Lemma stage_deleteDirRecursive dirPath :
  sat (events_in E) (deleteDirRecursive h dirPath).
Proof. intros st. apply stage_deleteDirRecursive_fuel. Qed.

Lemma stage_backupOne installDir dry filePath :
  sat (events_in E) (backupOne h installDir dry filePath).
Proof.
  unfold backupOne, unlinkSync, mkdirSync, cpSync, copyFileSync. stage.
  apply stage_deleteDirRecursive.
Qed.

Lemma stage_backupFiles files installDir dry :
  sat (events_in E) (backupFiles h files installDir dry).
Proof. unfold backupFiles. stage. apply stage_backupOne. Qed.

Lemma stage_sourceBase dir : sat (events_in E) (sourceBase dir).
Proof. unfold sourceBase. stage. Qed.

Lemma stage_copyOne base installDir dry filePath :
  sat (events_in E) (copyOne h base installDir dry filePath).
Proof. unfold copyOne, unlinkSync, mkdirSync, cpSync, copyFileSync. stage. Qed.

Lemma stage_copyUpdatedFiles files dir installDir dry :
  sat (events_in E) (copyUpdatedFiles h files dir installDir dry).
Proof.
  unfold copyUpdatedFiles. stage; [apply stage_sourceBase | apply stage_copyOne].
Qed.

Lemma stage_displayUpdateNotification version packageName reinstall changelog dry cb :
  sat (events_in E)
    (displayUpdateNotification version packageName reinstall changelog dry cb).
Proof. unfold displayUpdateNotification. stage. Qed.

Lemma stage_cleanupTemporaryFiles ps dry :
  sat (events_in E) (cleanupTemporaryFiles h ps dry).
Proof.
  unfold cleanupTemporaryFiles, unlinkSync. stage. apply stage_deleteDirRecursive.
Qed.

Lemma stage_updateSteps opts versionInfo updatePaths :
  sat (events_in E) (updateSteps h opts versionInfo updatePaths).
Proof.
  unfold updateSteps, unlinkSync. cbv zeta. stage;
    first [ apply stage_downloadTarball | apply stage_extractTarball
          | apply stage_backupFiles | apply stage_copyUpdatedFiles
          | apply stage_displayUpdateNotification ].
Qed.

Lemma stage_innerFinally opts : sat (events_in E) (innerFinally h opts).
Proof. unfold innerFinally. stage; apply stage_cleanupTemporaryFiles. Qed.

Lemma stage_outerFinally opts : sat (events_in E) (outerFinally h opts).
Proof. unfold outerFinally. stage; apply stage_cleanupTemporaryFiles. Qed.

Lemma stage_applyUpdate opts versionInfo :
  sat (events_in E) (applyUpdate h opts versionInfo).
Proof.
  unfold applyUpdate. cbv zeta. stage;
    [apply stage_updateSteps | apply stage_innerFinally].
Qed.

Lemma stage_afterDecision opts metadata latest :
  sat (events_in E) (afterDecision h opts metadata latest).
Proof.
  unfold afterDecision. stage;
    first [ apply stage_extractVersionInfo | apply stage_displayUpdateNotification
          | apply stage_applyUpdate ].
Qed.

Lemma stage_checkRegistry opts : sat (events_in E) (checkRegistry h opts).
Proof.
  unfold checkRegistry. stage;
    first [ apply stage_fetchPackageMetadata | apply stage_isUpdateNeeded
          | apply stage_afterDecision ].
Qed.
End StageEvents.

(** ** The CI gate *)

Lemma env_truthy_iff h k :
  env_truthy h k = true <-> exists v, h_env h !! k = Some v /\ v <> "".
Proof.
  unfold env_truthy. destruct (h_env h !! k) as [v|]; simpl.
  - destruct (String.eqb_spec v "") as [->|Hne]; simpl; split; try done.
    + by intros (v' & [= <-] & Hne).
    + intros _. by exists v.
  - split; [done|]. by intros (v & ? & _).
Qed.

Lemma isCI_iff h : isCI h = true <-> ci_variable_truthy h.
Proof.
  unfold isCI, ci_variable_truthy, ci_variables.
  rewrite !orb_true_iff, !env_truthy_iff. split.
  - intros [[[(v&?&?)|(v&?&?)]|(v&?&?)]|(v&?&?)]; eexists _, v;
      (split; [|done]); set_solver.
  - intros (k & v & Hk & Hv & Hne).
    repeat (apply elem_of_cons in Hk as [->|Hk]); [| | | |by apply elem_of_nil in Hk];
      eauto 10.
Qed.

(** C10, amended: the CI skip comes before everything else, dry run
    included, whenever [skipOnCI] is on (the default) and a recognized
    variable has a non-empty value.  The run is then the two logger calls
    and nothing else: no registry request, no reading or writing of the
    timestamp file, no dry-run line. *)
Theorem ci_skip_precedes_dry_run `{Semver} h opts st :
  the_skipOnCI opts = true -> ci_variable_truthy h ->
  checkAndUpdate h opts st
  = Out [EvLog Debug (MStart (options_view opts)); EvLog Debug MSkipCI]
        (set_cleanup st fresh_cleanup) (Ok tt).
Proof.
  intros Hskip Hci. apply isCI_iff in Hci.
  rewrite checkAndUpdate_run. unfold checkBody. rewrite Hskip, Hci. reflexivity.
Qed.

Lemma ci_skip_precedes_dry_run_witness :
  let h := ex_host_with {[ "GITHUB_ACTIONS" := "true" ]} (fun _ _ => false) in
  let opts := ex_options_with "1.0.0" (Some true) (Some "/opt/cli") in
  events (@checkAndUpdate NodeSemver.instance h opts ex_state)
  = [EvLog Debug (MStart (options_view opts)); EvLog Debug MSkipCI].
Proof.
  intros h opts.
  rewrite (@ci_skip_precedes_dry_run NodeSemver.instance h opts ex_state).
  - reflexivity.
  - reflexivity.
  - exists "GITHUB_ACTIONS", "true". split; [|split].
    + unfold ci_variables. set_solver.
    + reflexivity.
    + discriminate.
Defined.

(** C10 as stated fails when the variable is set to the empty string:
    [Boolean('')] is false, the run is not skipped and, in a dry run,
    goes on to the registry. *)
Lemma ci_skip_counterexample :
  ~ @ci_skip_as_stated NodeSemver.instance
      (ex_host_with {[ "CI" := "" ]} (fun _ _ => false))
      (ex_options_with "1.0.0" (Some true) (Some "/opt/cli")) ex_state.
Proof.
  intros Hc.
  assert (Hset : ci_variable_set (ex_host_with {[ "CI" := "" ]} (fun _ _ => false))).
  { exists "CI". split; [unfold ci_variables; set_solver|]. by eexists. }
  specialize (Hc eq_refl Hset). vm_compute in Hc. discriminate Hc.
Qed.

(** ** The interval gate and the version decision *)

Lemma checkRegistry_requests h `{Semver} opts st :
  EvRegistry (registry_url h opts) ∈ events (checkRegistry h opts st).
Proof.
  unfold checkRegistry.
  destruct (stamp_spec h opts st) as (Hs & _). cbv zeta in Hs.
  eapply elem_bind_r; [exact Hs|].
  apply elem_bind_l, fetchPackageMetadata_requests.
Qed.

Lemma checkAndUpdate_open `{Semver} h opts st :
  ci_skips h opts = false -> interval_skips h opts st = false ->
  EvRegistry (registry_url h opts) ∈ events (checkAndUpdate h opts st)
  /\ (the_dryRun opts = true -> EvStoreRead ∉ events (checkAndUpdate h opts st)).
Proof.
  intros Hci Hgate. rewrite checkAndUpdate_run. cbv zeta.
  rewrite checkBody_open by done. cbv zeta. simpl events. split.
  - apply elem_of_cons; right. apply elem_of_app; left. apply elem_of_app; right.
    apply elem_try_catch_l, checkRegistry_requests.
  - intros Hdry Hin.
    assert (Hall : Forall (fun e => not_store_read e = true)
              (EvLog Debug (MStart (options_view opts))
               :: (events (intervalGate h opts (set_cleanup st fresh_cleanup))
                   ++ events (try_catch (checkRegistry h opts)
                                (fun error => log_warn (MErrorUpdateCheck error))
                                (set_cleanup st fresh_cleanup)))
                  ++ events (outerFinally h opts
                       (final (try_catch (checkRegistry h opts)
                                (fun error => log_warn (MErrorUpdateCheck error))
                                (set_cleanup st fresh_cleanup)))))).
    { constructor; [done|]. apply Forall_app_2; [apply Forall_app_2|].
      - rewrite intervalGate_events, Hdry. constructor.
      - apply (sat_try_catch (events_in (fun e => not_store_read e = true))).
        + apply stage_checkRegistry. auto.
        + intros e st'. by repeat constructor.
      - apply (stage_outerFinally (fun e => not_store_read e = true)). auto. }
    rewrite Forall_forall in Hall. by apply Hall in Hin.
Qed.

Lemma checkAndUpdate_throttled `{Semver} h opts st :
  ci_skips h opts = false -> interval_skips h opts st = true ->
  checkAndUpdate h opts st
  = Out [EvLog Debug (MStart (options_view opts)); EvStoreRead;
         EvLog Debug (MSkipInterval (h_now h - last_check st (name opts))%Z
                                    (the_updateCheckIntervalMs opts))]
        (set_cleanup st fresh_cleanup) (Ok tt).
Proof.
  intros Hci Hgate. rewrite checkAndUpdate_run.
  unfold checkBody. unfold ci_skips in Hci. rewrite Hci.
  set (st0 := set_cleanup st fresh_cleanup).
  assert (Hgate0 : interval_skips h opts st0 = true) by done.
  destruct (intervalGate_spec h opts st0) as [Hr Hf]. rewrite Hgate0 in Hr.
  pose proof (intervalGate_events h opts st0) as He. rewrite Hgate0 in He.
  assert (Hg : negb (the_dryRun opts) && (0 <? the_updateCheckIntervalMs opts)%Z = true).
  { unfold interval_skips in Hgate. by destruct (negb _ && (0 <? _)%Z). }
  rewrite Hg in He.
  rewrite (try_catch_bind_ok _ _ _ _ _ Hr). rewrite Hf, He. reflexivity.
Qed.

(** C4: with the CI gate open, a non-dry run with interval [I > 0] and a
    recorded check at [T > 0] stops before any registry request at time
    [T + I - 1] and goes on to the registry from time [T + I]; with no
    recorded check ([T = 0]) or an interval that is not positive it always
    goes on; a dry run goes on and does not even read the timestamp file. *)
Theorem interval_gate_boundary `{Semver} h opts st :
  ci_skips h opts = false ->
  let o := checkAndUpdate h opts st in
  let I := the_updateCheckIntervalMs opts in
  let T := last_check st (name opts) in
  let requested := EvRegistry (registry_url h opts) ∈ events o in
  (the_dryRun opts = false -> (0 < I)%Z -> (0 < T)%Z -> h_now h = (T + I - 1)%Z ->
     ~ requested
     /\ o = Out [EvLog Debug (MStart (options_view opts)); EvStoreRead;
                 EvLog Debug (MSkipInterval (I - 1) I)]
                (set_cleanup st fresh_cleanup) (Ok tt))
  /\ (the_dryRun opts = false -> (0 < I)%Z -> (0 < T)%Z -> (T + I <= h_now h)%Z ->
       requested)
  /\ (the_dryRun opts = false -> (T = 0 \/ I <= 0)%Z -> requested)
  /\ (the_dryRun opts = true -> requested /\ EvStoreRead ∉ events o).
Proof.
  intros Hci. cbv zeta. split; [|split; [|split]].
  - intros Hdry HI HT Hnow.
    assert (Hskip : interval_skips h opts st = true).
    { unfold interval_skips. rewrite Hdry. simpl.
      repeat (apply andb_true_intro; split); apply Z.ltb_lt; lia. }
    rewrite checkAndUpdate_throttled by done. split.
    + simpl. intros Hin. repeat (apply elem_of_cons in Hin as [Hin|Hin]; [done|]).
      by apply elem_of_nil in Hin.
    + replace (h_now h - last_check st (name opts))%Z
        with (the_updateCheckIntervalMs opts - 1)%Z by lia.
      reflexivity.
  - intros Hdry HI HT Hnow. apply checkAndUpdate_open; [done|].
    unfold interval_skips. apply andb_false_intro2, Z.ltb_ge. lia.
  - intros Hdry [HT|HI]; (apply checkAndUpdate_open; [done|]); unfold interval_skips.
    + rewrite HT. by rewrite !andb_false_r.
    + assert ((0 <? the_updateCheckIntervalMs opts)%Z = false) as ->
        by (apply Z.ltb_ge; lia).
      by rewrite !andb_false_r.
  - intros Hdry.
    assert (Hopen : interval_skips h opts st = false).
    { unfold interval_skips. by rewrite Hdry. }
    split; [by apply checkAndUpdate_open | by apply checkAndUpdate_open].
Qed.

Lemma interval_gate_boundary_witness :
  let st := ex_state_with (StoreData {[ "my-cli" := 1699978400001%Z ]}) in
  ci_skips ex_host ex_options = false
  /\ @checkAndUpdate NodeSemver.instance ex_host ex_options st
     = Out [EvLog Debug (MStart (options_view ex_options)); EvStoreRead;
            EvLog Debug (MSkipInterval (21600000 - 1) 21600000)]
           (set_cleanup st fresh_cleanup) (Ok tt).
Proof.
  intros st. split; [reflexivity|].
  apply (proj1 (@interval_gate_boundary NodeSemver.instance ex_host ex_options st
                  eq_refl)); reflexivity.
Defined.

(** C1: in a run that reaches the version decision (gates open, metadata
    fetched, a version under the channel), the run goes past the decision,
    to the logger call that announces the update and on to the policy, if
    and only if both strings are valid for [semver] and the latest one is
    greater; otherwise nothing but the gate, the request and their logger
    calls has happened: no download, no file-system call, no notification,
    and the file system is as it was. *)
Theorem version_decision `{Semver} h opts st metadata latest :
  ci_skips h opts = false -> interval_skips h opts st = false ->
  resolved_latest h opts = Some (metadata, latest) ->
  let o := checkAndUpdate h opts st in
  let proceeds :=
    EvLog Debug (MUpdateAvailable (name opts) (version opts) latest) ∈ events o in
  (proceeds <->
     semver_valid (version opts) = true /\ semver_valid latest = true
     /\ semver_gt latest (version opts) = Ok true)
  /\ (~ proceeds ->
        st_fs (final o) = st_fs st
        /\ Forall (fun e => is_gate_event e = true) (events o)).
Proof.
  intros Hci Hgate Hl. cbv zeta.
  destruct (checkAndUpdate_reach h opts st _ _ Hci Hgate Hl)
    as (pre & st1 & Hfs & Hcl & _ & Hpre & _ & ->).
  rewrite <- update_needed_iff. cbv zeta.
  destruct (update_needed (version opts) latest) eqn:Hu.
  - assert (Hin : EvLog Debug (MUpdateAvailable (name opts) (version opts) latest)
                  ∈ events (try_catch (afterDecision h opts metadata latest)
                              (fun error => log_warn (MErrorUpdateCheck error)) st1)).
    { apply elem_try_catch_l. unfold afterDecision. apply elem_bind_l. simpl. set_solver. }
    simpl events. split; [split; [done|]|].
    + intros _. apply elem_of_app; right. apply elem_of_app; by left.
    + intros Hn. exfalso. apply Hn. apply elem_of_app; right. apply elem_of_app; by left.
  - rewrite (try_catch_total (log_debug MNoUpdateNeeded) _ st1 tt eq_refl).
    change (final (log_debug MNoUpdateNeeded st1)) with st1.
    rewrite outerFinally_fresh by (by rewrite Hcl). simpl.
    assert (Hall : Forall (fun e => is_gate_event e = true)
                     (pre ++ [EvLog Debug MNoUpdateNeeded])).
    { apply Forall_app_2; [done|]. by repeat constructor. }
    split; [split; [|done]|done].
    intros Hin. rewrite Forall_forall in Hall. by apply Hall in Hin.
Qed.

Lemma version_decision_witness :
  (ci_skips ex_host ex_options = false
   /\ interval_skips ex_host ex_options ex_state = false
   /\ resolved_latest ex_host ex_options = Some (ex_metadata, "1.1.0"))
  /\ EvLog Debug (MUpdateAvailable "my-cli" "1.0.0" "1.1.0")
     ∈ events (@checkAndUpdate NodeSemver.instance ex_host ex_options ex_state).
Proof.
  split; [repeat split; reflexivity|].
  apply (proj1 (@version_decision NodeSemver.instance ex_host ex_options ex_state
                  ex_metadata "1.1.0" eq_refl eq_refl eq_refl)).
  repeat split; reflexivity.
Defined.

(** ** The effective file list *)

(** C7, amended: for a version record with an archive URL and a policy
    object, the effective file list is [dist] and [package.json] followed
    by the paths the policy declares, in that order.  Its elements are
    those of the union, so the two core paths are always in it; a path
    that the policy repeats, or that is a core path, is kept twice. *)
Theorem effective_files_core_then_declared metadata version st vs versionData url upgear :
  versions metadata = Some vs -> vs !! version = Some versionData ->
  vd_dist versionData = Some (Some url) -> url <> "" ->
  vd_upgear versionData = Some upgear ->
  exists versionInfo,
    res (extractVersionInfo metadata version st) = Ok (Some versionInfo)
    /\ files (vi_upgear versionInfo)
       = "dist" :: "package.json" :: default [] (raw_files upgear)
    /\ (forall f, f ∈ files (vi_upgear versionInfo)
                  <-> f ∈ core_files \/ f ∈ default [] (raw_files upgear))
    /\ "dist" ∈ files (vi_upgear versionInfo)
    /\ "package.json" ∈ files (vi_upgear versionInfo).
Proof.
  intros Hvs Hv Hdist Hurl Hup.
  destruct (extractVersionInfo_spec metadata version st) as [Hres _].
  unfold policy in Hres. rewrite Hvs, Hv, Hdist, Hup in Hres.
  destruct url as [|c rest]; [done|].
  eexists. split; [exact Hres|]. simpl. split; [done|]. split.
  - intros f. unfold core_files. rewrite !elem_of_cons, elem_of_nil. tauto.
  - split; [|apply elem_of_cons; right]; apply elem_of_cons; by left.
Qed.

Lemma effective_files_core_then_declared_witness :
  exists versionInfo,
    res (extractVersionInfo ex_metadata "1.1.0" ex_state) = Ok (Some versionInfo)
    /\ files (vi_upgear versionInfo) = ["dist"; "package.json"; "dist"; "package.json"].
Proof.
  destruct (effective_files_core_then_declared ex_metadata "1.1.0" ex_state
              {[ "1.1.0" := {| vd_dist := Some (Some "https://registry.npmjs.org/my-cli/-/my-cli-1.1.0.tgz");
                               vd_upgear := Some ex_upgear |} ]}
              {| vd_dist := Some (Some "https://registry.npmjs.org/my-cli/-/my-cli-1.1.0.tgz");
                 vd_upgear := Some ex_upgear |}
              "https://registry.npmjs.org/my-cli/-/my-cli-1.1.0.tgz" ex_upgear
              eq_refl eq_refl eq_refl ltac:(discriminate) eq_refl)
    as (versionInfo & Hres & Hfiles & _).
  exists versionInfo. split; [exact Hres | exact Hfiles].
Defined.

(** C7 as stated fails on the policy of the specification's own scenario,
    [files: ["dist", "package.json"]]: the list is built with [concat] and
    has each of the two paths twice. *)
Lemma effective_files_counterexample :
  ~ effective_files_as_stated ex_metadata "1.1.0" ex_state.
Proof.
  intros Hc.
  destruct (Hc _ _ ex_upgear _ eq_refl eq_refl eq_refl eq_refl) as [Hnd _].
  simpl in Hnd. apply NoDup_cons in Hnd as [Hn _]. apply Hn.
  apply elem_of_cons; right. apply elem_of_cons; by left.
Qed.

(** ** The source root of the replace step *)

Lemma sourceBase_spec extractDir st :
  let pkg := extractDir ++ ["package"] in
  sourceBase extractDir st
  = match st_fs st !! pkg with
    | Some Dir => Out [EvLog Debug (MUsingPackageDir pkg)] st (Ok pkg)
    | _ => Out [] st (Ok extractDir)
    end.
Proof.
  cbv zeta.
  assert (Hl : lookup_node (st_fs st) (extractDir ++ ["package"])
               = st_fs st !! (extractDir ++ ["package"])).
  { unfold lookup_node. by destruct extractDir. }
  unfold sourceBase, existsSync, statSync. run. rewrite Hl.
  destruct (st_fs st !! (extractDir ++ ["package"])) as [[]|] eqn:E; run;
    rewrite ?Hl, ?E; done.
Qed.

(** The replace step, with the choice of its source root made explicit. *)
Lemma copyUpdatedFiles_run h files extractDir installDir dryRun st :
  let pkg := extractDir ++ ["package"] in
  let wrapped := match st_fs st !! pkg with Some Dir => true | _ => false end in
  let base := if wrapped then pkg else extractDir in
  res (sourceBase extractDir st) = Ok base
  /\ final (sourceBase extractDir st) = st
  /\ copyUpdatedFiles h files extractDir installDir dryRun st
     = (log_debug (MCopyStart (length files)) ;;
        (if wrapped then log_debug (MUsingPackageDir pkg) else mret tt) ;;
        for_each files (copyOne h base installDir dryRun) ;;
        log_debug MCopyDone) st.
Proof.
  cbv zeta. pose proof (sourceBase_spec extractDir st) as Hs. cbv zeta in Hs.
  rewrite Hs. split; [|split].
  - by destruct (st_fs st !! (extractDir ++ ["package"])) as [[]|].
  - by destruct (st_fs st !! (extractDir ++ ["package"])) as [[]|].
  - unfold copyUpdatedFiles.
    rewrite (run_bind (log_debug _) _ st).
    rewrite (run_bind (log_debug _) _ st).
    change (res (log_debug (MCopyStart (length files)) st)) with (Ok tt : result unit).
    change (final (log_debug (MCopyStart (length files)) st)) with st.
    cbv iota beta.
    rewrite (run_bind (sourceBase extractDir) _ st). rewrite Hs.
    destruct (st_fs st !! (extractDir ++ ["package"])) as [[]|]; reflexivity.
Qed.

(** C8, amended: the source root of the replace step is the directory
    named [package] under the extraction root when there is one, whatever
    else the root holds, and the extraction root itself otherwise; every
    declared file is looked for under that root. *)
Theorem source_root_is_package_folder h files extractDir installDir dryRun st :
  let pkg := extractDir ++ ["package"] in
  let wrapped := match st_fs st !! pkg with Some Dir => true | _ => false end in
  let base := if wrapped then pkg else extractDir in
  res (sourceBase extractDir st) = Ok base
  /\ final (sourceBase extractDir st) = st
  /\ copyUpdatedFiles h files extractDir installDir dryRun st
     = (log_debug (MCopyStart (length files)) ;;
        (if wrapped then log_debug (MUsingPackageDir pkg) else mret tt) ;;
        for_each files (copyOne h base installDir dryRun) ;;
        log_debug MCopyDone) st.
Proof. exact (copyUpdatedFiles_run h files extractDir installDir dryRun st). Qed.

(** C8 as stated fails on an archive that wraps its payload in a folder
    with another name: the extraction root stays the source root. *)
Lemma source_root_counterexample :
  ~ source_root_as_stated ["tmp"; "x"] ex_unwrapped_state.
Proof. unfold source_root_as_stated. vm_compute. discriminate. Qed.

(** ** One outcome for each path of the list *)

Lemma omap_silent {B} (f : event -> option B) evs :
  Forall (fun e => f e = None) evs -> omap f evs = [].
Proof.
  induction 1 as [|e evs He _ IH]; [done|]. simpl. by rewrite He.
Qed.

Lemma closes_with_bind {A A' B} (f : event -> option B) last (m : M A) (k : A -> M A') :
  sat (events_in (fun e => f e = None)) m ->
  (forall a, closes_with f last (k a)) ->
  closes_with f last (m ≫= k).
Proof.
  intros Hm Hk st. rewrite run_bind. pose proof (omap_silent f _ (Hm st)) as Hs.
  destruct (res (m st)) as [a|e]; simpl; [|done].
  by rewrite omap_app, Hs, Hk.
Qed.

Lemma closes_with_log {B} (f : event -> option B) l m b :
  f (EvLog l m) = Some b -> closes_with f [b] (emit (EvLog l m)).
Proof. intros Hf st. simpl. by rewrite Hf. Qed.

Lemma ends_in_emit e : ends_in e (emit e).
Proof. intros st a _. by exists []. Qed.

Lemma ends_in_bind_r {A B} last (m : M A) (k : A -> M B) :
  (forall a, ends_in last (k a)) -> ends_in last (m ≫= k).
Proof.
  intros Hk st b. rewrite run_bind.
  destruct (res (m st)) as [a|e]; [|done]. cbn [res events]. intros Hb.
  destruct (Hk a _ b Hb) as [pre ->]. exists (events (m st) ++ pre).
  by rewrite app_assoc.
Qed.

(** A [try] whose body ends with the logger call of success and whose
    [catch] only logs: the statement never throws, and its last event is the
    one logger call of the two that it makes. *)
Lemma try_catch_outcome (f : event -> option handled) b done (m : M unit) l
    (w : error -> msg) st :
  closes_with f [b] m -> ends_in done m -> f done = Some b ->
  (forall e, exists b', f (EvLog l (w e)) = Some b') ->
  res (try_catch m (fun e => emit (EvLog l (w e))) st) = Ok tt
  /\ exists b', ends_with_outcome f
                  (events (try_catch m (fun e => emit (EvLog l (w e))) st)) b'
               /\ (b' = b \/ exists e, f (EvLog l (w e)) = Some b').
Proof.
  intros Hm Hend Hdone Hw. rewrite run_try_catch. specialize (Hm st).
  destruct (res (m st)) as [[]|e] eqn:Hr; simpl.
  - split; [done|]. exists b. split; [|auto].
    destruct (Hend st tt Hr) as [pre Hev]. exists pre, done.
    split; [done|]. split; [|done].
    rewrite Hev, omap_app in Hm. cbn in Hm. rewrite Hdone in Hm.
    by destruct (omap f pre) as [|? [|]].
  - split; [done|]. destruct (Hw e) as [b' Hb'].
    exists b'. split; [|eauto]. by exists (events (m st)), (EvLog l (w e)).
Qed.

Lemma ends_with_outcome_log (f : event -> option handled) l m o :
  f (EvLog l m) = Some o -> ends_with_outcome f [EvLog l m] o.
Proof. intros Hf. by exists [], (EvLog l m). Qed.

Section Outcomes.
Context (h : host).

Local Ltac silent := sat_events; try reflexivity.

(** [deleteDirRecursive] only makes file-system calls, at or below its
    directory. *)
Lemma events_deleteDirRecursive_fuel (E : event -> Prop) fuel dirPath :
  (forall op q ok, dirPath `prefix_of` q -> E (EvFs op q ok)) ->
  sat (events_in E) (deleteDirRecursive_fuel h fuel dirPath).
Proof.
  revert dirPath. induction fuel as [|fuel IH]; intros dirPath HE; simpl.
  - sat_step.
  - unfold unlinkSync, rmdirSync. sat_events.
    + apply HE. by apply prefix_app_r.
    + apply IH. intros op q ok Hq. apply HE.
      etrans; [|exact Hq]. by apply prefix_app_r.
    + by apply HE.
Qed.

Lemma events_deleteDirRecursive (E : event -> Prop) dirPath :
  (forall op q ok, dirPath `prefix_of` q -> E (EvFs op q ok)) ->
  sat (events_in E) (deleteDirRecursive h dirPath).
Proof. intros HE st. by apply events_deleteDirRecursive_fuel. Qed.

Lemma backup_outcome_deleteDirRecursive dirPath :
  sat (events_in (fun e => backup_outcome e = None)) (deleteDirRecursive h dirPath).
Proof. by apply events_deleteDirRecursive. Qed.

Lemma backupOne_outcome installDir dryRun filePath st :
  res (backupOne h installDir dryRun filePath st) = Ok tt
  /\ exists o, ends_with_outcome backup_outcome
                 (events (backupOne h installDir dryRun filePath st)) o
               /\ handled_path o = join (to_path installDir) filePath.
Proof.
  unfold backupOne. rewrite existsSync_spelled_bind.
  destruct (spelled_found _ _); simpl;
    [|split; [done|]; eexists; split; [by apply ends_with_outcome_log | done]].
  destruct dryRun; simpl;
    [split; [done|]; eexists; split; [by apply ends_with_outcome_log | done]|].
  match goal with
  | |- context [try_catch ?m ?hd ?s] =>
      destruct (try_catch_outcome backup_outcome
                  (Completed (join (to_path installDir) filePath))
                  (EvLog Debug (MBackedUp (join (to_path installDir) filePath))) m Warn
                  (MErrorBackingUp (join (to_path installDir) filePath)) s)
        as (Hres & o & Ho & Hcase)
  end.
  - apply closes_with_bind.
    { unfold unlinkSync. silent. apply backup_outcome_deleteDirRecursive. }
    intros _. apply closes_with_bind; [silent|]. intros n.
    apply closes_with_bind.
    { unfold mkdirSync, cpSync, copyFileSync. silent. }
    intros _. by apply closes_with_log.
  - repeat (apply ends_in_bind_r; intros ?). apply ends_in_emit.
  - done.
  - intros e. eauto.
  - split; [exact Hres|]. exists o. split; [exact Ho|].
    destruct Hcase as [->|[e [= <-]]]; reflexivity.
Qed.

Lemma copyOne_outcome base installDir dryRun filePath st :
  res (copyOne h base installDir dryRun filePath st) = Ok tt
  /\ exists o, ends_with_outcome copy_outcome
                 (events (copyOne h base installDir dryRun filePath st)) o
               /\ handled_path o = match o with
                                   | Absent _ => join base filePath
                                   | _ => join (to_path installDir) filePath
                                   end.
Proof.
  unfold copyOne. rewrite existsSync_spelled_bind.
  destruct (spelled_found _ _); simpl;
    [|split; [done|]; eexists; split; [by apply ends_with_outcome_log | done]].
  destruct dryRun; simpl;
    [split; [done|]; eexists; split; [by apply ends_with_outcome_log | done]|].
  match goal with
  | |- context [try_catch ?m ?hd ?s] =>
      destruct (try_catch_outcome copy_outcome
                  (Completed (join (to_path installDir) filePath))
                  (EvLog Debug (MCopied (join (to_path installDir) filePath))) m Warn
                  (MErrorCopying (join base filePath) (join (to_path installDir) filePath)) s)
        as (Hres & o & Ho & Hcase)
  end.
  - apply closes_with_bind.
    { unfold mkdirSync. silent. }
    intros _. apply closes_with_bind; [silent|]. intros n.
    apply closes_with_bind.
    { unfold unlinkSync, cpSync, copyFileSync. silent. }
    intros _. by apply closes_with_log.
  - repeat (apply ends_in_bind_r; intros ?). apply ends_in_emit.
  - done.
  - intros e. eauto.
  - split; [exact Hres|]. exists o. split; [exact Ho|].
    destruct Hcase as [->|[e [= <-]]]; reflexivity.
Qed.

End Outcomes.

(** ** A failed call ends the handling of its path *)

Lemma fsop_eqb_refl op : fsop_eqb op op = true.
Proof. by destruct op. Qed.

Lemma hushed_Forall loud evs :
  Forall (fun e => loud e = false) evs -> hushed loud evs = true.
Proof. induction 1 as [|e l He _ IH]; [done|]. cbn. by rewrite He. Qed.

Lemma hushed_app loud l1 l2 :
  hushed loud (l1 ++ l2) = hushed loud l1 && hushed loud l2.
Proof. apply forallb_app. Qed.

Lemma answered_hushed loud evs :
  hushed loud evs = true -> answered_at_once loud evs = true.
Proof.
  induction evs as [|e evs IH]; [done|]. cbn.
  intros [He Hq]%andb_true_iff. by rewrite He, IH.
Qed.

Lemma answered_app_hushed loud pre l :
  hushed loud pre = true ->
  answered_at_once loud (pre ++ l) = answered_at_once loud l.
Proof.
  induction pre as [|e pre IH]; [done|]. cbn.
  intros [He Hq]%andb_true_iff. by rewrite He, IH.
Qed.

Section Abrupt.
Context (h : host) (loud : event -> bool).
Context (Hloud : forall op p, loud (EvFs op p true) = false).

Lemma abrupt_sat {A} (m : M A) :
  sat (events_in (fun e => loud e = false)) m -> abrupt loud m.
Proof.
  intros Hm st. pose proof (hushed_Forall _ _ (Hm st)) as Hq.
  destruct (res (m st)); [done|]. exists (events (m st)). auto.
Qed.

Lemma abrupt_bind {A B} (m : M A) (k : A -> M B) :
  abrupt loud m -> (forall a, abrupt loud (k a)) -> abrupt loud (m ≫= k).
Proof.
  intros Hm Hk st. rewrite run_bind. specialize (Hm st).
  destruct (res (m st)) as [a|e]; cbn [res events]; [|exact Hm].
  specialize (Hk a (final (m st))).
  destruct (res (k a (final (m st)))) as [b|e].
  - by rewrite hushed_app, Hm, Hk.
  - destruct Hk as (pre & Hpre & [Hev|(op & q & code & Hev & ->)]);
      exists (events (m st) ++ pre); rewrite hushed_app, Hm, Hpre; (split; [done|]).
    + left. by rewrite Hev.
    + right. exists op, q, code. by rewrite Hev, app_assoc.
Qed.

Lemma abrupt_for_each {A} (xs : list A) (body : A -> M unit) :
  (forall x, abrupt loud (body x)) -> abrupt loud (for_each xs body).
Proof.
  intros Hb. induction xs as [|x xs IH]; [by intros st|].
  cbn [for_each]. apply abrupt_bind; [apply Hb | intros _; exact IH].
Qed.

Lemma abrupt_fs_call op p f : abrupt loud (fs_call h op p f).
Proof.
  intros st. unfold fs_call. destruct (h_refuses h op p).
  - exists []. split; [done|]. right. by exists op, p, "EACCES".
  - destruct (f (st_fs st)) as [fs' [code|]]; cbn.
    + exists []. split; [done|]. right. by exists op, p, code.
    + by rewrite Hloud.
Qed.

(** The handling of one path: what reaches the [catch] is reported by the
    warning, and the warning ends the handling. *)
Lemma answered_try_catch (m : M unit) (w : error -> msg) st :
  abrupt loud m ->
  (forall e, loud (EvLog Warn (w e)) = false) ->
  (forall op q code, reports (w (ErrFs op q code)) op q = true) ->
  answered_at_once loud (events (try_catch m (fun e => log_warn (w e)) st)) = true.
Proof.
  intros Hm Hw Hr. rewrite run_try_catch. specialize (Hm st).
  destruct (res (m st)) as [a|e] eqn:E.
  - by apply answered_hushed.
  - cbn [events].
    destruct Hm as (pre & Hpre & [Hev|(op & q & code & Hev & ->)]); rewrite Hev.
    + apply answered_hushed. rewrite hushed_app, Hpre. cbn. by rewrite Hw.
    + rewrite <- app_assoc, answered_app_hushed by done.
      cbn. rewrite Hr, Hw. by rewrite orb_true_r.
Qed.
End Abrupt.

Ltac abrupt_step :=
  lazymatch goal with
  | |- abrupt _ (_ ≫= _) => apply abrupt_bind; [|intros ?]
  | |- abrupt _ (for_each _ _) => apply abrupt_for_each; intros ?
  | |- abrupt _ (fs_call _ _ _ _) => apply abrupt_fs_call; intros ? ?; reflexivity
  | |- abrupt _ (if ?b then _ else _) => destruct b
  | |- abrupt _ (match ?x with _ => _ end) => destruct x
  | |- abrupt _ _ => apply abrupt_sat; sat_events; reflexivity
  end.

Section Blocks.
Context (h : host).

(** The calls of [deleteDirRecursive]: [rmdir] at or below its directory,
    [unlink] below it. *)
Lemma dropped_deleteDirRecursive_fuel (E : event -> Prop) fuel dirPath :
  (forall q ok, dirPath `prefix_of` q -> E (EvFs OpRmdir q ok)) ->
  (forall q ok, dirPath `prefix_of` q -> q <> dirPath -> E (EvFs OpUnlink q ok)) ->
  sat (events_in E) (deleteDirRecursive_fuel h fuel dirPath).
Proof.
  assert (Hlen : forall (p : path) x, p ++ [x] <> p).
  { intros p x Heq. apply (f_equal length) in Heq. rewrite length_app in Heq.
    simpl in Heq. lia. }
  revert dirPath. induction fuel as [|fuel IH]; intros dirPath Hr Hu; simpl.
  - sat_step.
  - unfold unlinkSync, rmdirSync. sat_events.
    + apply Hu; [by apply prefix_app_r | apply Hlen].
    + apply IH.
      * intros q ok Hq. apply Hr. etrans; [|exact Hq]. by apply prefix_app_r.
      * intros q ok Hq Hne. apply Hu.
        -- etrans; [|exact Hq]. by apply prefix_app_r.
        -- intros ->. apply (prefix_length) in Hq. rewrite length_app in Hq.
           simpl in Hq. lia.
    + by apply Hr.
Qed.

Lemma abrupt_deleteDirRecursive installDir filePath :
  abrupt (reaches_backup_catch installDir filePath)
    (deleteDirRecursive h (backup_path installDir filePath)).
Proof.
  apply abrupt_sat. intros st. apply dropped_deleteDirRecursive_fuel.
  - intros q [] Hq; [done|]. unfold reaches_backup_catch, dropped_by_delete.
    by rewrite bool_decide_true.
  - intros q [] Hq Hne; [done|]. unfold reaches_backup_catch, dropped_by_delete.
    by rewrite bool_decide_true, bool_decide_false.
Qed.

Lemma backupOne_calls installDir dryRun filePath :
  sat (events_in (backup_call installDir filePath))
    (backupOne h installDir dryRun filePath).
Proof.
  unfold backupOne, unlinkSync, mkdirSync, cpSync, copyFileSync.
  sat_events; try exact I; try (cbn; done); try (cbn; by apply prefix_app_r).
  by apply events_deleteDirRecursive.
Qed.

Lemma copyOne_calls base installDir dryRun filePath :
  sat (events_in (copy_call installDir filePath))
    (copyOne h base installDir dryRun filePath).
Proof.
  unfold copyOne, unlinkSync, mkdirSync, cpSync, copyFileSync.
  sat_events; try exact I; cbn; auto.
Qed.

Lemma backupOne_block installDir dryRun filePath st :
  res (backupOne h installDir dryRun filePath st) = Ok tt
  /\ backup_block installDir filePath (events (backupOne h installDir dryRun filePath st)).
Proof.
  destruct (backupOne_outcome h installDir dryRun filePath st) as (Hr & o & Ho & Hp).
  split; [done|]. split; [by exists o|]. split; [|apply backupOne_calls].
  unfold backupOne. rewrite existsSync_spelled_bind.
  destruct (spelled_found _ _); cbn [negb]; [|reflexivity].
  destruct dryRun; [reflexivity|].
  apply answered_try_catch.
  - unfold unlinkSync, mkdirSync, cpSync, copyFileSync.
    repeat first [ apply abrupt_deleteDirRecursive | abrupt_step ].
  - done.
  - intros op q code. cbn. by rewrite fsop_eqb_refl, bool_decide_true.
Qed.

Lemma copyOne_block base installDir dryRun filePath st :
  res (copyOne h base installDir dryRun filePath st) = Ok tt
  /\ copy_block base installDir filePath
       (events (copyOne h base installDir dryRun filePath st)).
Proof.
  destruct (copyOne_outcome h base installDir dryRun filePath st) as (Hr & o & Ho & Hp).
  split; [done|]. split; [by exists o|]. split; [|apply copyOne_calls].
  unfold copyOne. rewrite existsSync_spelled_bind.
  destruct (spelled_found _ _); cbn [negb]; [|reflexivity].
  destruct dryRun; [reflexivity|].
  apply answered_try_catch.
  - unfold unlinkSync, mkdirSync, cpSync, copyFileSync. repeat abrupt_step.
  - done.
  - intros op q code. cbn. by rewrite fsop_eqb_refl, bool_decide_true.
Qed.

(** A loop whose body never throws handles every element: its trace is
    one block of events per element, in the order of the list. *)
Lemma for_each_blocks {A} (P : A -> list event -> Prop) (body : A -> M unit) xs st :
  (forall x st, res (body x st) = Ok tt /\ P x (events (body x st))) ->
  res (for_each xs body st) = Ok tt
  /\ exists blocks, events (for_each xs body st) = concat blocks /\ Forall2 P xs blocks.
Proof.
  intros Hb. revert st. induction xs as [|x xs IH]; intros st; cbn [for_each].
  - split; [done|]. exists []. by split; [|constructor].
  - destruct (Hb x st) as [Hr HP]. rewrite (run_bind_ok _ _ _ _ Hr). cbn [res events].
    destruct (IH (final (body x st))) as (Hr' & blocks & Hev & Hall).
    split; [done|]. exists (events (body x st) :: blocks).
    split; [by rewrite Hev | by constructor].
Qed.
End Blocks.

(** C9, amended: neither loop throws, whatever fails, and the trace of each
    is one block of events per listed path, in the order of the list.  The
    block of a path ends with the one logger call that tells how its
    handling ended (skipped, announced, done, failed with the error caught)
    and holds no other; every call in it is at the paths of that path (at or
    below its backup path; at its destination or the directory of the
    destination); and every failed call in it that reaches the [catch] of
    the path is followed at once by the warning that carries its error, with
    which the block ends: nothing is undone and nothing more is done for
    that path, and the next block is the next path.  In the copy loop every
    failed call reaches the [catch]; in the backup loop all do but the
    [rmdir] and [unlink] calls inside [deleteDirRecursive(backupPath)]. *)
Theorem per_path_failures_are_contained h files installDir extractDir dryRun st :
  let b := backupFiles h files installDir dryRun st in
  let c := copyUpdatedFiles h files extractDir installDir dryRun st in
  (res b = Ok tt
   /\ exists blocks,
        events b = EvLog Debug (MBackupStart (length files))
                     :: concat blocks ++ [EvLog Debug MBackupDone]
        /\ Forall2 (backup_block installDir) files blocks)
  /\ (res c = Ok tt
      /\ exists base blocks,
           res (sourceBase extractDir st) = Ok base
           /\ events c = (EvLog Debug (MCopyStart (length files))
                            :: events (sourceBase extractDir st))
                         ++ concat blocks ++ [EvLog Debug MCopyDone]
           /\ Forall2 (copy_block base installDir) files blocks).
Proof.
  cbv zeta. split.
  - unfold backupFiles.
    destruct (for_each_blocks (backup_block installDir)
                (backupOne h installDir dryRun) files st) as (Hr & blocks & Hev & Hall).
    { intros f st'. apply backupOne_block. }
    rewrite (run_bind_ok (log_debug _) _ st tt eq_refl).
    change (final (log_debug (MBackupStart (length files)) st)) with st.
    rewrite (run_bind_ok _ _ _ _ Hr). cbn [res events log_debug emit app].
    split; [done|]. exists blocks. by rewrite Hev.
  - destruct (copyUpdatedFiles_run h files extractDir installDir dryRun st)
      as (Hbase & _ & ->).
    pose proof (sourceBase_spec extractDir st) as Hs. cbv zeta in Hs.
    set (wrapped := match st_fs st !! (extractDir ++ ["package"]) with
                    | Some Dir => true | _ => false end) in *.
    set (base := if wrapped then extractDir ++ ["package"] else extractDir) in *.
    destruct (for_each_blocks (copy_block base installDir)
                (copyOne h base installDir dryRun) files st) as (Hr & blocks & Hev & Hall).
    { intros f st'. apply copyOne_block. }
    rewrite (run_bind_ok (log_debug _) _ st tt eq_refl).
    change (final (log_debug (MCopyStart (length files)) st)) with st.
    assert (Hw : forall k : unit -> M unit,
               ((if wrapped then log_debug (MUsingPackageDir (extractDir ++ ["package"]))
                 else mret tt) ≫= k) st
               = Out (events (sourceBase extractDir st) ++ events (k tt st))
                     (final (k tt st)) (res (k tt st))).
    { intros k. rewrite Hs. unfold wrapped.
      by destruct (st_fs st !! (extractDir ++ ["package"])) as [[]|]. }
    rewrite Hw. rewrite (run_bind_ok _ _ _ _ Hr). cbn [res events log_debug emit app].
    split; [done|]. exists base, blocks. split; [exact Hbase|]. split; [|exact Hall].
    by rewrite Hev.
Qed.

(** C9 as stated fails where a backup of an earlier update is in the way
    and the file system refuses to remove its directory: [deleteDirRecursive]
    drops the error, the backup goes on over the old one and reports
    success, and no warning follows the failed [rmdir]. *)
Lemma per_path_failures_counterexample :
  ~ per_path_failures_as_stated ex_host_no_rmdir ["dist"] ["tmp"; "x"] "/opt/cli"
      ex_stale_backup_state.
Proof. intros [Hb _]. vm_compute in Hb. discriminate Hb. Qed.

(** The loops on the concrete installation, when the file system refuses
    every write to [dist.bak] and to [dist]: both paths fail and
    [package.json] is still backed up and replaced. *)
Example failure_at_dist_leaves_package_json :
  let refuses := fun (op : fsop) (p : path) =>
    bool_decide (p = ["opt"; "cli"; "dist.bak"] \/ p = ["opt"; "cli"; "dist"]) in
  let h := ex_host_with ∅ refuses in
  let st := {| st_fs := <[ ["x"; "dist"] := Dir ]>
                          (<[ ["x"; "package.json"] := File "new" ]> (<[ ["x"] := Dir ]> ex_fs));
               st_store := StoreMissing; st_cleanup := fresh_cleanup |} in
  omap backup_outcome (events (backupFiles h ["dist"; "package.json"] "/opt/cli" false st))
  = [Failed ["opt"; "cli"; "dist"] (ErrFs OpMkdir ["opt"; "cli"; "dist.bak"] "EACCES");
     Completed ["opt"; "cli"; "package.json"]]
  /\ omap copy_outcome
       (events (copyUpdatedFiles h ["dist"; "package.json"] ["x"] "/opt/cli" false st))
     = [Failed ["opt"; "cli"; "dist"] (ErrFs OpCp ["opt"; "cli"; "dist"] "EACCES");
        Completed ["opt"; "cli"; "package.json"]].
Proof. split; vm_compute; reflexivity. Qed.

(** ** Which nodes a file-system call can change *)

Lemma removelast_prefix {A} (l : list A) : removelast l `prefix_of` l.
Proof.
  induction l as [|a [|b l] IH]; simpl; [done | apply prefix_nil | by apply prefix_cons].
Qed.

Lemma mkdir_p_lookup pre segs fs q :
  (mkdir_p pre segs fs).1 !! q = fs !! q
  \/ (fs !! q = None /\ (mkdir_p pre segs fs).1 !! q = Some Dir
      /\ exists k, k <> [] /\ k `prefix_of` segs /\ q = pre ++ k).
Proof.
  revert pre fs. induction segs as [|s rest IH]; intros pre fs; simpl; [by left|].
  destruct (fs !! (pre ++ [s])) as [[data|]|] eqn:E; simpl.
  - by left.
  - destruct (IH (pre ++ [s]) fs) as [Hq|(Hn & Hd & k & Hk & Hp & ->)]; [by left|].
    right. split; [done|]. split; [done|].
    exists (s :: k). split; [done|]. split; [by apply prefix_cons|].
    by rewrite <- app_assoc.
  - destruct (IH (pre ++ [s]) (<[pre ++ [s] := Dir]> fs))
      as [Hq|(Hn & Hd & k & Hk & Hp & ->)].
    + destruct (decide (q = pre ++ [s])) as [->|Hne].
      * right. rewrite Hq, lookup_insert_eq. split; [done|]. split; [done|].
        exists [s]. split; [done|]. split; [|done].
        apply prefix_cons, prefix_nil.
      * left. rewrite Hq. by apply lookup_insert_ne.
    + right. destruct (decide ((pre ++ [s]) ++ k = pre ++ [s])) as [Heq|Hne].
      { rewrite Heq, lookup_insert_eq in Hn. done. }
      rewrite lookup_insert_ne in Hn by done.
      split; [done|]. split; [done|].
      exists (s :: k). split; [done|]. split; [by apply prefix_cons|].
      by rewrite <- app_assoc.
Qed.

Lemma mkdir_p_frame pre segs fs q :
  ~ q `prefix_of` pre ++ segs -> (mkdir_p pre segs fs).1 !! q = fs !! q.
Proof.
  intros Hq. destruct (mkdir_p_lookup pre segs fs q)
    as [?|(_ & _ & k & _ & Hp & ->)]; [done|].
  exfalso. apply Hq. by apply prefix_app.
Qed.

Lemma mkdir_p_frame_above pre segs fs q :
  ~ pre `prefix_of` q -> (mkdir_p pre segs fs).1 !! q = fs !! q.
Proof.
  intros Hq. destruct (mkdir_p_lookup pre segs fs q)
    as [?|(_ & _ & k & _ & Hp & ->)]; [done|].
  exfalso. apply Hq. by apply prefix_app_r.
Qed.

Lemma mkdir_p_frame_at pre segs fs :
  (mkdir_p pre segs fs).1 !! pre = fs !! pre.
Proof.
  destruct (mkdir_p_lookup pre segs fs pre)
    as [?|(_ & _ & k & Hk & _ & Heq)]; [done|].
  exfalso. rewrite <- (app_nil_r pre) in Heq at 1.
  apply app_inv_head in Heq. by subst.
Qed.

Lemma unlink_frame p fs q : q <> p -> (unlink p fs).1 !! q = fs !! q.
Proof.
  intros Hq. unfold unlink. destruct (lookup_node fs p) as [[]|]; simpl; try done.
  by apply lookup_delete_ne.
Qed.

Lemma rmdir_frame p fs q : q <> p -> (rmdir p fs).1 !! q = fs !! q.
Proof.
  intros Hq. unfold rmdir. destruct p as [|s p]; [done|].
  destruct (fs !! (s :: p)) as [[]|]; simpl; try done.
  destruct (readdir_names fs (s :: p)); simpl; [|done].
  by apply lookup_delete_ne.
Qed.

Lemma write_file_frame p data fs q : q <> p -> (write_file p data fs).1 !! q = fs !! q.
Proof.
  intros Hq. unfold write_file.
  destruct (lookup_node fs (dirname p)) as [[]|]; simpl; try done.
  destruct (lookup_node fs p) as [[]|]; simpl; try done; by apply lookup_insert_ne.
Qed.

Lemma copy_file_frame src dest fs q : q <> dest -> (copy_file src dest fs).1 !! q = fs !! q.
Proof.
  intros Hq. unfold copy_file. destruct (lookup_node fs src) as [[]|]; simpl; try done.
  by apply write_file_frame.
Qed.

Lemma cp_entries_frame refuses dest es fs q :
  ~ dest `prefix_of` q -> (cp_entries refuses dest es fs).1 !! q = fs !! q.
Proof.
  intros Hq. revert fs. induction es as [|[r n] es IH]; intros fs; simpl; [done|].
  destruct (refuses (dest ++ r)); simpl; [done|].
  assert (Hne : dest ++ r <> q).
  { intros <-. apply Hq. by apply prefix_app_r. }
  destruct (lookup_node fs (dest ++ r)) as [[]|], n; simpl; try done;
    rewrite IH; by apply lookup_insert_ne.
Qed.

Lemma cp_tree_frame refuses src dest fs q :
  ~ comparable q dest -> (cp_tree refuses src dest fs).1 !! q = fs !! q.
Proof.
  intros Hq. unfold cp_tree. destruct (lookup_node fs src) as [n|]; [|done].
  destruct (decide (src `prefix_of` dest)); [done|].
  assert (Hm : (mkdir_p [] (dirname dest) fs).1 !! q = fs !! q).
  { apply mkdir_p_frame. simpl. intros Hp. apply Hq. left.
    etrans; [exact Hp|]. apply removelast_prefix. }
  destruct (mkdir_p [] (dirname dest) fs) as [fs1 [code|]]; [exact Hm|].
  simpl in Hm. rewrite <- Hm. apply cp_entries_frame. intros Hp. apply Hq. by right.
Qed.

Lemma untar_entry_frame refuses cwd fs e q :
  ~ (cwd `prefix_of` q /\ q <> cwd) -> untar_entry refuses cwd fs e !! q = fs !! q.
Proof.
  intros Hq. unfold untar_entry. destruct e as [r n]. cbn [fst snd].
  destruct r as [|s r]; [done|].
  generalize (removelast (s :: r)). intros segs.
  destruct (refuses (cwd ++ s :: r)); [done|].
  destruct (lookup_node fs cwd) as [[]|]; [done| |done].
  assert (Hm : (mkdir_p cwd segs fs).1 !! q = fs !! q).
  { destruct (decide (cwd `prefix_of` q)) as [Hp|Hp].
    - destruct (decide (q = cwd)) as [->|Hne]; [apply mkdir_p_frame_at|].
      exfalso. by apply Hq.
    - by apply mkdir_p_frame_above. }
  destruct (mkdir_p cwd segs fs) as [fs1 [code|]]; [done|].
  simpl in Hm.
  assert (Hne : cwd ++ s :: r <> q).
  { intros <-. apply Hq. split; [by apply prefix_app_r|].
    intros Heq. rewrite <- (app_nil_r cwd) in Heq at 2.
    by apply app_inv_head in Heq. }
  destruct (fs1 !! (cwd ++ s :: r)) as [[]|], n; try done;
    by rewrite lookup_insert_ne.
Qed.

Lemma untar_frame refuses cwd es fs q :
  ~ (cwd `prefix_of` q /\ q <> cwd) ->
  foldl (untar_entry refuses cwd) fs es !! q = fs !! q.
Proof.
  intros Hq. revert fs. induction es as [|e es IH]; intros fs; simpl; [done|].
  rewrite IH. by apply untar_entry_frame.
Qed.

(** ** What [readdirSync] lists *)

Lemma child_name_Some p k n : child_name p k = Some n <-> k = p ++ [n].
Proof.
  unfold child_name. split.
  - destruct (reverse k) as [|m r] eqn:E; [done|].
    destruct (decide (reverse r = p)) as [<-|]; [|done]. intros [= ->].
    rewrite <- (reverse_involutive k), E. by rewrite reverse_cons.
  - intros ->. rewrite reverse_app. simpl.
    rewrite decide_True; [done|]. apply reverse_involutive.
Qed.

Lemma elem_of_readdir_names fs p n :
  n ∈ readdir_names fs p <-> is_Some (fs !! (p ++ [n])).
Proof.
  unfold readdir_names. rewrite list_elem_of_omap. split.
  - intros ([k nd] & Hin & Hc). simpl in Hc. apply child_name_Some in Hc as ->.
    apply elem_of_map_to_list in Hin. by eexists.
  - intros [nd Hnd]. exists (p ++ [n], nd). split.
    + by apply elem_of_map_to_list.
    + simpl. by apply child_name_Some.
Qed.

Lemma NoDup_omap_inj {A B} (f : A -> option B) (l : list A) :
  (forall x y b, x ∈ l -> y ∈ l -> f x = Some b -> f y = Some b -> x = y) ->
  NoDup l -> NoDup (omap f l).
Proof.
  intros Hinj Hnd. induction Hnd as [|x l Hx Hnd IH]; simpl; [constructor|].
  assert (IH' : NoDup (omap f l)).
  { apply IH. intros y z b Hy Hz. apply Hinj; by right. }
  destruct (f x) as [b|] eqn:Hfx; [|done].
  constructor; [|done].
  intros Hb. apply list_elem_of_omap in Hb as (y & Hy & Hfy).
  assert (x = y) as -> by (eapply Hinj; eauto; [left | by right]).
  done.
Qed.

Lemma NoDup_readdir_names fs p : NoDup (readdir_names fs p).
Proof.
  unfold readdir_names. apply NoDup_omap_inj; [|apply NoDup_map_to_list].
  intros [k1 n1] [k2 n2] b H1 H2 Hc1 Hc2. simpl in *.
  apply child_name_Some in Hc1 as ->. apply child_name_Some in Hc2 as ->.
  apply elem_of_map_to_list in H1, H2. congruence.
Qed.

Lemma readdir_names_nil fs p :
  (forall n, fs !! (p ++ [n]) = None) -> readdir_names fs p = [].
Proof.
  intros Hn. destruct (readdir_names fs p) as [|n ns] eqn:E; [done|].
  assert (Hin : n ∈ readdir_names fs p) by (rewrite E; left).
  apply elem_of_readdir_names in Hin as [nd Hnd]. by rewrite Hn in Hnd.
Qed.

Lemma fs_depth_bound fs k : is_Some (fs !! k) -> length k <= fs_depth fs.
Proof.
  intros [nd Hk]. apply elem_of_map_to_list in Hk. unfold fs_depth.
  induction (map_to_list fs) as [|[k' n'] l IH]; [by apply elem_of_nil in Hk|].
  simpl. apply elem_of_cons in Hk as [[= <- <-]|Hk]; [lia|].
  specialize (IH Hk). lia.
Qed.

(** ** Relations on the states alone *)

#[global] Instance shrinks_rel : ActionRel shrinks.
Proof. split; unfold shrinks; [done | intros s1 e1 s2 e2 s3 H1 H2 k Hk; auto]. Qed.

#[global] Instance keeps_cleanup_rel : ActionRel keeps_cleanup.
Proof. split; unfold keeps_cleanup; [done | intros; congruence]. Qed.

#[global] Instance keeps_still K : Still (keeps K).
Proof. by intros st evs q Hq. Qed.

#[global] Instance keeps_fs_still : Still keeps_fs.
Proof. by intros st evs. Qed.

#[global] Instance keeps_store_still : Still keeps_store.
Proof. by intros st evs. Qed.

#[global] Instance keeps_cleanup_still : Still keeps_cleanup.
Proof. by intros st evs. Qed.

#[global] Instance shrinks_still : Still shrinks.
Proof. by intros st evs k Hk. Qed.

Section StillCalls.
Context (R : state -> list event -> state -> Prop) `{!Still R} (h : host).

Lemma still_emit e : sat R (emit e).
Proof. intros st. apply still. Qed.

Lemma still_modify g : (forall st evs, R st evs (g st)) -> sat R (modify g).
Proof. intros Hg st. apply Hg. Qed.

Lemma still_fs_call op p f :
  (forall st evs, R st evs (set_fs st (f (st_fs st)).1)) ->
  sat R (fs_call h op p f).
Proof.
  intros Hf st. unfold fs_call. destruct (h_refuses h op p); [apply still|].
  specialize (Hf st). destruct (f (st_fs st)) as [fs' [code|]]; apply Hf.
Qed.

Lemma still_tar_extract file cwd :
  (forall st evs es,
     R st evs (set_fs st (foldl (untar_entry (h_refuses h OpUntar) cwd) (st_fs st) es))) ->
  sat R (tar_extract h file cwd).
Proof.
  intros Hf st. unfold tar_extract.
  destruct (lookup_node _ _) as [[data|]|]; try apply still.
  destruct (h_untar h data) as [es sound]. apply Hf.
Qed.

Lemma still_readLastCheckTimestamp packageName :
  sat R (readLastCheckTimestamp packageName).
Proof. intros st. apply still. Qed.
End StillCalls.

Lemma comparable_app_l q t x : comparable q (t ++ x) -> comparable q t.
Proof.
  intros [Hp|Hp]; [|right; etrans; [|exact Hp]; by apply prefix_app_r].
  destruct (prefix_weak_total q t (t ++ x) Hp) as [?|?]; [|by left|by right].
  by apply prefix_app_r.
Qed.

Ltac sat_still :=
  repeat first
    [ sat_step
    | apply still_emit; tc_solve
    | apply still_readLastCheckTimestamp; tc_solve ].

(** ** The nodes a function leaves alone *)

Section KeepsCalls.
Context (h : host) (K : path -> Prop).

Lemma keeps_mkdirSync p :
  (forall q, K q -> ~ q `prefix_of` p) -> sat (keeps K) (mkdirSync h p).
Proof.
  intros HK. apply still_fs_call; [tc_solve|]. intros st evs q Hq. simpl.
  apply mkdir_p_frame. simpl. auto.
Qed.

Lemma keeps_unlinkSync p : (forall q, K q -> q <> p) -> sat (keeps K) (unlinkSync h p).
Proof.
  intros HK. apply still_fs_call; [tc_solve|]. intros st evs q Hq. simpl.
  apply unlink_frame. auto.
Qed.

Lemma keeps_rmdirSync p : (forall q, K q -> q <> p) -> sat (keeps K) (rmdirSync h p).
Proof.
  intros HK. apply still_fs_call; [tc_solve|]. intros st evs q Hq. simpl.
  apply rmdir_frame. auto.
Qed.

Lemma keeps_copyFileSync src dest :
  (forall q, K q -> q <> dest) -> sat (keeps K) (copyFileSync h src dest).
Proof.
  intros HK. apply still_fs_call; [tc_solve|]. intros st evs q Hq. simpl.
  apply copy_file_frame. auto.
Qed.

Lemma keeps_writeStream target data :
  (forall q, K q -> q <> target) -> sat (keeps K) (writeStream h target data).
Proof.
  intros HK. apply still_fs_call; [tc_solve|]. intros st evs q Hq. simpl.
  apply write_file_frame. auto.
Qed.

Lemma keeps_cpSync src dest :
  (forall q, K q -> ~ comparable q dest) -> sat (keeps K) (cpSync h src dest).
Proof.
  intros HK. apply still_fs_call; [tc_solve|]. intros st evs q Hq. simpl.
  apply cp_tree_frame. auto.
Qed.

Lemma keeps_tar_extract file cwd :
  (forall q, K q -> ~ (cwd `prefix_of` q /\ q <> cwd)) ->
  sat (keeps K) (tar_extract h file cwd).
Proof.
  intros HK. apply still_tar_extract; [tc_solve|]. intros st evs es q Hq. simpl.
  apply untar_frame. auto.
Qed.

Lemma keeps_deleteDirRecursive_fuel fuel p :
  (forall q, K q -> ~ p `prefix_of` q) ->
  sat (keeps K) (deleteDirRecursive_fuel h fuel p).
Proof.
  revert p. induction fuel as [|fuel IH]; intros p HK; simpl; [sat_step|].
  sat_still.
  - apply keeps_unlinkSync. intros q Hq ->. apply (HK _ Hq). by apply prefix_app_r.
  - apply IH. intros q Hq Hp. apply (HK _ Hq). etrans; [|exact Hp]. by apply prefix_app_r.
  - apply keeps_rmdirSync. intros q Hq ->. by apply (HK _ Hq).
Qed.

Lemma keeps_deleteDirRecursive p :
  (forall q, K q -> ~ p `prefix_of` q) -> sat (keeps K) (deleteDirRecursive h p).
Proof. intros HK st. by apply keeps_deleteDirRecursive_fuel. Qed.

Lemma keeps_backupOne installDir dryRun filePath :
  (forall q, K q ->
     ~ comparable q (backup_path installDir filePath)) ->
  sat (keeps K) (backupOne h installDir dryRun filePath).
Proof.
  intros HK. unfold backupOne. sat_still.
  - apply keeps_unlinkSync. intros q Hq ->. apply (HK _ Hq). by left.
  - apply keeps_deleteDirRecursive. intros q Hq Hp. apply (HK _ Hq). by right.
  - apply keeps_copyFileSync. intros q Hq ->. apply (HK _ Hq). by left.
  - apply keeps_mkdirSync. intros q Hq Hp. apply (HK _ Hq). by left.
  - apply keeps_copyFileSync. intros q Hq ->. apply (HK _ Hq).
    right. by apply prefix_app_r.
  - apply keeps_cpSync. intros q Hq Hc. apply (HK _ Hq).
    by apply comparable_app_l in Hc.
Qed.

Lemma keeps_copyOne base installDir dryRun filePath :
  (forall q, K q -> ~ comparable q (join (to_path installDir) filePath)) ->
  sat (keeps K) (copyOne h base installDir dryRun filePath).
Proof.
  intros HK. unfold copyOne. sat_still.
  - apply keeps_mkdirSync. intros q Hq Hp. apply (HK _ Hq). left.
    etrans; [exact Hp|]. apply removelast_prefix.
  - apply keeps_copyFileSync. intros q Hq ->. apply (HK _ Hq). by left.
  - apply keeps_cpSync. intros q Hq Hc. by apply (HK _ Hq).
  - apply keeps_unlinkSync. intros q Hq ->. apply (HK _ Hq). by left.
  - apply keeps_cpSync. intros q Hq Hc. by apply (HK _ Hq).
Qed.

Lemma keeps_backupFiles files installDir dryRun :
  (forall q f, K q -> f ∈ files ->
     ~ comparable q (backup_path installDir f)) ->
  sat (keeps K) (backupFiles h files installDir dryRun).
Proof.
  intros HK. unfold backupFiles. sat_still. apply keeps_backupOne. eauto.
Qed.

Lemma keeps_copyUpdatedFiles files extractDir installDir dryRun :
  (forall q f, K q -> f ∈ files -> ~ comparable q (join (to_path installDir) f)) ->
  sat (keeps K) (copyUpdatedFiles h files extractDir installDir dryRun).
Proof.
  intros HK. unfold copyUpdatedFiles, sourceBase. sat_still.
  all: apply keeps_copyOne; eauto.
Qed.

Lemma keeps_displayUpdateNotification version packageName reinstall changelog dry cb :
  sat (keeps K)
    (displayUpdateNotification version packageName reinstall changelog dry cb).
Proof. unfold displayUpdateNotification. sat_still. Qed.
End KeepsCalls.

(** ** [deleteDirRecursive] removes the directory *)

Section Delete.
Context (h : host).

Lemma deleteDirRecursive_fuel_S fuel dirPath :
  deleteDirRecursive_fuel h (S fuel) dirPath
  = try_catch
      (there ← existsSync dirPath;
       if there : bool then
         names ← readdirSync dirPath;
         for_each names (delete_entry h fuel dirPath) ;;
         rmdirSync h dirPath
       else mret tt)
      (fun _ => mret tt).
Proof. reflexivity. Qed.

Lemma shrinks_unlinkSync p : sat shrinks (unlinkSync h p).
Proof.
  apply still_fs_call; [tc_solve|]. intros st evs k. simpl. unfold unlink.
  destruct (lookup_node (st_fs st) p) as [[]|]; simpl; try done.
  intros Hk. apply lookup_delete_is_Some in Hk. tauto.
Qed.

Lemma shrinks_rmdirSync p : sat shrinks (rmdirSync h p).
Proof.
  apply still_fs_call; [tc_solve|]. intros st evs k. simpl. unfold rmdir.
  destruct p as [|s p]; [done|].
  destruct (st_fs st !! (s :: p)) as [[]|]; simpl; try done.
  destruct (readdir_names _ _); simpl; [|done].
  intros Hk. apply lookup_delete_is_Some in Hk. tauto.
Qed.

Lemma shrinks_deleteDirRecursive_fuel fuel p :
  sat shrinks (deleteDirRecursive_fuel h fuel p).
Proof.
  revert p. induction fuel as [|fuel IH]; intros p; simpl; [sat_step|].
  sat_still; [apply shrinks_unlinkSync | apply IH | apply shrinks_rmdirSync].
Qed.

Lemma unlinkSync_file p st data :
  h_refuses h OpUnlink p = false -> st_fs st !! p = Some (File data) -> p <> [] ->
  res (unlinkSync h p st) = Ok tt
  /\ final (unlinkSync h p st) = set_fs st (delete p (st_fs st)).
Proof.
  intros Hr Hp Hne. unfold unlinkSync, fs_call, unlink, lookup_node. rewrite Hr.
  destruct p; [done|]. by rewrite Hp.
Qed.

Lemma rmdirSync_empty p st :
  h_refuses h OpRmdir p = false -> st_fs st !! p = Some Dir -> p <> [] ->
  readdir_names (st_fs st) p = [] ->
  final (rmdirSync h p st) = set_fs st (delete p (st_fs st)).
Proof.
  intros Hr Hp Hne Hn. unfold rmdirSync, fs_call, rmdir. rewrite Hr.
  destruct p; [done|]. by rewrite Hp, Hn.
Qed.

Lemma prefix_snoc_inv (p : path) c c' : p ++ [c] `prefix_of` p ++ [c'] -> c = c'.
Proof.
  intros Hp. apply prefix_app_inv in Hp.
  destruct Hp as [k Hk]. by injection Hk.
Qed.

Lemma not_prefix_snoc (p : path) c : ~ p ++ [c] `prefix_of` p.
Proof.
  intros Hp. apply prefix_length in Hp. rewrite length_app in Hp. simpl in Hp. lia.
Qed.

Lemma deleteDirRecursive_fuel_removes fuel p st :
  p <> [] -> shallow (st_fs st) (length p + fuel) -> deletable h p ->
  st_fs st !! p = None \/ st_fs st !! p = Some Dir ->
  st_fs (final (deleteDirRecursive_fuel h fuel p st)) !! p = None.
Proof.
  revert p st. induction fuel as [|fuel IH]; intros p st Hne Hsh Hdel Hp.
  - simpl. destruct Hp as [Hp|Hp]; [done|].
    assert (length p < length p + 0) by (apply Hsh; by rewrite Hp). lia.
  - rewrite deleteDirRecursive_fuel_S.
    assert (Hl : lookup_node (st_fs st) p = st_fs st !! p) by (by destruct p).
    destruct Hp as [Hp|Hp].
    { unfold existsSync. run. by rewrite Hl, Hp. }
    (* every entry of the directory is removed in turn *)
    assert (Hloop : forall ns s,
      NoDup ns -> st_fs s !! p = Some Dir ->
      (forall c, c ∈ ns -> is_Some (st_fs s !! (p ++ [c]))) ->
      shallow (st_fs s) (length p + S fuel) ->
      let o := for_each ns (delete_entry h fuel p) s in
      res o = Ok tt /\ st_fs (final o) !! p = Some Dir
      /\ (forall c, c ∉ ns -> st_fs (final o) !! (p ++ [c]) = st_fs s !! (p ++ [c]))
      /\ (forall c, c ∈ ns -> st_fs (final o) !! (p ++ [c]) = None)).
    { induction ns as [|c ns IHns]; intros s Hnd Hdir Hch Hs; cbv zeta.
      - simpl. repeat split; try done. intros c Hc. by apply elem_of_nil in Hc.
      - apply NoDup_cons in Hnd as [Hc Hnd].
        destruct (Hch c) as [nd Hnd']; [left|].
        (* the state after the entry [c] *)
        assert (Hone : res (delete_entry h fuel p c s) = Ok tt
          /\ st_fs (final (delete_entry h fuel p c s)) !! (p ++ [c]) = None
          /\ (forall q, ~ p ++ [c] `prefix_of` q ->
                st_fs (final (delete_entry h fuel p c s)) !! q = st_fs s !! q)
          /\ shrinks s [] (final (delete_entry h fuel p c s))).
        { unfold delete_entry, statSync.
          assert (Hlc : lookup_node (st_fs s) (p ++ [c]) = Some nd).
          { unfold lookup_node. by destruct p. }
          rewrite run_bind, Hlc. simpl. destruct nd as [data|].
          - destruct (unlinkSync_file (p ++ [c]) s data) as [Hr Hf];
              [apply Hdel; by apply prefix_app_r | done | by destruct p |].
            rewrite Hr, Hf. simpl. split; [done|]. split; [apply lookup_delete_eq|].
            split.
            + intros q Hq. apply lookup_delete_ne. intros <-. by apply Hq.
            + intros k Hk. simpl in Hk. apply lookup_delete_is_Some in Hk. tauto.
          - split; [apply total_unit, total_deleteDirRecursive_fuel|].
            split; [|split].
            + apply IH; [by destruct p | | | by right].
              * intros k Hk. rewrite length_app. simpl.
                specialize (Hs k Hk). lia.
              * intros q Hq. apply Hdel. etrans; [|exact Hq]. by apply prefix_app_r.
            + intros q Hq.
              by apply (keeps_deleteDirRecursive_fuel h
                          (fun q => ~ p ++ [c] `prefix_of` q) fuel (p ++ [c])).
            + apply (shrinks_deleteDirRecursive_fuel fuel (p ++ [c]) s). }
        destruct Hone as (Hr1 & Hgone & Hframe & Hshr).
        simpl. rewrite (run_bind_ok _ _ _ _ Hr1). simpl.
        destruct (IHns (final (delete_entry h fuel p c s))) as (Hr2 & Hd2 & Hk2 & Hg2);
          [done | | | |].
        + rewrite Hframe; [done|apply not_prefix_snoc].
        + intros c' Hc'. rewrite Hframe; [apply Hch; by right|].
          intros Hpre. apply prefix_snoc_inv in Hpre. by subst.
        + intros k Hk. apply Hs, Hshr, Hk.
        + split; [done|]. split; [done|]. split.
          * intros c' Hc'. rewrite not_elem_of_cons in Hc'. destruct Hc' as [Hne' Hc'].
            rewrite Hk2 by done. apply Hframe. intros Hpre.
            apply prefix_snoc_inv in Hpre. by subst.
          * intros c' Hc'. apply elem_of_cons in Hc' as [->|Hc'].
            -- destruct (decide (c ∈ ns)) as [Hin|Hnin]; [done|by rewrite Hk2].
            -- by apply Hg2. }
    destruct (Hloop (readdir_names (st_fs st) p) st) as (Hr & Hdir & Hkeep & Hgone);
      [apply NoDup_readdir_names | done | | done |].
    { intros c Hc. by apply elem_of_readdir_names. }
    unfold existsSync, readdirSync. run. rewrite Hl, Hp. run. rewrite Hl, Hp. run.
    rewrite Hr. run.
    set (s' := final (for_each (readdir_names (st_fs st) p) (delete_entry h fuel p) st)) in *.
    assert (Hempty : readdir_names (st_fs s') p = []).
    { apply readdir_names_nil. intros c.
      destruct (decide (c ∈ readdir_names (st_fs st) p)) as [Hc|Hc]; [by apply Hgone|].
      rewrite Hkeep by done.
      destruct (st_fs st !! (p ++ [c])) eqn:E; [|done].
      exfalso. apply Hc, elem_of_readdir_names. by rewrite E. }
    destruct (Hdel p) as [_ Hrm]; [done|].
    pose proof (rmdirSync_empty p s' Hrm Hdir Hne Hempty) as Hfin.
    destruct (res (rmdirSync h p s')); simpl; rewrite Hfin; apply lookup_delete_eq.
Qed.

Lemma deleteDirRecursive_removes p st :
  p <> [] -> deletable h p ->
  st_fs st !! p = None \/ st_fs st !! p = Some Dir ->
  st_fs (final (deleteDirRecursive h p st)) !! p = None.
Proof.
  intros Hne Hdel Hp. unfold deleteDirRecursive.
  apply deleteDirRecursive_fuel_removes; try done.
  intros k Hk. apply fs_depth_bound in Hk. lia.
Qed.
End Delete.

(** ** What the file-system functions leave alone besides the file system *)

#[global] Instance keeps_cleanup_ignores_fs : IgnoresFs keeps_cleanup.
Proof. by intros st evs fs. Qed.

#[global] Instance keeps_store_ignores_fs : IgnoresFs keeps_store.
Proof. by intros st evs fs. Qed.

Section OnlyFs.
Context (R : state -> list event -> state -> Prop).
Context `{!ActionRel R, !Still R, !IgnoresFs R} (h : host).

Lemma only_fs_call op p f : sat R (fs_call h op p f).
Proof. apply still_fs_call; [done|]. intros st evs. apply ignores_fs. Qed.

Lemma only_fs_tar_extract file cwd : sat R (tar_extract h file cwd).
Proof. apply still_tar_extract; [done|]. intros st evs es. apply ignores_fs. Qed.

Local Ltac only_fs :=
  repeat first
    [ sat_step
    | apply still_emit; tc_solve
    | apply only_fs_call
    | apply only_fs_tar_extract ].

Lemma only_fs_deleteDirRecursive_fuel fuel p : sat R (deleteDirRecursive_fuel h fuel p).
Proof.
  revert p. induction fuel as [|fuel IH]; intros p; simpl; [sat_step|].
  unfold unlinkSync, rmdirSync. only_fs. apply IH.
Qed.

Lemma only_fs_deleteDirRecursive p : sat R (deleteDirRecursive h p).
Proof. intros st. apply only_fs_deleteDirRecursive_fuel. Qed.

Lemma only_fs_downloadTarball url target dry : sat R (downloadTarball h url target dry).
Proof. unfold downloadTarball, mkdirSync, unlinkSync, writeStream. only_fs. Qed.

Lemma only_fs_extractTarball tarball dir dry : sat R (extractTarball h tarball dir dry).
Proof. unfold extractTarball, mkdirSync. only_fs. Qed.

Lemma only_fs_backupFiles files installDir dry :
  sat R (backupFiles h files installDir dry).
Proof.
  unfold backupFiles, backupOne, unlinkSync, mkdirSync, cpSync, copyFileSync.
  only_fs. apply only_fs_deleteDirRecursive.
Qed.

Lemma only_fs_copyUpdatedFiles files dir installDir dry :
  sat R (copyUpdatedFiles h files dir installDir dry).
Proof.
  unfold copyUpdatedFiles, sourceBase, copyOne, unlinkSync, mkdirSync, cpSync,
    copyFileSync.
  only_fs.
Qed.

Lemma only_fs_displayUpdateNotification version packageName reinstall changelog dry cb :
  sat R (displayUpdateNotification version packageName reinstall changelog dry cb).
Proof. unfold displayUpdateNotification. only_fs. Qed.

Lemma only_fs_cleanupTemporaryFiles ps dry : sat R (cleanupTemporaryFiles h ps dry).
Proof.
  unfold cleanupTemporaryFiles, unlinkSync. only_fs. apply only_fs_deleteDirRecursive.
Qed.
End OnlyFs.

(** ** The scratch paths *)

Lemma append_inj_r s a b : s +:+ a = s +:+ b -> a = b.
Proof. induction s as [|c s IH]; simpl; [done|]. intros [= ?]. auto. Qed.

Lemma createTempPaths_siblings h packageName version :
  siblings (createTempPaths h packageName version).
Proof.
  unfold createTempPaths. eexists (h_tmpdir h), _, _. split; [|split; reflexivity].
  intros Heq. apply append_inj_r in Heq. discriminate.
Qed.

Lemma siblings_facts ps :
  siblings ps ->
  tarballPath ps <> [] /\ extractDir ps <> []
  /\ tarballPath ps <> extractDir ps
  /\ ~ tarballPath ps `prefix_of` extractDir ps
  /\ ~ extractDir ps `prefix_of` tarballPath ps
  /\ ~ tarballPath ps `prefix_of` dirname (tarballPath ps)
  /\ ~ extractDir ps `prefix_of` dirname (tarballPath ps).
Proof.
  intros (tmp & a & b & Hab & -> & ->). unfold dirname. rewrite removelast_last.
  repeat split.
  - by destruct tmp.
  - by destruct tmp.
  - intros Heq. apply app_inv_head in Heq. congruence.
  - intros Hp. by apply prefix_snoc_inv in Hp.
  - intros Hp. apply prefix_snoc_inv in Hp. congruence.
  - apply not_prefix_snoc.
  - apply not_prefix_snoc.
Qed.

Lemma lookup_node_ne fs (p : path) : p <> [] -> lookup_node fs p = fs !! p.
Proof. by destruct p. Qed.

(** [cleanupTemporaryFiles] removes both scratch paths when they hold what
    the run put there and the file system does not refuse. *)
Lemma cleanupTemporaryFiles_removes h ps st :
  siblings ps -> deletable h (tarballPath ps) -> deletable h (extractDir ps) ->
  scratch_ok ps (st_fs st) ->
  scratch_gone ps (st_fs (final (cleanupTemporaryFiles h (Some ps) false st))).
Proof.
  intros Hsib Hdt Hde [Ht He].
  destruct (siblings_facts ps Hsib) as (Htn & Hen & Hte & Hnte & Hnet & _).
  (* the archive *)
  set (first := (there ← existsSync (tarballPath ps);
                 if there : bool then
                   unlinkSync h (tarballPath ps) ;;
                   log_debug (MDeletedTarball (tarballPath ps))
                 else mret tt) : M unit).
  assert (H1 : res (first st) = Ok tt
               /\ st_fs (final (first st)) !! tarballPath ps = None
               /\ st_fs (final (first st)) !! extractDir ps = st_fs st !! extractDir ps).
  { unfold first, existsSync. run. rewrite (lookup_node_ne _ _ Htn).
    destruct Ht as [Ht|[data Ht]]; rewrite Ht; run; [done|].
    destruct (unlinkSync_file h (tarballPath ps) st data) as [Hr Hf];
      [by apply Hdt | done | done |].
    rewrite Hr, Hf. simpl. split; [done|]. split; [apply lookup_delete_eq|].
    by apply lookup_delete_ne. }
  destruct H1 as (Hr1 & Ht1 & He1).
  (* the extraction directory *)
  set (second := (there ← existsSync (extractDir ps);
                  if there : bool then
                    deleteDirRecursive h (extractDir ps) ;;
                    log_debug (MDeletedExtractDir (extractDir ps))
                  else mret tt) : M unit).
  assert (H2 : forall s, st_fs s !! tarballPath ps = None ->
                 st_fs s !! extractDir ps = None \/ st_fs s !! extractDir ps = Some Dir ->
                 res (second s) = Ok tt /\ scratch_gone ps (st_fs (final (second s)))).
  { intros s Hts Hes. unfold second, existsSync. run. rewrite (lookup_node_ne _ _ Hen).
    destruct Hes as [Hes|Hes]; rewrite Hes; run; [done|].
    rewrite (total_unit _ s (total_deleteDirRecursive h (extractDir ps))). simpl.
    split; [done|]. split.
    - rewrite (keeps_deleteDirRecursive h (fun q => ~ extractDir ps `prefix_of` q)
                 (extractDir ps)); auto.
    - apply deleteDirRecursive_removes; auto. }
  destruct (H2 (final (first st))) as [Hr2 Hgone]; [done | by rewrite He1 |].
  unfold cleanupTemporaryFiles. fold first. fold second.
  rewrite run_bind. simpl. rewrite run_try_catch.
  rewrite (run_bind_ok _ _ _ _ Hr1). cbn [res final events]. rewrite Hr2.
  exact Hgone.
Qed.

(** [downloadTarball], not in a dry run, from a state without the scratch
    paths: either it throws and neither path is there, or it returns and
    the archive is a file. *)
Lemma downloadTarball_scratch h url ps st :
  siblings ps -> deletable h (tarballPath ps) -> scratch_gone ps (st_fs st) ->
  let o := downloadTarball h url (tarballPath ps) false st in
  st_cleanup (final o) = st_cleanup st
  /\ ((exists e, res o = Throw e) /\ scratch_gone ps (st_fs (final o))
      \/ res o = Ok tt
         /\ (exists data, st_fs (final o) !! tarballPath ps = Some (File data))
         /\ st_fs (final o) !! extractDir ps = None).
Proof.
  intros Hsib Hdel [Ht He]. cbv zeta.
  split; [apply (only_fs_downloadTarball keeps_cleanup h)|].
  destruct (siblings_facts ps Hsib) as (Htn & Hen & Hte & _ & _ & Htd & Hed).
  set (tb := tarballPath ps) in *. set (ed := extractDir ps) in *.
  set (mk := (there ← existsSync (dirname tb);
              if there : bool then mret tt else mkdirSync h (dirname tb)) : M unit).
  set (tail := (emit (EvDownload url) ;;
                match h_tarball h url with
                | DlReject reason => throw (ErrFetch reason)
                | DlStatus status text => throw (ErrHttp status text)
                | DlNoBody => throw ErrBodyNull
                | DlBody data complete =>
                    writeStream h tb data ;;
                    (if complete then mret tt else throw (ErrStream "aborted")) ;;
                    log_debug (MDownloaded tb)
                end) : M unit).
  set (hd := fun error : error =>
               ((there ← existsSync tb;
                 if there : bool
                 then try_catch (unlinkSync h tb)
                        (fun cleanupError => log_debug (MErrorCleaningDownload cleanupError))
                 else mret tt) ;;
                throw error) : M unit).
  assert (Hmk : st_fs (final (mk st)) !! tb = None /\ st_fs (final (mk st)) !! ed = None).
  { assert (Hk : sat (keeps (fun q => q = tb \/ q = ed)) mk).
    { unfold mk. sat_still. apply keeps_mkdirSync. by intros q [->| ->]. }
    split; rewrite (Hk st); auto. }
  assert (Hhd : forall e s,
            st_fs s !! ed = None ->
            st_fs s !! tb = None \/ (exists data, st_fs s !! tb = Some (File data)) ->
            res (hd e s) = Throw e /\ scratch_gone ps (st_fs (final (hd e s)))).
  { intros e s Hes Hts. unfold hd, existsSync. run. rewrite (lookup_node_ne _ _ Htn).
    destruct Hts as [Hts|[data Hts]]; rewrite Hts; run; [by repeat split|].
    destruct (unlinkSync_file h tb s data) as [Hr Hf]; [by apply Hdel | done | done |].
    rewrite Hr, Hf. run. rewrite Hr. run.
    split; [done|]. split; [apply lookup_delete_eq|].
    fold ed. by rewrite lookup_delete_ne. }
  assert (Htail : forall s,
            st_fs s !! tb = None -> st_fs s !! ed = None ->
            st_fs (final (tail s)) !! ed = None
            /\ match res (tail s) with
               | Ok _ => exists data, st_fs (final (tail s)) !! tb = Some (File data)
               | Throw _ => st_fs (final (tail s)) !! tb = None
                            \/ exists data, st_fs (final (tail s)) !! tb = Some (File data)
               end).
  { intros s Hts Hes. unfold tail. run.
    destruct (h_tarball h url) as [r|c t| |data complete]; run; auto.
    unfold writeStream, fs_call. destruct (h_refuses h OpWriteStream tb); run; auto.
    unfold write_file.
    destruct (lookup_node (st_fs s) (dirname tb)) as [[]|]; run; auto.
    rewrite (lookup_node_ne _ _ Htn), Hts. run.
    destruct complete; run; rewrite lookup_insert_eq, lookup_insert_ne by done; eauto. }
  unfold downloadTarball. cbv zeta. fold tb. fold mk. fold tail. fold hd.
  rewrite (run_bind_ok (log_debug _) _ st tt eq_refl).
  change (final (log_debug (MDownloading url tb) st)) with st.
  cbn [res final events]. rewrite run_try_catch.
  destruct Hmk as [Hmt Hme].
  destruct (res (mk st)) as [[]|e] eqn:Hrm.
  - rewrite (run_bind_ok _ _ _ _ Hrm). cbn [res final events].
    destruct (Htail (final (mk st)) Hmt Hme) as [Hte' Hcase].
    destruct (res (tail (final (mk st)))) as [[]|e] eqn:Hrt.
    + right. auto.
    + destruct (Hhd e (final (tail (final (mk st)))) Hte' Hcase) as [Hrh Hgone].
      cbn [res final events]. rewrite Hrh. left. eauto.
  - rewrite (run_bind_throw _ _ _ _ Hrm). cbn [res final events].
    destruct (Hhd e (final (mk st)) Hme (or_introl Hmt)) as [Hrh Hgone].
    rewrite Hrh. left. eauto.
Qed.

#[global] Instance keeps_scratch_ok_rel ps : ActionRel (keeps_scratch_ok ps).
Proof.
  split; unfold keeps_scratch_ok; [done|]. intros s1 e1 s2 e2 s3 H1 H2 Hok. auto.
Qed.

#[global] Instance keeps_scratch_ok_still ps : Still (keeps_scratch_ok ps).
Proof. by intros st evs Hok. Qed.

Section ScratchOk.
Context (h : host) (ps : UpdatePaths) (Hsib : siblings ps).

Lemma ok_of_keeps {A} (K : path -> Prop) (m : M A) :
  K (tarballPath ps) -> K (extractDir ps) ->
  sat (keeps K) m -> sat (keeps_scratch_ok ps) m.
Proof.
  intros Ht He Hk st [Hot Hoe].
  split; [rewrite (Hk st _ Ht) | rewrite (Hk st _ He)]; done.
Qed.

Lemma ok_mkdir_extractDir : sat (keeps_scratch_ok ps) (mkdirSync h (extractDir ps)).
Proof.
  destruct (siblings_facts ps Hsib) as (_ & _ & _ & Hnte & _).
  apply still_fs_call; [tc_solve|]. intros st evs [Hot Hoe]. simpl. split.
  - by rewrite mkdir_p_frame.
  - destruct (mkdir_p_lookup [] (extractDir ps) (st_fs st) (extractDir ps))
      as [->|(_ & -> & _)]; auto.
Qed.

Lemma ok_unlink_tarballPath : sat (keeps_scratch_ok ps) (unlinkSync h (tarballPath ps)).
Proof.
  destruct (siblings_facts ps Hsib) as (Htn & _ & Hte & _).
  apply still_fs_call; [tc_solve|]. intros st evs [Hot Hoe]. simpl. split.
  - unfold unlink. rewrite (lookup_node_ne _ _ Htn).
    destruct (st_fs st !! tarballPath ps) as [[]|] eqn:E; simpl; rewrite ?E; auto.
    left. apply lookup_delete_eq.
  - by rewrite unlink_frame.
Qed.

Lemma ok_tar_extract :
  sat (keeps_scratch_ok ps) (tar_extract h (tarballPath ps) (extractDir ps)).
Proof.
  destruct (siblings_facts ps Hsib) as (_ & _ & _ & _ & Hnet & _).
  apply (ok_of_keeps (fun q => q = tarballPath ps \/ q = extractDir ps)); auto.
  apply keeps_tar_extract. intros q [->| ->] [Hp Hne]; done.
Qed.

Lemma ok_extractTarball :
  sat (keeps_scratch_ok ps) (extractTarball h (tarballPath ps) (extractDir ps) false).
Proof.
  unfold extractTarball. sat_still; [apply ok_mkdir_extractDir | apply ok_tar_extract].
Qed.

Lemma ok_backupFiles opts files d :
  installDir opts = Some d -> install_apart opts files ps ->
  sat (keeps_scratch_ok ps) (backupFiles h files d false).
Proof.
  intros Hd Hap.
  apply (ok_of_keeps (fun q => q = tarballPath ps \/ q = extractDir ps)); auto.
  apply keeps_backupFiles. intros q f Hq Hf. by apply (Hap d f q).
Qed.

Lemma ok_copyUpdatedFiles opts files dir d :
  installDir opts = Some d -> install_apart opts files ps ->
  sat (keeps_scratch_ok ps) (copyUpdatedFiles h files dir d false).
Proof.
  intros Hd Hap.
  apply (ok_of_keeps (fun q => q = tarballPath ps \/ q = extractDir ps)); auto.
  apply keeps_copyUpdatedFiles. intros q f Hq Hf. by apply (Hap d f q).
Qed.

Lemma ok_displayUpdateNotification version packageName reinstall changelog dry cb :
  sat (keeps_scratch_ok ps)
    (displayUpdateNotification version packageName reinstall changelog dry cb).
Proof. unfold displayUpdateNotification. sat_still. Qed.
End ScratchOk.

(** ** The update attempt *)

Lemma applyUpdate_run `{Semver} h opts versionInfo st :
  applyUpdate h opts versionInfo st =
  let ps := createTempPaths h (name opts) (vi_version versionInfo) in
  let o1 := try_catch (updateSteps h opts versionInfo ps)
              (fun error => log_warn (MErrorUpdateProcess error))
              (set_cleanup st {| tempFilesCreated := tempFilesCreated (st_cleanup st);
                                 paths := Some ps |}) in
  let o2 := innerFinally h opts (final o1) in
  Out (EvLog Debug (MCreatedTempPaths ps) :: events o1 ++ events o2) (final o2) (Ok tt).
Proof.
  pose proof (total_unit _ st (total_applyUpdate h opts versionInfo)) as Hres.
  revert Hres. unfold applyUpdate. cbv zeta. rewrite !run_bind; simpl.
  intros ->. reflexivity.
Qed.

(** A download, the mark that temporary files exist, and the rest of the
    attempt under the handler that warns: what the three leave behind,
    from what each of them does on its own. *)
Lemma marked_steps_scratch ps (download rest : M unit) st :
  st_cleanup (final (download st)) = st_cleanup st ->
  ((exists e, res (download st) = Throw e)
     /\ scratch_gone ps (st_fs (final (download st)))
   \/ res (download st) = Ok tt
      /\ (exists data, st_fs (final (download st)) !! tarballPath ps = Some (File data))
      /\ st_fs (final (download st)) !! extractDir ps = None) ->
  sat (keeps_scratch_ok ps) rest -> sat keeps_cleanup rest ->
  let mark := modify (fun st0 => set_cleanup st0
                {| tempFilesCreated := true; paths := paths (st_cleanup st0) |}) in
  let o := try_catch (download ;; mark ;; rest)
             (fun error => log_warn (MErrorUpdateProcess error)) st in
  paths (st_cleanup (final o)) = paths (st_cleanup st)
  /\ (tempFilesCreated (st_cleanup (final o)) = tempFilesCreated (st_cleanup st)
      /\ scratch_gone ps (st_fs (final o))
      \/ tempFilesCreated (st_cleanup (final o)) = true
         /\ scratch_ok ps (st_fs (final o))).
Proof.
  intros Hcl Hcase Hrest_ok Hrest_cl mark. cbv zeta.
  rewrite run_try_catch.
  destruct Hcase as [[[e Hr] Hg]|(Hr & [data Ht] & He)].
  - rewrite (run_bind_throw _ _ _ _ Hr). unfold log_warn, emit.
    cbn [res final events]. rewrite Hcl. auto.
  - rewrite (run_bind_ok _ _ _ _ Hr). cbn [res final events].
    rewrite (run_bind_ok mark _ _ tt eq_refl). cbn [res final events].
    set (s2 := final (mark (final (download st)))).
    assert (Hs2 : st_cleanup s2 = {| tempFilesCreated := true;
                                     paths := paths (st_cleanup st) |}).
    { unfold s2, mark, modify. cbn [final st_cleanup set_cleanup]. by rewrite Hcl. }
    assert (Hok2 : scratch_ok ps (st_fs s2)).
    { unfold s2, mark, modify. cbn [final st_fs set_cleanup].
      split; [right; eauto | by left]. }
    specialize (Hrest_ok s2 Hok2). specialize (Hrest_cl s2).
    unfold keeps_cleanup in Hrest_cl.
    destruct (res (rest s2)) as [[]|e]; unfold log_warn, emit;
      cbn [res final events]; rewrite Hrest_cl, Hs2; cbn [paths tempFilesCreated];
      auto.
Qed.

(** The attempt itself, not in a dry run, from a state without the scratch
    paths: it never throws past its handler; either the download failed
    and neither path is there, or [tempFilesCreated] is set and the paths
    hold at most the archive file and the extraction directory. *)
Lemma updateSteps_scratch `{Semver} h opts versionInfo ps st :
  the_dryRun opts = false -> siblings ps -> deletable h (tarballPath ps) ->
  install_apart opts (files (vi_upgear versionInfo)) ps ->
  scratch_gone ps (st_fs st) ->
  let o := try_catch (updateSteps h opts versionInfo ps)
             (fun error => log_warn (MErrorUpdateProcess error)) st in
  paths (st_cleanup (final o)) = paths (st_cleanup st)
  /\ (tempFilesCreated (st_cleanup (final o)) = tempFilesCreated (st_cleanup st)
      /\ scratch_gone ps (st_fs (final o))
      \/ tempFilesCreated (st_cleanup (final o)) = true
         /\ scratch_ok ps (st_fs (final o))).
Proof.
  intros Hdry Hsib Hdel Hap Hgone.
  destruct (downloadTarball_scratch h (vi_tarballUrl versionInfo) ps st Hsib Hdel Hgone)
    as [Hcl Hcase].
  unfold updateSteps. rewrite Hdry. cbv zeta. simpl negb. cbv iota.
  apply marked_steps_scratch; [exact Hcl | exact Hcase | |].
  - destruct (installDir opts) as [[|c d]|] eqn:Hd; sat_still;
      first [ by apply ok_extractTarball | by apply ok_unlink_tarballPath
            | by eapply ok_backupFiles | by eapply ok_copyUpdatedFiles
            | by apply ok_displayUpdateNotification ].
  - unfold unlinkSync. sat_still;
      first [ apply only_fs_extractTarball | apply only_fs_call
            | apply only_fs_backupFiles | apply only_fs_copyUpdatedFiles
            | apply only_fs_displayUpdateNotification ]; tc_solve.
Qed.

Lemma innerFinally_fresh h opts st :
  tempFilesCreated (st_cleanup st) = false ->
  innerFinally h opts st = Out [] st (Ok tt).
Proof.
  intros Hc. unfold innerFinally.
  rewrite (run_bind_ok get_state _ st st eq_refl).
  change (final (get_state st)) with st. cbv zeta. by rewrite Hc.
Qed.

Lemma innerFinally_cleans h opts st ps :
  tempFilesCreated (st_cleanup st) = true -> paths (st_cleanup st) = Some ps ->
  innerFinally h opts st =
  (cleanupTemporaryFiles h (Some ps) (the_dryRun opts) ;;
   modify (fun st => set_cleanup st fresh_cleanup)) st.
Proof.
  intros Hc Hp. unfold innerFinally.
  rewrite (run_bind_ok get_state _ st st eq_refl).
  change (final (get_state st)) with st. cbv zeta. rewrite Hc, Hp.
  change (events (get_state st)) with (@nil event).
  rewrite app_nil_l. apply outcome_eta.
Qed.

(** After the attempt and the inner [finally], neither scratch path is
    there and [tempFilesCreated] is as it was before. *)
Lemma applyUpdate_scratch `{Semver} h opts versionInfo st :
  let ps := createTempPaths h (name opts) (vi_version versionInfo) in
  the_dryRun opts = false ->
  deletable h (tarballPath ps) -> deletable h (extractDir ps) ->
  install_apart opts (files (vi_upgear versionInfo)) ps ->
  tempFilesCreated (st_cleanup st) = false ->
  scratch_gone ps (st_fs st) ->
  scratch_gone ps (st_fs (final (applyUpdate h opts versionInfo st)))
  /\ tempFilesCreated (st_cleanup (final (applyUpdate h opts versionInfo st))) = false.
Proof.
  intros ps Hdry Hdt Hde Hap Hflag Hgone.
  pose proof (createTempPaths_siblings h (name opts) (vi_version versionInfo)) as Hsib.
  fold ps in Hsib.
  rewrite applyUpdate_run. fold ps. cbv zeta. cbn [final].
  set (st2 := set_cleanup st {| tempFilesCreated := tempFilesCreated (st_cleanup st);
                                paths := Some ps |}).
  destruct (updateSteps_scratch h opts versionInfo ps st2 Hdry Hsib Hdt Hap Hgone)
    as [Hp Hcase].
  set (o1 := try_catch (updateSteps h opts versionInfo ps)
               (fun error => log_warn (MErrorUpdateProcess error)) st2) in *.
  change (paths (st_cleanup st2)) with (Some ps) in Hp.
  change (tempFilesCreated (st_cleanup st2)) with (tempFilesCreated (st_cleanup st))
    in Hcase.
  destruct Hcase as [[Hf Hg]|[Hf Hok]].
  - rewrite innerFinally_fresh by (by rewrite Hf). cbn [final]. split; [done|].
    by rewrite Hf.
  - rewrite (innerFinally_cleans _ _ _ ps Hf Hp), Hdry.
    rewrite (run_bind_ok _ _ _ _
               (total_unit _ (final o1) (total_cleanupTemporaryFiles h (Some ps) false))).
    cbn [final modify st_fs st_cleanup set_cleanup tempFilesCreated fresh_cleanup].
    split; [|done]. by apply cleanupTemporaryFiles_removes.
Qed.

Lemma extractVersionInfo_found metadata version versionInfo st :
  policy metadata version = Some versionInfo ->
  events (extractVersionInfo metadata version st)
  = [EvLog Debug (MExtractedInfo version (vi_tarballUrl versionInfo))].
Proof.
  unfold policy, extractVersionInfo. rewrite run_try_catch.
  destruct (versions metadata) as [vs|]; [|done].
  destruct (vs !! version) as [vd|]; [|done].
  destruct (vd_dist vd) as [[[|c rest]|]|]; try done.
  destruct (vd_upgear vd) as [upgear|]; [|done].
  by intros [= <-].
Qed.

(** A run that reaches an update to apply is a prelude of gate, request
    and logger events followed by the update attempt. *)
Lemma checkAndUpdate_applies `{Semver} h opts st versionInfo :
  applicable_update h opts st = Some versionInfo ->
  exists pre st1,
    st_fs st1 = st_fs st /\ st_cleanup st1 = fresh_cleanup
    /\ (the_dryRun opts = true -> st_store st1 = st_store st)
    /\ Forall (fun e => is_prelude_event e = true) pre
    /\ checkAndUpdate h opts st =
       let oa := applyUpdate h opts versionInfo st1 in
       let o2 := outerFinally h opts (final oa) in
       Out (pre ++ events oa ++ events o2) (final o2) (Ok tt).
Proof.
  unfold applicable_update. intros Happ.
  destruct (ci_skips h opts) eqn:Hci; [done|].
  destruct (interval_skips h opts st) eqn:Hgate; [done|]. simpl in Happ.
  destruct (resolved_latest h opts) as [[metadata latest]|] eqn:Hl; [|done].
  destruct (update_needed (version opts) latest) eqn:Hu; [|done].
  destruct (policy metadata latest) as [vi|] eqn:Hpol; [|done].
  destruct (needReinstall (vi_upgear vi)) eqn:Hre; [done|].
  injection Happ as ->.
  destruct (checkAndUpdate_reach h opts st _ _ Hci Hgate Hl)
    as (pre & st1 & Hfs & Hcl & Hst & Hpre & _ & ->).
  rewrite Hu. cbv zeta.
  destruct (extractVersionInfo_spec metadata latest st1) as [Hxr Hxf].
  rewrite Hpol in Hxr.
  exists (pre ++ EvLog Debug (MUpdateAvailable (name opts) (version opts) latest)
              :: EvLog Debug (MExtractedInfo latest (vi_tarballUrl versionInfo))
              :: [EvLog Debug (MUpgearConfig (vi_upgear versionInfo))]), st1.
  split; [done|]. split; [done|]. split; [done|]. split.
  { apply Forall_app_2.
    - eapply Forall_impl; [exact Hpre|]. intros e He. unfold is_prelude_event.
      by rewrite He.
    - by repeat constructor. }
  unfold afterDecision.
  rewrite (try_catch_bind_ok (log_debug _) _ _ st1 tt eq_refl).
  change (final (log_debug (MUpdateAvailable (name opts) (version opts) latest) st1))
    with st1.
  cbv zeta. rewrite (try_catch_bind_ok _ _ _ _ _ Hxr). rewrite Hxf.
  rewrite (extractVersionInfo_found _ _ _ _ Hpol).
  cbv zeta. rewrite (try_catch_bind_ok (log_debug _) _ _ st1 tt eq_refl).
  change (final (log_debug (MUpgearConfig (vi_upgear versionInfo)) st1)) with st1.
  rewrite Hre. cbv zeta.
  rewrite (try_catch_total _ _ _ tt (total_unit _ st1 (total_applyUpdate h opts versionInfo))).
  cbn [events final res log_debug emit]. rewrite <- !app_assoc. reflexivity.
Qed.

(** C2, amended: a run that is not a dry run and reaches an update to
    apply leaves neither the scratch archive nor the scratch extraction
    directory behind, whether the download, the extraction, the backup,
    the replace or the notification failed or all went well, under three
    provisos: neither scratch path is there when the run starts
    ([scratch_gone]); the file system refuses no [unlink] and no [rmdir] at
    or below the scratch paths ([deletable]); and no path that the backup
    or the replace step writes, [<installDir>/<file>] and its backup for
    every file of the policy, is at, above or below a scratch path
    ([install_apart]). *)
Theorem scratch_paths_removed `{Semver} h opts st versionInfo :
  the_dryRun opts = false ->
  applicable_update h opts st = Some versionInfo ->
  let ps := createTempPaths h (name opts) (vi_version versionInfo) in
  scratch_gone ps (st_fs st) ->
  deletable h (tarballPath ps) -> deletable h (extractDir ps) ->
  install_apart opts (files (vi_upgear versionInfo)) ps ->
  scratch_gone ps (st_fs (final (checkAndUpdate h opts st))).
Proof.
  intros Hdry Happ ps Hgone Hdt Hde Hap.
  destruct (checkAndUpdate_applies h opts st versionInfo Happ)
    as (pre & st1 & Hfs & Hcl & _ & _ & ->).
  cbv zeta. cbn [final].
  destruct (applyUpdate_scratch h opts versionInfo st1 Hdry Hdt Hde Hap) as [Hg Hflag].
  - by rewrite Hcl.
  - by rewrite Hfs.
  - by rewrite outerFinally_fresh.
Qed.

Lemma scratch_paths_removed_witness :
  let SV := NodeSemver.instance in
  let ps := createTempPaths ex_host (name ex_options) (vi_version ex_versionInfo) in
  In (EvFs OpWriteStream (tarballPath ps) true)
     (events (checkAndUpdate ex_host ex_options ex_state))
  /\ scratch_gone ps (st_fs (final (checkAndUpdate ex_host ex_options ex_state))).
Proof.
  intros SV ps. split; [vm_compute; tauto|].
  apply (scratch_paths_removed ex_host ex_options ex_state ex_versionInfo).
  - reflexivity.
  - vm_compute. reflexivity.
  - vm_compute. tauto.
  - intros q _. split; reflexivity.
  - intros q _. split; reflexivity.
  - intros d f s [= <-] Hin Hs.
    assert (Hdec : forall a b : path, bool_decide (comparable a b) = false -> ~ comparable a b).
    { intros a b Hb Hc. apply bool_decide_eq_false in Hb. by apply Hb. }
    change (files (vi_upgear ex_versionInfo))
      with ["dist"; "package.json"; "dist"; "package.json"] in Hin.
    destruct Hs as [-> | ->];
      repeat (apply elem_of_cons in Hin as [->|Hin]);
      try (by apply elem_of_nil in Hin);
      split; apply Hdec; vm_compute; reflexivity.
Defined.

(** ** A run without an installation directory *)

#[global] Instance cleanup_grows_rel : ActionRel cleanup_grows.
Proof.
  split; unfold cleanup_grows.
  - auto.
  - intros s1 e1 s2 e2 s3 [Hp1 Hf1] [Hp2 Hf2]. split; [congruence|].
    destruct Hf2 as [Hf2|Hf2]; [rewrite Hf2; exact Hf1 | by right].
Qed.

#[global] Instance cleanup_grows_still : Still cleanup_grows.
Proof. intros st evs. unfold cleanup_grows. auto. Qed.

#[global] Instance cleanup_grows_ignores_fs : IgnoresFs cleanup_grows.
Proof. intros st evs fs. unfold cleanup_grows. simpl. auto. Qed.

Lemma updateSteps_cleanup_grows `{Semver} h opts versionInfo ps :
  sat cleanup_grows
    (try_catch (updateSteps h opts versionInfo ps)
       (fun error => log_warn (MErrorUpdateProcess error))).
Proof.
  unfold updateSteps, unlinkSync. sat_still;
    first [ apply only_fs_downloadTarball | apply only_fs_extractTarball
          | apply only_fs_call | apply only_fs_backupFiles
          | apply only_fs_copyUpdatedFiles | apply only_fs_displayUpdateNotification
          | apply still_modify ]; try tc_solve.
  intros st evs. unfold cleanup_grows. simpl. auto.
Qed.

(** What holds of the attempt and of the cleanup of its scratch paths
    holds of the whole of [applyUpdate]. *)
Lemma applyUpdate_sat `{Semver} R `{!ActionRel R} h opts versionInfo :
  let ps := createTempPaths h (name opts) (vi_version versionInfo) in
  sat R (log_debug (MCreatedTempPaths ps)) ->
  (forall g, sat R (modify (fun st => set_cleanup st (g st)))) ->
  sat R (try_catch (updateSteps h opts versionInfo ps)
           (fun error => log_warn (MErrorUpdateProcess error))) ->
  sat R (cleanupTemporaryFiles h (Some ps) (the_dryRun opts)) ->
  sat R (applyUpdate h opts versionInfo).
Proof.
  intros ps Hlog Hmod Hsteps Hclean st.
  rewrite applyUpdate_run. fold ps. cbv zeta. cbn [events final].
  set (st2 := set_cleanup st {| tempFilesCreated := tempFilesCreated (st_cleanup st);
                                paths := Some ps |}).
  set (o1 := try_catch (updateSteps h opts versionInfo ps)
               (fun error => log_warn (MErrorUpdateProcess error)) st2).
  destruct (updateSteps_cleanup_grows h opts versionInfo ps st2) as [Hp _].
  fold o1 in Hp. change (paths (st_cleanup st2)) with (Some ps) in Hp.
  change (EvLog Debug (MCreatedTempPaths ps)
            :: events o1 ++ events (innerFinally h opts (final o1)))
    with ([EvLog Debug (MCreatedTempPaths ps)]
            ++ events o1 ++ events (innerFinally h opts (final o1))).
  apply (ar_trans st _ st); [apply (Hlog st)|].
  replace (events o1 ++ events (innerFinally h opts (final o1)))
    with ([] ++ events o1 ++ events (innerFinally h opts (final o1))) by done.
  apply (ar_trans st _ st2);
    [apply (Hmod (fun st => {| tempFilesCreated := tempFilesCreated (st_cleanup st);
                               paths := Some ps |}) st)|].
  apply (ar_trans st2 _ (final o1)); [apply (Hsteps st2)|].
  destruct (tempFilesCreated (st_cleanup (final o1))) eqn:Hf.
  - rewrite (innerFinally_cleans _ _ _ ps Hf Hp).
    apply (sat_bind R); [exact Hclean|]. intros _. apply Hmod.
  - rewrite (innerFinally_fresh _ _ _ Hf). apply ar_refl.
Qed.

(** After [applyUpdate], [tempFilesCreated] is not set any more. *)
Lemma applyUpdate_resets `{Semver} h opts versionInfo st :
  tempFilesCreated (st_cleanup (final (applyUpdate h opts versionInfo st))) = false.
Proof.
  rewrite applyUpdate_run. cbv zeta. cbn [final].
  set (ps := createTempPaths h (name opts) (vi_version versionInfo)).
  set (st2 := set_cleanup st {| tempFilesCreated := tempFilesCreated (st_cleanup st);
                                paths := Some ps |}).
  set (o1 := try_catch (updateSteps h opts versionInfo ps)
               (fun error => log_warn (MErrorUpdateProcess error)) st2).
  destruct (updateSteps_cleanup_grows h opts versionInfo ps st2) as [Hp _].
  fold o1 in Hp. change (paths (st_cleanup st2)) with (Some ps) in Hp.
  destruct (tempFilesCreated (st_cleanup (final o1))) eqn:Hf.
  - rewrite (innerFinally_cleans _ _ _ ps Hf Hp).
    rewrite (run_bind_ok _ _ _ _
               (total_unit _ (final o1)
                  (total_cleanupTemporaryFiles h (Some ps) (the_dryRun opts)))).
    reflexivity.
  - by rewrite (innerFinally_fresh _ _ _ Hf).
Qed.

Section NoInstall.
Context `{SV : Semver} (h : host) (ps : UpdatePaths).

Lemma scratch_area_tarballPath : scratch_area ps (tarballPath ps).
Proof. by left; left. Qed.

Lemma scratch_area_dirname : scratch_area ps (dirname (tarballPath ps)).
Proof. left; right. apply removelast_prefix. Qed.

Lemma scratch_area_below q : extractDir ps `prefix_of` q -> scratch_area ps q.
Proof. intros Hq. by right; left. Qed.

Lemma scratch_area_above q : q `prefix_of` extractDir ps -> scratch_area ps q.
Proof. intros Hq. by right; right. Qed.

Local Ltac spared :=
  first [ by left | by right
        | right; apply scratch_area_tarballPath
        | right; apply scratch_area_dirname
        | right; by apply scratch_area_below
        | right; by apply scratch_area_above ].

Lemma spared_downloadTarball url dry :
  sat (events_in (spares_installation ps)) (downloadTarball h url (tarballPath ps) dry).
Proof.
  unfold downloadTarball, mkdirSync, unlinkSync, writeStream. sat_events; spared.
Qed.

Lemma spared_extractTarball dry :
  sat (events_in (spares_installation ps))
    (extractTarball h (tarballPath ps) (extractDir ps) dry).
Proof. unfold extractTarball, mkdirSync. sat_events; spared. Qed.

Lemma spared_cleanupTemporaryFiles dry :
  sat (events_in (spares_installation ps)) (cleanupTemporaryFiles h (Some ps) dry).
Proof.
  unfold cleanupTemporaryFiles, unlinkSync. sat_events; try spared.
  apply events_deleteDirRecursive. intros op q ok Hq. spared.
Qed.

Lemma spared_updateSteps opts versionInfo :
  installDir opts = None ->
  sat (events_in (spares_installation ps))
    (try_catch (updateSteps h opts versionInfo ps)
       (fun error => log_warn (MErrorUpdateProcess error))).
Proof.
  intros Hd. unfold updateSteps, unlinkSync. rewrite Hd.
  sat_events;
    first [ apply spared_downloadTarball | apply spared_extractTarball | spared ].
Qed.

(** The nodes outside the scratch area stay as they are. *)
Lemma outside_downloadTarball url dry :
  sat (keeps (fun q => ~ scratch_area ps q)) (downloadTarball h url (tarballPath ps) dry).
Proof.
  unfold downloadTarball. sat_still;
    first [ apply keeps_mkdirSync | apply keeps_unlinkSync | apply keeps_writeStream ];
    intros q Hq Hc; apply Hq.
  - left; right. etrans; [exact Hc | apply removelast_prefix].
  - subst q. apply scratch_area_tarballPath.
  - subst q. apply scratch_area_tarballPath.
Qed.

Lemma outside_extractTarball dry :
  sat (keeps (fun q => ~ scratch_area ps q))
    (extractTarball h (tarballPath ps) (extractDir ps) dry).
Proof.
  unfold extractTarball. sat_still;
    first [ apply keeps_mkdirSync | apply keeps_tar_extract ];
    intros q Hq Hc; apply Hq.
  - by apply scratch_area_above.
  - apply scratch_area_below. apply Hc.
Qed.

Lemma outside_cleanupTemporaryFiles dry :
  sat (keeps (fun q => ~ scratch_area ps q)) (cleanupTemporaryFiles h (Some ps) dry).
Proof.
  unfold cleanupTemporaryFiles. sat_still;
    first [ apply keeps_unlinkSync | apply keeps_deleteDirRecursive ];
    intros q Hq Hc; apply Hq.
  - subst q. apply scratch_area_tarballPath.
  - by apply scratch_area_below.
Qed.

Lemma outside_updateSteps opts versionInfo :
  installDir opts = None ->
  sat (keeps (fun q => ~ scratch_area ps q))
    (try_catch (updateSteps h opts versionInfo ps)
       (fun error => log_warn (MErrorUpdateProcess error))).
Proof.
  intros Hd. unfold updateSteps. rewrite Hd.
  sat_still;
    first [ apply outside_downloadTarball | apply outside_extractTarball
          | apply keeps_unlinkSync | apply still_modify ].
  - intros st evs q Hq. reflexivity.
  - intros q Hq ->. apply Hq, scratch_area_tarballPath.
Qed.
End NoInstall.

Lemma throws_throw {A} e : throws (throw e : M A).
Proof. intros st. by exists e. Qed.

Lemma throws_bind_r {A B} (m : M A) (k : A -> M B) :
  (forall a, throws (k a)) -> throws (m ≫= k).
Proof.
  intros Hk st. rewrite run_bind. destruct (res (m st)) as [a|e]; [apply Hk|by exists e].
Qed.

(** Without an installation directory the attempt never gets to its end:
    the handler of the update process is entered and logs its warning. *)
Lemma updateSteps_throws `{Semver} h opts versionInfo ps :
  installDir opts = None -> throws (updateSteps h opts versionInfo ps).
Proof.
  intros Hd. unfold updateSteps. rewrite Hd.
  repeat (apply throws_bind_r; intros ?). apply throws_throw.
Qed.

(** C6, amended: when [installDir] is absent and there is an update to
    apply, the run returns normally, the handler of the update attempt
    logs its warning, and nothing of the backup, of the replace step or of
    the notification happens: every file-system call is in the scratch
    area, and every node outside it is at the end what it was at the
    start.  The timestamp write, the download and the extraction come
    before the assertion on [installDir]. *)
Theorem missing_install_dir_spares_installation `{Semver} h opts st versionInfo :
  installDir opts = None ->
  applicable_update h opts st = Some versionInfo ->
  let ps := createTempPaths h (name opts) (vi_version versionInfo) in
  let o := checkAndUpdate h opts st in
  res o = Ok tt
  /\ (exists e, EvLog Warn (MErrorUpdateProcess e) ∈ events o)
  /\ Forall (spares_installation ps) (events o)
  /\ (forall p, ~ scratch_area ps p -> st_fs (final o) !! p = st_fs st !! p).
Proof.
  intros Hd Happ ps.
  destruct (checkAndUpdate_applies h opts st versionInfo Happ)
    as (pre & st1 & Hfs & _ & _ & Hpre & ->).
  cbv zeta. rewrite (outerFinally_fresh _ _ _ (applyUpdate_resets h opts versionInfo st1)).
  cbn [res events final]. rewrite app_nil_r.
  split; [done|]. split; [|split].
  - destruct (updateSteps_throws h opts versionInfo ps Hd
                (set_cleanup st1 {| tempFilesCreated := tempFilesCreated (st_cleanup st1);
                                     paths := Some ps |})) as [e He].
    exists e. apply elem_of_app; right.
    rewrite applyUpdate_run. fold ps. cbv zeta. cbn [events].
    apply elem_of_cons; right. apply elem_of_app; left.
    rewrite run_try_catch, He. cbn [events log_warn emit].
    apply elem_of_app; right. apply elem_of_cons; by left.
  - apply Forall_app_2.
    + eapply Forall_impl; [exact Hpre|]. intros e He. by left.
    + apply (applyUpdate_sat (events_in (spares_installation ps)) h opts versionInfo).
      * apply events_log_debug. by right.
      * intros g. apply events_modify.
      * by apply spared_updateSteps.
      * apply spared_cleanupTemporaryFiles.
  - intros p Hp. rewrite <- Hfs.
    apply (applyUpdate_sat (keeps (fun q => ~ scratch_area ps q)) h opts versionInfo);
      [| | | |exact Hp].
    + apply still_emit. tc_solve.
    + intros g. apply still_modify. intros s evs q Hq. reflexivity.
    + by apply outside_updateSteps.
    + apply outside_cleanupTemporaryFiles.
Qed.

Lemma missing_install_dir_spares_installation_witness :
  let opts := ex_options_with "1.0.0" None None in
  let ps := createTempPaths ex_host (name opts) (vi_version ex_versionInfo) in
  let o := @checkAndUpdate NodeSemver.instance ex_host opts ex_state in
  res o = Ok tt
  /\ (exists e, EvLog Warn (MErrorUpdateProcess e) ∈ events o)
  /\ Forall (spares_installation ps) (events o)
  /\ (forall p, ~ scratch_area ps p -> st_fs (final o) !! p = st_fs ex_state !! p).
Proof.
  intros opts.
  apply (@missing_install_dir_spares_installation NodeSemver.instance
           ex_host opts ex_state ex_versionInfo).
  - reflexivity.
  - vm_compute. reflexivity.
Defined.

(** C6 as stated fails on the scenario without [installDir]: the
    timestamp file, the archive and the extracted tree are written before
    the assertion on [installDir] fails. *)
Lemma missing_install_dir_counterexample :
  ~ @missing_install_dir_as_stated NodeSemver.instance
      ex_host (ex_options_with "1.0.0" None None) ex_state.
Proof.
  intros Hc.
  assert (Happ : is_Some (@applicable_update NodeSemver.instance ex_host
                            (ex_options_with "1.0.0" None None) ex_state)).
  { exists ex_versionInfo. vm_compute. reflexivity. }
  specialize (Hc eq_refl Happ). vm_compute in Hc. discriminate Hc.
Qed.

(** ** Dry runs *)

#[global] Instance keeps_files_rel : ActionRel keeps_files.
Proof.
  split; unfold keeps_files; [done|].
  intros s1 e1 s2 e2 s3 [H1 H1'] [H2 H2']. split; congruence.
Qed.

#[global] Instance keeps_files_still : Still keeps_files.
Proof. by intros st evs. Qed.

#[global] Instance same_state_rel : ActionRel same_state.
Proof. split; unfold same_state; [done | intros; congruence]. Qed.

#[global] Instance same_state_still : Still same_state.
Proof. by intros st evs. Qed.

(** In a dry run the stages only call the logger. *)
Section DryStages.
Context (R : state -> list event -> state -> Prop) `{!ActionRel R, !Still R}.
Context (h : host).

Lemma dry_downloadTarball url target : sat R (downloadTarball h url target true).
Proof. unfold downloadTarball. apply still_emit; tc_solve. Qed.

Lemma dry_extractTarball tarball dir : sat R (extractTarball h tarball dir true).
Proof. unfold extractTarball. apply still_emit; tc_solve. Qed.

Lemma dry_backupFiles files installDir : sat R (backupFiles h files installDir true).
Proof. unfold backupFiles, backupOne. cbv iota. sat_still. Qed.

Lemma dry_copyUpdatedFiles files dir installDir :
  sat R (copyUpdatedFiles h files dir installDir true).
Proof. unfold copyUpdatedFiles, sourceBase, copyOne. cbv iota. sat_still. Qed.

Lemma dry_displayUpdateNotification version packageName reinstall changelog cb :
  sat R (displayUpdateNotification version packageName reinstall changelog true cb).
Proof. unfold displayUpdateNotification. apply still_emit; tc_solve. Qed.

Lemma dry_cleanupTemporaryFiles paths : sat R (cleanupTemporaryFiles h paths true).
Proof. unfold cleanupTemporaryFiles. destruct paths; sat_step. Qed.
End DryStages.

Lemma dry_checkAndUpdate_keeps_files `{Semver} h opts :
  the_dryRun opts = true -> sat keeps_files (checkAndUpdate h opts).
Proof.
  intros Hdry.
  unfold checkAndUpdate, checkBody, intervalGate, checkRegistry, afterDecision,
    applyUpdate, updateSteps, innerFinally, outerFinally,
    fetchPackageMetadata, isUpdateNeeded, extractVersionInfo.
  rewrite Hdry. cbn [negb andb]. cbv iota.
  sat_still;
    first [ apply dry_downloadTarball | apply dry_extractTarball
          | apply dry_backupFiles | apply dry_copyUpdatedFiles
          | apply dry_displayUpdateNotification | apply dry_cleanupTemporaryFiles
          | apply still_modify ]; try tc_solve; by intros.
Qed.

Section DryEvents.
Context (h : host).
Let E := fun e => is_effect e = false.

Lemma quiet_backupFiles files installDir :
  sat (events_in E) (backupFiles h files installDir true).
Proof. unfold backupFiles, backupOne. cbv iota. sat_events; reflexivity. Qed.

Lemma quiet_copyUpdatedFiles files dir installDir :
  sat (events_in E) (copyUpdatedFiles h files dir installDir true).
Proof. unfold copyUpdatedFiles, sourceBase, copyOne. cbv iota. sat_events; reflexivity. Qed.
End DryEvents.

Lemma dry_checkAndUpdate_quiet `{Semver} h opts :
  the_dryRun opts = true ->
  sat (events_in (fun e => is_effect e = false)) (checkAndUpdate h opts).
Proof.
  intros Hdry.
  unfold checkAndUpdate, checkBody, intervalGate, checkRegistry, afterDecision,
    applyUpdate, updateSteps, innerFinally, outerFinally,
    fetchPackageMetadata, isUpdateNeeded, extractVersionInfo,
    downloadTarball, extractTarball, displayUpdateNotification, cleanupTemporaryFiles.
  rewrite Hdry. cbn [negb andb]. cbv iota.
  sat_events;
    first [ apply quiet_backupFiles | apply quiet_copyUpdatedFiles | reflexivity ].
Qed.

Lemma prelude_no_copy_outcome e : is_prelude_event e = true -> copy_outcome e = None.
Proof. destruct e as [l m| | | | | |]; try done. destruct l, m; done. Qed.

Lemma copyOne_absent h base installDir filePath st :
  lookup_node (st_fs st) (join base filePath) = None ->
  copyOne h base installDir true filePath st
  = Out [EvLog Warn (MSourceNotFound (join base filePath))] st (Ok tt).
Proof.
  intros Hn. unfold copyOne. cbv zeta.
  rewrite existsSync_spelled_bind, Hn. reflexivity.
Qed.

Lemma for_each_copyOne_absent h base installDir files st :
  Forall (fun f => lookup_node (st_fs st) (join base f) = None) files ->
  for_each files (copyOne h base installDir true) st
  = Out (map (fun f => EvLog Warn (MSourceNotFound (join base f))) files) st (Ok tt).
Proof.
  induction 1 as [|f files Hf _ IH]; [done|].
  cbn [for_each]. rewrite (run_bind (copyOne _ _ _ _ _) _ st).
  rewrite (copyOne_absent _ _ _ _ _ Hf). cbn [res final events].
  rewrite IH. reflexivity.
Qed.

(** The replace step of a dry run when nothing was extracted: the
    existence test comes first, so every declared path ends in the warning
    that its source is missing and none is announced. *)
Lemma dry_copyUpdatedFiles_run h files extractDir installDir st :
  st_fs st !! (extractDir ++ ["package"]) = None ->
  Forall (fun f => lookup_node (st_fs st) (join extractDir f) = None) files ->
  copyUpdatedFiles h files extractDir installDir true st
  = Out (EvLog Debug (MCopyStart (length files))
           :: map (fun f => EvLog Warn (MSourceNotFound (join extractDir f))) files
           ++ [EvLog Debug MCopyDone]) st (Ok tt).
Proof.
  intros Hpkg Habs.
  destruct (copyUpdatedFiles_run h files extractDir installDir true st) as (_ & _ & ->).
  rewrite Hpkg.
  rewrite (run_bind_ok (log_debug _) _ st tt eq_refl).
  change (final (log_debug (MCopyStart (length files)) st)) with st.
  cbv iota. rewrite (run_bind (ret tt) _ st).
  cbn [res final events ret]. rewrite (run_bind (for_each _ _) _ st).
  rewrite (for_each_copyOne_absent _ _ _ _ _ Habs).
  reflexivity.
Qed.

Lemma omap_copy_outcome_absent (base : path) files :
  omap copy_outcome (map (fun f => EvLog Warn (MSourceNotFound (join base f))) files)
  = map (fun f => Absent (join base f)) files.
Proof.
  induction files as [|f files IH]; [done|].
  cbn [map omap list_omap copy_outcome]. by rewrite <- IH.
Qed.

Lemma silent_dry_backupFiles h files installDir :
  sat (events_in (fun e => copy_outcome e = None)) (backupFiles h files installDir true).
Proof. unfold backupFiles, backupOne. cbv iota. sat_events; reflexivity. Qed.

Lemma run_bind_same {A B} (m : M A) (k : A -> M B) st a :
  res (m st) = Ok a -> final (m st) = st ->
  (m ≫= k) st = Out (events (m st) ++ events (k a st)) (final (k a st)) (res (k a st)).
Proof. intros Hr Hf. rewrite (run_bind_ok _ _ _ _ Hr), Hf. reflexivity. Qed.

Lemma copyUpdatedFiles_returns h files extractDir installDir dryRun st :
  res (copyUpdatedFiles h files extractDir installDir dryRun st) = Ok tt.
Proof.
  destruct (copyUpdatedFiles_run h files extractDir installDir dryRun st) as (_ & _ & ->).
  apply total_unit. repeat total_step. apply total_copyOne.
Qed.

(** The attempt of a dry run, with an installation directory: five logger
    calls around the backup and the replace step, and the state is left as
    it was. *)
Lemma dry_updateSteps_run `{Semver} h opts versionInfo ps d st :
  the_dryRun opts = true -> installDir opts = Some d -> d <> "" ->
  let fl := files (vi_upgear versionInfo) in
  updateSteps h opts versionInfo ps st
  = Out (EvLog Info (MDryDownload (vi_tarballUrl versionInfo) (tarballPath ps))
           :: EvLog Info (MDryExtract (tarballPath ps) (extractDir ps))
           :: EvLog Debug (MInstallDir d)
           :: events (backupFiles h fl d true st)
           ++ events (copyUpdatedFiles h fl (extractDir ps) d true st)
           ++ [EvLog Info (MDryNotify (name opts) (vi_version versionInfo));
               EvLog Debug (MUpdateCompleted (vi_version versionInfo))])
        st (Ok tt).
Proof.
  intros Hdry Hd Hne fl. unfold updateSteps. rewrite Hdry, Hd.
  destruct d as [|c d]; [done|]. cbn [negb]. cbv iota zeta. fold fl.
  rewrite (run_bind_same (downloadTarball _ _ _ true) _ st tt eq_refl eq_refl).
  rewrite (run_bind_same (ret tt) _ st tt eq_refl eq_refl).
  rewrite (run_bind_same (extractTarball _ _ _ true) _ st tt eq_refl eq_refl).
  rewrite (run_bind_same (ret tt) _ st tt eq_refl eq_refl).
  rewrite (run_bind_same (log_debug _) _ st tt eq_refl eq_refl).
  rewrite (run_bind_same (backupFiles _ _ _ true) _ st tt
             (total_unit _ st (total_backupFiles h fl _ true))
             (dry_backupFiles same_state h fl _ st)).
  rewrite (run_bind_same (copyUpdatedFiles _ _ _ _ true) _ st tt
             (copyUpdatedFiles_returns h fl _ _ true st)
             (dry_copyUpdatedFiles same_state h fl _ _ st)).
  rewrite (run_bind_same (displayUpdateNotification _ _ _ _ true _) _ st tt
             eq_refl eq_refl).
  cbn [events final res downloadTarball extractTarball displayUpdateNotification
       log_info log_debug emit ret app].
  reflexivity.
Qed.

Lemma omap_cons_None {B} (f : event -> option B) e evs :
  f e = None -> omap f (e :: evs) = omap f evs.
Proof. intros Hf. simpl. by rewrite Hf. Qed.

(** C5: a dry run that reaches an update to apply changes neither the
    file system nor the timestamp store, and makes no mutating file-system
    call, no timestamp write and no archive request.  It does not announce
    the copies it would make: nothing was extracted, the existence test of
    the replace step comes before its dry-run branch, and every declared
    path ends in the warning that its source is missing. *)
Theorem dry_run_reports_sources_missing `{Semver} h opts st versionInfo d :
  the_dryRun opts = true ->
  applicable_update h opts st = Some versionInfo ->
  installDir opts = Some d -> d <> "" ->
  let ps := createTempPaths h (name opts) (vi_version versionInfo) in
  extraction_absent ps (st_fs st) ->
  below_root ps (files (vi_upgear versionInfo)) ->
  let o := checkAndUpdate h opts st in
  st_fs (final o) = st_fs st /\ st_store (final o) = st_store st
  /\ Forall (fun e => is_effect e = false) (events o)
  /\ omap copy_outcome (events o)
     = map (fun f => Absent (join (extractDir ps) f)) (files (vi_upgear versionInfo)).
Proof.
  intros Hdry Happ Hd Hne ps Habs Hbelow o.
  destruct (dry_checkAndUpdate_keeps_files h opts Hdry st) as [Hfs Hstore].
  split; [exact Hfs|]. split; [exact Hstore|].
  split; [apply (dry_checkAndUpdate_quiet h opts Hdry st)|].
  unfold o.
  destruct (checkAndUpdate_applies h opts st versionInfo Happ)
    as (pre & st1 & Hfs1 & Hcl & _ & Hpre & ->).
  cbv zeta. rewrite (outerFinally_fresh _ _ _ (applyUpdate_resets h opts versionInfo st1)).
  cbn [events]. rewrite app_nil_r, applyUpdate_run. fold ps. cbv zeta.
  set (st2 := set_cleanup st1 {| tempFilesCreated := tempFilesCreated (st_cleanup st1);
                                 paths := Some ps |}).
  rewrite run_try_catch, (dry_updateSteps_run h opts versionInfo ps d st2 Hdry Hd Hne).
  cbv zeta. cbn [res final events].
  rewrite innerFinally_fresh by (unfold st2; cbn [st_cleanup set_cleanup tempFilesCreated];
                                 by rewrite Hcl).
  cbn [events]. rewrite app_nil_r.
  assert (Hed : extractDir ps <> []).
  { unfold ps, createTempPaths. cbn [extractDir]. by destruct (h_tmpdir h). }
  assert (Hfs2 : st_fs st2 = st_fs st) by exact Hfs1.
  rewrite dry_copyUpdatedFiles_run.
  - rewrite omap_app.
    rewrite (omap_silent copy_outcome pre)
      by (eapply Forall_impl; [exact Hpre | exact prelude_no_copy_outcome]).
    cbn [app events]. rewrite !(omap_cons_None copy_outcome) by reflexivity.
    rewrite !omap_app.
    rewrite (omap_silent copy_outcome _ (silent_dry_backupFiles h _ d st2)).
    rewrite !(omap_cons_None copy_outcome) by reflexivity.
    rewrite !omap_app, omap_copy_outcome_absent.
    rewrite !(omap_cons_None copy_outcome) by reflexivity.
    cbn [app omap list_omap]. by rewrite !app_nil_r.
  - rewrite Hfs2. apply Habs. by apply prefix_app_r.
  - rewrite Hfs2. eapply Forall_impl; [exact Hbelow|]. intros f Hf. cbv beta in Hf.
    specialize (Habs _ Hf). unfold lookup_node.
    destruct (join (extractDir ps) f) as [|s q] eqn:Hj; [|exact Habs].
    apply prefix_nil_inv in Hf. done.
Qed.

Lemma dry_run_reports_sources_missing_witness :
  let opts := ex_options_with "1.0.0" (Some true) (Some "/opt/cli") in
  let o := @checkAndUpdate NodeSemver.instance ex_host opts ex_state in
  st_fs (final o) = st_fs ex_state /\ st_store (final o) = st_store ex_state
  /\ Forall (fun e => is_effect e = false) (events o)
  /\ omap copy_outcome (events o)
     = [Absent ["tmp"; "my_cli-1.1.0-1700000000000-extract"; "dist"];
        Absent ["tmp"; "my_cli-1.1.0-1700000000000-extract"; "package.json"];
        Absent ["tmp"; "my_cli-1.1.0-1700000000000-extract"; "dist"];
        Absent ["tmp"; "my_cli-1.1.0-1700000000000-extract"; "package.json"]].
Proof.
  intros opts.
  assert (Hps : createTempPaths ex_host (name opts) (vi_version ex_versionInfo)
                = {| tarballPath := ["tmp"; "my_cli-1.1.0-1700000000000.tgz"];
                     extractDir := ["tmp"; "my_cli-1.1.0-1700000000000-extract"] |})
    by (vm_compute; reflexivity).
  apply (@dry_run_reports_sources_missing NodeSemver.instance
           ex_host opts ex_state ex_versionInfo "/opt/cli").
  - reflexivity.
  - vm_compute. reflexivity.
  - reflexivity.
  - discriminate.
  - rewrite Hps. intros q [k ->]. cbn [extractDir app].
    apply not_elem_of_list_to_map_1. cbn [fmap list_fmap fst].
    rewrite !elem_of_cons, elem_of_nil. intros Hin.
    repeat (destruct Hin as [Hin|Hin]; [discriminate Hin|]). exact Hin.
  - rewrite Hps. unfold below_root. cbn [extractDir].
    repeat constructor; apply (bool_decide_unpack _); vm_compute; reflexivity.
Defined.

(** C2 as stated fails in three ways, each with the archive downloaded.
    The file system refuses to remove a directory: [deleteDirRecursive]
    swallows the error and the extraction directory stays.  A file is at the
    extraction path when the run starts and nothing is refused: the
    extraction fails, [deleteDirRecursive] cannot list the file and leaves
    it.  The installation directory is the path of the scratch archive and
    nothing is refused: the replace step makes a directory there, the
    [unlink] of the cleanup fails on it, and the handler of the cleanup
    skips the extraction directory as well. *)
Lemma scratch_paths_counterexample :
  ~ @cleanup_invariant_as_stated NodeSemver.instance
      ex_host_no_rmdir ex_options ex_state
  /\ ~ @cleanup_invariant_as_stated NodeSemver.instance
         ex_host ex_options ex_stale_scratch_state
  /\ ~ @cleanup_invariant_as_stated NodeSemver.instance
         ex_host ex_options_in_scratch ex_state.
Proof.
  split; [|split]; intros Hc.
  - assert (Happ : @applicable_update NodeSemver.instance
                     ex_host_no_rmdir ex_options ex_state = Some ex_versionInfo)
      by (vm_compute; reflexivity).
    specialize (Hc eq_refl ex_versionInfo Happ). cbv zeta in Hc.
    destruct Hc as [_ He].
    + vm_compute. tauto.
    + vm_compute in He. discriminate He.
  - assert (Happ : @applicable_update NodeSemver.instance
                     ex_host ex_options ex_stale_scratch_state = Some ex_versionInfo)
      by (vm_compute; reflexivity).
    specialize (Hc eq_refl ex_versionInfo Happ). cbv zeta in Hc.
    destruct Hc as [_ He].
    + vm_compute. tauto.
    + vm_compute in He. discriminate He.
  - assert (Happ : @applicable_update NodeSemver.instance
                     ex_host ex_options_in_scratch ex_state = Some ex_versionInfo)
      by (vm_compute; reflexivity).
    specialize (Hc eq_refl ex_versionInfo Happ). cbv zeta in Hc.
    destruct Hc as [Ht _].
    + vm_compute. tauto.
    + vm_compute in Ht. discriminate Ht.
Qed.

(** ** Failures and warnings *)

Lemma existsb_app_r {A} (f : A -> bool) l1 l2 :
  existsb f l2 = true -> existsb f (l1 ++ l2) = true.
Proof. intros H. rewrite existsb_app, H. apply orb_true_r. Qed.

Lemma existsb_app_l {A} (f : A -> bool) l1 l2 :
  existsb f l1 = true -> existsb f (l1 ++ l2) = true.
Proof. intros H. by rewrite existsb_app, H. Qed.

Lemma warned_app x l1 l2 :
  warned x l1 = true -> warned x l2 = true -> warned x (l1 ++ l2) = true.
Proof.
  intros H1 H2. induction l1 as [|e l1 IH]; [done|].
  simpl in *. apply andb_true_iff in H1 as [He H1].
  apply andb_true_iff. split; [|by apply IH].
  apply orb_true_iff in He as [He|He]; [by rewrite He|].
  rewrite (existsb_app_l _ _ _ He). apply orb_true_r.
Qed.

Lemma warned_before x l1 l2 :
  existsb is_warning l2 = true -> warned x l2 = true -> warned x (l1 ++ l2) = true.
Proof.
  intros Hw H2. induction l1 as [|e l1 IH]; [done|].
  simpl. apply andb_true_iff. split; [|exact IH].
  rewrite (existsb_app_r _ _ _ Hw). apply orb_true_r.
Qed.

Lemma warned_quiet x l :
  Forall (fun e => is_failure e = false \/ x e = true) l -> warned x l = true.
Proof.
  induction 1 as [|e l He _ IH]; [done|]. simpl. rewrite IH.
  destruct He as [->| ->]; [done|]. by rewrite orb_true_r.
Qed.

Section Tidy.
Context (h : host).

Lemma tidy_quiet {A} (m : M A) :
  sat (events_in (fun e => is_failure e = false \/ is_silent_failure e = true)) m ->
  tidy m.
Proof. intros Hm st a _. apply warned_quiet, Hm. Qed.

Lemma tidy_throws {A} (m : M A) : throws m -> tidy m.
Proof. intros Hm st a Hr. destruct (Hm st) as [e He]. congruence. Qed.

Lemma tidy_bind {A B} (m : M A) (k : A -> M B) :
  tidy m -> (forall a, tidy (k a)) -> tidy (m ≫= k).
Proof.
  intros Hm Hk st b. rewrite run_bind.
  destruct (res (m st)) as [a|e] eqn:Hr; [|done]. cbn [res events]. intros Hb.
  apply warned_app; [by apply (Hm st a) | by apply (Hk a _ b)].
Qed.

Lemma tidy_try_catch {A} (m : M A) (hd : error -> M A) :
  tidy m -> warns hd -> tidy (try_catch m hd).
Proof.
  intros Hm Hh st a. rewrite run_try_catch.
  destruct (res (m st)) as [a'|e] eqn:Hr; [intros _; by apply (Hm st a')|].
  cbn [res events]. intros _. by apply warned_before; apply Hh.
Qed.

Lemma tidy_try_catch_rethrow {A} (m : M A) (hd : error -> M A) :
  tidy m -> (forall e, throws (hd e)) -> tidy (try_catch m hd).
Proof.
  intros Hm Hh st a. rewrite run_try_catch.
  destruct (res (m st)) as [a'|e] eqn:Hr; [intros _; by apply (Hm st a')|].
  cbn [res]. intros Hr'. destruct (Hh e (final (m st))) as [e' He']. congruence.
Qed.

Lemma tidy_try_finally {A} (m : M A) (f : M unit) :
  tidy m -> tidy f -> tidy (try_finally m f).
Proof.
  intros Hm Hf st a. unfold try_finally. cbn [res events].
  destruct (res (f (final (m st)))) as [[]|e] eqn:Hr; [|done]. intros Ha.
  apply warned_app; [by apply (Hm st a) | by apply (Hf _ tt)].
Qed.

Lemma tidy_for_each {A} (xs : list A) (body : A -> M unit) :
  (forall x, tidy (body x)) -> tidy (for_each xs body).
Proof.
  intros Hb. induction xs as [|x xs IH]; [by intros st a _|].
  cbn [for_each]. apply tidy_bind; [apply Hb | intros _; exact IH].
Qed.

Lemma tidy_fs_call op p f : tidy (fs_call h op p f).
Proof.
  intros st a. unfold fs_call. destruct (h_refuses h op p); [done|].
  by destruct (f (st_fs st)) as [fs' [code|]].
Qed.

Lemma tidy_tar_extract file cwd : tidy (tar_extract h file cwd).
Proof.
  intros st a. unfold tar_extract.
  destruct (lookup_node _ _) as [[data|]|]; try done.
  destruct (h_untar h data) as [entries sound]. cbv zeta.
  by destruct (sound && _).
Qed.

Lemma warns_log {A} (w : error -> msg) (k : M A) :
  (forall st, events (k st) = []) ->
  warns (fun e => log_warn (w e) ;; k).
Proof.
  intros Hk e st. rewrite (run_bind_ok (log_warn _) _ st tt eq_refl).
  cbn [events log_warn emit final]. rewrite Hk. done.
Qed.

Lemma warns_log_warn (w : error -> msg) : warns (fun e => log_warn (w e)).
Proof. by intros e st. Qed.
End Tidy.

Ltac tidy_leaf :=
  apply tidy_quiet; sat_events;
  first [ by left | by right
        | match goal with
          | |- context [EvStoreWrite ?b] => destruct b
          end; first [ by left | by right ] ].

Ltac tidy_step :=
  lazymatch goal with
  | |- tidy (_ ≫= _) => apply tidy_bind; [|intros ?]
  | |- tidy (try_catch _ (fun _ => log_warn _)) =>
      apply tidy_try_catch; [|apply warns_log_warn]
  | |- tidy (try_catch _ (fun _ => log_warn _ ≫= _)) =>
      apply tidy_try_catch; [|apply warns_log; done]
  | |- tidy (try_finally _ _) => apply tidy_try_finally
  | |- tidy (for_each _ _) => apply tidy_for_each; intros ?
  | |- tidy (fs_call _ _ _ _) => apply tidy_fs_call
  | |- tidy (tar_extract _ _ _) => apply tidy_tar_extract
  | |- tidy (if ?b then _ else _) => destruct b
  | |- tidy (match ?x with _ => _ end) => destruct x
  | |- tidy _ => tidy_leaf
  end.

Section TidyStages.
Context `{SV : Semver} (h : host).

Lemma quiet_deleteDirRecursive_fuel fuel dirPath :
  sat (events_in (fun e => is_failure e = false \/ is_silent_failure e = true))
    (deleteDirRecursive_fuel h fuel dirPath).
Proof.
  revert dirPath. induction fuel as [|fuel IH]; intros dirPath; simpl; [sat_step|].
  unfold unlinkSync, rmdirSync. sat_events; try apply IH;
    (destruct ok; [by left | by right]).
Qed.

Lemma tidy_deleteDirRecursive dirPath : tidy (deleteDirRecursive h dirPath).
Proof. apply tidy_quiet. intros st. apply quiet_deleteDirRecursive_fuel. Qed.

Lemma tidy_downloadTarball url target dry : tidy (downloadTarball h url target dry).
Proof.
  unfold downloadTarball, mkdirSync, writeStream.
  destruct dry; [tidy_leaf|]. apply tidy_bind; [tidy_leaf|intros _].
  apply tidy_try_catch_rethrow.
  - repeat tidy_step.
  - intros e. apply throws_bind_r. intros _. apply throws_throw.
Qed.

Lemma tidy_extractTarball tarball dir dry : tidy (extractTarball h tarball dir dry).
Proof. unfold extractTarball, mkdirSync. repeat tidy_step. Qed.

Lemma tidy_backupFiles files installDir dry : tidy (backupFiles h files installDir dry).
Proof.
  unfold backupFiles, backupOne, unlinkSync, mkdirSync, cpSync, copyFileSync.
  repeat first [ apply tidy_deleteDirRecursive | tidy_step ].
Qed.

Lemma tidy_copyUpdatedFiles files dir installDir dry :
  tidy (copyUpdatedFiles h files dir installDir dry).
Proof.
  unfold copyUpdatedFiles, sourceBase, copyOne, unlinkSync, mkdirSync, cpSync,
    copyFileSync.
  repeat tidy_step.
Qed.

Lemma tidy_cleanupTemporaryFiles paths dry : tidy (cleanupTemporaryFiles h paths dry).
Proof.
  unfold cleanupTemporaryFiles, unlinkSync.
  repeat first [ apply tidy_deleteDirRecursive | tidy_step ].
Qed.

Lemma tidy_checkAndUpdate opts : tidy (checkAndUpdate h opts).
Proof.
  unfold checkAndUpdate, checkBody, intervalGate, checkRegistry, afterDecision,
    applyUpdate, updateSteps, innerFinally, outerFinally, unlinkSync,
    fetchPackageMetadata, isUpdateNeeded, extractVersionInfo,
    displayUpdateNotification.
  repeat first
    [ apply tidy_downloadTarball | apply tidy_extractTarball
    | apply tidy_backupFiles | apply tidy_copyUpdatedFiles
    | apply tidy_cleanupTemporaryFiles
    | tidy_step ].
Qed.
End TidyStages.

(** ** Every run ends in a conclusion or in a warning *)









Section Settles.
Context `{SV : Semver} (h : host).





End Settles.



(** * Further properties of the code *)

(** X1: [checkAndUpdate] returns normally on every input and in every
    environment: whatever a stage throws is caught by one of the handlers
    of lines 1057-1078, and the two [finally] blocks do not throw. *)
Theorem checkAndUpdate_never_throws `{Semver} h opts st :
  res (checkAndUpdate h opts st) = Ok tt.
Proof. apply total_unit, total_checkAndUpdate. Qed.

(** X2: in every run, each failed file-system call other than a failed
    [unlink] or [rmdir], and other than a failed write of the timestamp
    file, is followed by a call of [logger.warn]. *)
Theorem failures_are_followed_by_warnings `{Semver} h opts st :
  warned is_silent_failure (events (checkAndUpdate h opts st)) = true.
Proof.
  apply (tidy_checkAndUpdate h opts st tt), total_unit, total_checkAndUpdate.
Qed.

#[global] Instance only_removes_rel : ActionRel only_removes.
Proof.
  split; unfold only_removes; [done|].
  intros s1 e1 s2 e2 s3 H1 H2. by etrans.
Qed.

#[global] Instance only_removes_still : Still only_removes.
Proof. intros st evs. unfold only_removes. done. Qed.

Lemma only_removes_deleteDirRecursive_fuel h fuel p :
  sat only_removes (deleteDirRecursive_fuel h fuel p).
Proof.
  revert p. induction fuel as [|fuel IH]; intros p; simpl; [sat_step|].
  sat_still; try apply IH; apply still_fs_call; try tc_solve;
    intros st evs; unfold only_removes; cbn [st_fs set_fs].
  - unfold unlink. destruct (lookup_node _ _) as [[]|]; cbn [fst];
      [apply delete_subseteq|done|done].
  - unfold rmdir. destruct p; [done|].
    destruct (st_fs st !! _) as [[]|]; cbn [fst]; try done.
    destruct (readdir_names _ _); cbn [fst]; [apply delete_subseteq|done].
Qed.

Lemma existsb_false_Forall {A} (f : A -> bool) l :
  Forall (fun x => f x = false) l -> existsb f l = false.
Proof. induction 1 as [|x l Hx _ IH]; [done|]. simpl. by rewrite Hx, IH. Qed.

Lemma events_in_mono {A} (E E' : event -> Prop) (m : M A) :
  (forall e, E' e -> E e) -> sat (events_in E') m -> sat (events_in E) m.
Proof. intros HE Hm st. eapply Forall_impl; [apply Hm | exact HE]. Qed.

Lemma removals_deleteDirRecursive_fuel h fuel p :
  sat (events_in (removal_under p)) (deleteDirRecursive_fuel h fuel p).
Proof.
  revert p. induction fuel as [|fuel IH]; intros p; simpl; [sat_step|].
  unfold unlinkSync, rmdirSync. sat_events.
  - exists OpUnlink, (p ++ [x]), ok. split; [done|]. split; [by apply prefix_app_r | by left].
  - apply (events_in_mono _ (removal_under (p ++ [x]))); [|apply IH].
    intros e (op & q & ok & -> & Hq & Hop). exists op, q, ok.
    split; [done|]. split; [|done]. etrans; [|exact Hq]. by apply prefix_app_r.
  - exists OpRmdir, p, ok. split; [done|]. split; [done | by right].
Qed.

(** X3: [deleteDirRecursive] never throws and never logs; it only removes
    nodes, all of them at or below its directory, by [unlink] and [rmdir]
    calls there, and it leaves the timestamp store alone. *)
Theorem deleteDirRecursive_only_removes h p st :
  let o := deleteDirRecursive h p st in
  res o = Ok tt
  /\ st_fs (final o) ⊆ st_fs st
  /\ (forall q, ~ p `prefix_of` q -> st_fs (final o) !! q = st_fs st !! q)
  /\ st_store (final o) = st_store st
  /\ Forall (removal_under p) (events o).
Proof.
  cbv zeta. split; [apply total_unit, total_deleteDirRecursive|].
  split; [apply (only_removes_deleteDirRecursive_fuel h _ p st)|].
  split; [|split].
  - intros q Hq.
    by apply (keeps_deleteDirRecursive h (fun q => ~ p `prefix_of` q) p (fun q Hq => Hq) st).
  - apply (only_fs_deleteDirRecursive keeps_store h p st).
  - apply (removals_deleteDirRecursive_fuel h _ p st).
Qed.

(** X4: when the file system refuses no [unlink] and no [rmdir] at or
    below a directory, [deleteDirRecursive] removes it: nothing is at its
    path afterwards.  A path where nothing is stays that way. *)
Theorem deleteDirRecursive_removes_directory h p st :
  p <> [] -> deletable h p ->
  st_fs st !! p = None \/ st_fs st !! p = Some Dir ->
  st_fs (final (deleteDirRecursive h p st)) !! p = None.
Proof. apply deleteDirRecursive_removes. Qed.

Lemma deleteDirRecursive_removes_directory_witness :
  st_fs (final (deleteDirRecursive ex_host ["opt"; "cli"; "dist"] ex_state))
    !! ["opt"; "cli"; "dist"] = None.
Proof.
  apply deleteDirRecursive_removes_directory.
  - discriminate.
  - intros q _. split; reflexivity.
  - right. vm_compute. reflexivity.
Defined.

(** X5: on a regular file [deleteDirRecursive] does nothing: [readdirSync]
    throws, the error is dropped, and the file stays. *)
Theorem deleteDirRecursive_spares_files h p st data :
  lookup_node (st_fs st) p = Some (File data) ->
  deleteDirRecursive h p st = Out [] st (Ok tt).
Proof.
  intros Hl. unfold deleteDirRecursive. rewrite deleteDirRecursive_fuel_S.
  assert (He : existsSync p st = Out [] st (Ok true))
    by (unfold existsSync; by rewrite Hl).
  assert (Hr : readdirSync p st = Out [] st (Throw (ErrReaddir p)))
    by (unfold readdirSync; by rewrite Hl).
  rewrite run_try_catch, (run_bind (existsSync p) _ st), He.
  cbn [res final events]. rewrite (run_bind (readdirSync p) _ st), Hr.
  reflexivity.
Qed.

Lemma deleteDirRecursive_spares_files_witness :
  deleteDirRecursive ex_host ["opt"; "cli"; "package.json"] ex_state
  = Out [] ex_state (Ok tt).
Proof.
  apply (deleteDirRecursive_spares_files _ _ _ "{ version: 1.0.0 }").
  vm_compute. reflexivity.
Defined.

Lemma readLastCheckTimestamp_reads packageName st :
  res (readLastCheckTimestamp packageName st) = Ok (last_check st packageName).
Proof. reflexivity. Qed.

(** X6: what [writeCurrentTimestamp] writes, [readLastCheckTimestamp]
    reads back: after a write that the file system lets through, the time
    recorded for the package is the current time, and the time recorded
    for every other package is what it was (zero when the file was missing
    or was not JSON, in which case the write starts from an empty object). *)
Theorem timestamp_round_trip h packageName st :
  h_store_refuses h = false ->
  let st' := final (writeCurrentTimestamp h packageName st) in
  res (readLastCheckTimestamp packageName st') = Ok (h_now h)
  /\ (forall other, other <> packageName ->
        res (readLastCheckTimestamp other st') = res (readLastCheckTimestamp other st))
  /\ st_fs st' = st_fs st.
Proof.
  intros Hw st'.
  assert (Hst : st_store st' = StoreData (<[packageName := h_now h]>
                  match st_store st with StoreData data => data | _ => ∅ end)).
  { unfold st', writeCurrentTimestamp. by rewrite Hw. }
  rewrite !readLastCheckTimestamp_reads. unfold last_check. rewrite Hst.
  split; [by rewrite lookup_insert_eq|]. split.
  - intros other Hne. rewrite !readLastCheckTimestamp_reads. unfold last_check.
    rewrite Hst, lookup_insert_ne by done.
    destruct (st_store st); by rewrite ?lookup_empty.
  - unfold st', writeCurrentTimestamp. by rewrite Hw.
Qed.

Lemma timestamp_round_trip_witness :
  let st' := final (writeCurrentTimestamp ex_host "my-cli" ex_state) in
  res (readLastCheckTimestamp "my-cli" st') = Ok (h_now ex_host)
  /\ (forall other, other <> "my-cli" ->
        res (readLastCheckTimestamp other st')
        = res (readLastCheckTimestamp other ex_state))
  /\ st_fs st' = st_fs ex_state.
Proof. apply timestamp_round_trip. reflexivity. Defined.

Lemma ends_with_slash_app s : ends_with_slash (s +:+ "/") = true.
Proof.
  induction s as [|c s IH]; [done|].
  change (String c s +:+ "/") with (String c (s +:+ "/")).
  cbn [ends_with_slash]. rewrite IH. by destruct (s +:+ "/").
Qed.

(** X7: a registry base with and without its trailing slash gives the same
    metadata URL: [buildPackageUrl] adds the slash only when it is missing. *)
Theorem buildPackageUrl_trailing_slash h packageName registryBase :
  ends_with_slash registryBase = false ->
  buildPackageUrl h packageName (registryBase +:+ "/")
  = buildPackageUrl h packageName registryBase.
Proof.
  intros Hs. unfold buildPackageUrl. by rewrite ends_with_slash_app, Hs.
Qed.

Lemma buildPackageUrl_trailing_slash_witness :
  buildPackageUrl ex_host "my-cli" ("https://registry.npmjs.org" +:+ "/")
  = buildPackageUrl ex_host "my-cli" "https://registry.npmjs.org".
Proof. apply buildPackageUrl_trailing_slash. reflexivity. Defined.

(** X8: [fetchPackageMetadata] never throws and changes nothing; it makes
    exactly one request, to the URL of [buildPackageUrl]; it returns the
    metadata when the registry answers with a successful status and JSON,
    and [null] otherwise, and it logs a warning exactly when it returns
    [null]. *)
Theorem fetchPackageMetadata_answers h packageName registryBase st :
  let url := buildPackageUrl h packageName registryBase in
  let o := fetchPackageMetadata h packageName registryBase st in
  res o = Ok (match h_registry h url with FetchOk metadata => Some metadata | _ => None end)
  /\ final o = st
  /\ omap request_of (events o) = [url]
  /\ existsb is_warning (events o)
     = match h_registry h url with FetchOk _ => false | _ => true end.
Proof.
  cbv zeta. unfold fetchPackageMetadata. rewrite run_try_catch.
  rewrite (run_bind_ok (log_debug _) _ st tt eq_refl).
  rewrite (run_bind_ok (emit _) _ _ tt eq_refl).
  cbn [res final events log_debug emit].
  destruct (h_registry h (buildPackageUrl h packageName registryBase));
    repeat split; reflexivity.
Qed.

(** X9: [extractVersionInfo] never throws and changes nothing.  It logs a
    warning exactly when it returns [null]; the warning about an empty
    files array is never logged, since the list always starts with the two
    core paths; what it returns carries the version asked for, a
    non-empty archive URL and at least two files. *)
Theorem extractVersionInfo_null_is_warned metadata version st :
  let o := extractVersionInfo metadata version st in
  final o = st
  /\ (exists found, res o = Ok found
        /\ existsb is_warning (events o) = match found with Some _ => false | None => true end
        /\ match found with
           | Some versionInfo =>
               vi_version versionInfo = version
               /\ vi_tarballUrl versionInfo <> ""
               /\ 2 <= length (files (vi_upgear versionInfo))
           | None => True
           end)
  /\ Forall (fun e => e <> EvLog Warn MInvalidFiles) (events o).
Proof.
  cbv zeta. unfold extractVersionInfo. rewrite run_try_catch.
  destruct (versions metadata) as [vs|];
    [|split; [done|]; split; [by eexists|]; by repeat constructor].
  destruct (vs !! version) as [versionData|];
    [|split; [done|]; split; [by eexists|]; by repeat constructor].
  destruct (vd_dist versionData) as [[[|c url]|]|];
    try (split; [done|]; split; [by eexists|]; by repeat constructor).
  destruct (vd_upgear versionData) as [upgear|];
    [|split; [done|]; split; [by eexists|]; by repeat constructor].
  cbn [app length Nat.eqb]. split; [done|]. split; [|by repeat constructor].
  eexists. split; [reflexivity|]. split; [reflexivity|].
  cbn [vi_version vi_tarballUrl vi_upgear files length]. split; [done|].
  split; [done|]. lia.
Qed.

(** X10: the package name that goes into the scratch file names has only
    letters, digits and underscores, so no path separator and no dot;
    sanitizing keeps the length and is idempotent, and a name of letters
    and digits only is kept as it is. *)
Theorem sanitize_is_safe s :
  Forall (fun c => is_alnum c = true \/ c = "_"%char) (list_ascii_of_string (sanitize s))
  /\ String.length (sanitize s) = String.length s
  /\ sanitize (sanitize s) = sanitize s
  /\ (sanitize s = s <-> Forall (fun c => is_alnum c = true \/ c = "_"%char)
                                (list_ascii_of_string s)).
Proof.
  induction s as [|c s (IH1 & IH2 & IH3 & IH4)]; [by repeat split|].
  cbn [sanitize list_ascii_of_string String.length].
  split; [|split; [|split]].
  - constructor; [|exact IH1]. destruct (is_alnum c) eqn:Hc; auto.
  - by rewrite IH2.
  - cbn [sanitize]. rewrite IH3. destruct (is_alnum c) eqn:Hc; [by rewrite Hc|done].
  - split.
    + intros [= Hc Hs]. constructor; [|by apply IH4].
      destruct (is_alnum c) eqn:Ha; auto.
    + intros Hall. inversion Hall as [|? ? Hc Hs]; subst.
      apply IH4 in Hs. rewrite Hs. f_equal.
      destruct Hc as [-> | ->]; done.
Qed.

(** X11: a download to a fresh scratch path either returns with the
    archive file written there, or throws and leaves no file behind: the
    handler removes what the stream had written, as long as the file
    system does not refuse the [unlink].  The extraction directory and the
    [cleanup] record are not touched. *)
Theorem downloadTarball_leaves_no_partial_file h url ps st :
  siblings ps -> deletable h (tarballPath ps) -> scratch_gone ps (st_fs st) ->
  let o := downloadTarball h url (tarballPath ps) false st in
  st_cleanup (final o) = st_cleanup st
  /\ ((exists e, res o = Throw e) /\ scratch_gone ps (st_fs (final o))
      \/ res o = Ok tt
         /\ (exists data, st_fs (final o) !! tarballPath ps = Some (File data))
         /\ st_fs (final o) !! extractDir ps = None).
Proof. apply downloadTarball_scratch. Qed.

Lemma downloadTarball_leaves_no_partial_file_witness :
  let ps := createTempPaths ex_host "my-cli" "1.1.0" in
  let o := downloadTarball ex_host "https://registry.npmjs.org/my-cli/-/my-cli-1.1.0.tgz"
             (tarballPath ps) false ex_state in
  st_cleanup (final o) = st_cleanup ex_state
  /\ ((exists e, res o = Throw e) /\ scratch_gone ps (st_fs (final o))
      \/ res o = Ok tt
         /\ (exists data, st_fs (final o) !! tarballPath ps = Some (File data))
         /\ st_fs (final o) !! extractDir ps = None).
Proof.
  intros ps. apply downloadTarball_leaves_no_partial_file.
  - apply createTempPaths_siblings.
  - intros q _. split; reflexivity.
  - vm_compute. split; reflexivity.
Defined.

(** X12: when [extractTarball] returns (not in a dry run), the extraction
    directory is a directory with at least one entry: an extraction that
    leaves it empty throws. *)
Theorem extractTarball_returns_nonempty h tarball dir st :
  res (extractTarball h tarball dir false st) = Ok tt ->
  let fs' := st_fs (final (extractTarball h tarball dir false st)) in
  lookup_node fs' dir = Some Dir /\ readdir_names fs' dir <> [].
Proof.
  unfold extractTarball. cbv iota.
  rewrite (run_bind_ok (log_debug _) _ st tt eq_refl).
  change (final (log_debug (MExtracting tarball dir) st)) with st.
  cbn [res final].
  match goal with
  | |- context [(?m ≫= ?k) st] => rewrite (run_bind m k st)
  end.
  match goal with
  | |- context [res (?m st)] => destruct (res (m st)) as [[]|e]; [|done];
                                set (s1 := final (m st))
  end.
  cbn [res final]. rewrite (run_bind (tar_extract h tarball dir) _ s1).
  destruct (res (tar_extract h tarball dir s1)) as [[]|e]; [|done].
  set (s2 := final (tar_extract h tarball dir s1)).
  cbn [res final]. rewrite (run_bind_ok (log_debug _) _ s2 tt eq_refl).
  change (final (log_debug (MExtracted dir) s2)) with s2.
  cbn [res final]. rewrite (run_bind (readdirSync dir) _ s2).
  unfold readdirSync.
  destruct (lookup_node (st_fs s2) dir) as [[|]|] eqn:Hl; try done.
  cbn [res final]. rewrite (run_bind_ok (log_debug _) _ s2 tt eq_refl).
  change (final (log_debug (MExtractedContents (readdir_names (st_fs s2) dir)) s2)) with s2.
  cbn [res final].
  destruct (readdir_names (st_fs s2) dir) as [|n ns] eqn:Hn; [done|].
  cbn [length Nat.eqb res final]. intros _.
  change (final ((mret tt : M unit) s2)) with s2. by rewrite Hl, Hn.
Qed.

Lemma extractTarball_returns_nonempty_witness :
  let st := set_fs ex_state (<[ ["tmp"; "a.tgz"] := File "archive bytes" ]> ex_fs) in
  let fs' := st_fs (final (extractTarball ex_host ["tmp"; "a.tgz"] ["tmp"; "x"] false st)) in
  lookup_node fs' ["tmp"; "x"] = Some Dir /\ readdir_names fs' ["tmp"; "x"] <> [].
Proof.
  intros st. apply extractTarball_returns_nonempty. vm_compute. reflexivity.
Defined.

Lemma not_comparable_decide (a b : path) :
  bool_decide (comparable a b) = false -> ~ comparable a b.
Proof. intros Hb Hc. apply bool_decide_eq_false in Hb. by apply Hb. Qed.

(** X13: [backupFiles] never throws and writes only backups: a node that
    is neither at, below nor above one of the backup paths
    [`${pathe.join(installDir, f)}.bak`] is afterwards what it was, whatever
    failed on the way.  For a declared path without a trailing separator
    the backup path is the sibling [<f>.bak], and the installed files
    themselves are only read; for one that ends with a separator it is the
    entry [.bak] inside the directory. *)
Theorem backupFiles_writes_only_backups h files installDir dryRun st q :
  (forall f, f ∈ files ->
     ~ comparable q (backup_path installDir f)) ->
  let o := backupFiles h files installDir dryRun st in
  res o = Ok tt
  /\ st_fs (final o) !! q = st_fs st !! q
  /\ st_store (final o) = st_store st.
Proof.
  intros Hq. cbv zeta. split; [apply total_unit, total_backupFiles|]. split.
  - apply (keeps_backupFiles h
             (fun q => forall f, f ∈ files ->
                ~ comparable q (backup_path installDir f))
             files installDir dryRun (fun q f Hq Hf => Hq f Hf) st q Hq).
  - apply (only_fs_backupFiles keeps_store h files installDir dryRun st).
Qed.

Lemma backupFiles_writes_only_backups_witness :
  let o := backupFiles ex_host ["dist"; "package.json"] "/opt/cli" false ex_state in
  res o = Ok tt
  /\ st_fs (final o) !! ["opt"; "cli"; "dist"; "index.js"]
     = st_fs ex_state !! ["opt"; "cli"; "dist"; "index.js"]
  /\ st_store (final o) = st_store ex_state.
Proof.
  apply backupFiles_writes_only_backups.
  intros f Hf. apply not_comparable_decide.
  repeat (apply elem_of_cons in Hf as [->|Hf]; [vm_compute; reflexivity|]).
  by apply elem_of_nil in Hf.
Defined.

(** X14: [copyUpdatedFiles] never throws and writes only destinations: a
    node that is neither at, below nor above one of the paths
    [<installDir>/<f>] is afterwards what it was; in particular the
    extracted tree is only read. *)
Theorem copyUpdatedFiles_writes_only_destinations h files extractDir installDir dryRun st q :
  (forall f, f ∈ files -> ~ comparable q (join (to_path installDir) f)) ->
  let o := copyUpdatedFiles h files extractDir installDir dryRun st in
  res o = Ok tt
  /\ st_fs (final o) !! q = st_fs st !! q
  /\ st_store (final o) = st_store st.
Proof.
  intros Hq. cbv zeta. split; [apply copyUpdatedFiles_returns|]. split.
  - apply (keeps_copyUpdatedFiles h
             (fun q => forall f, f ∈ files -> ~ comparable q (join (to_path installDir) f))
             files extractDir installDir dryRun (fun q f Hq Hf => Hq f Hf) st q Hq).
  - apply (only_fs_copyUpdatedFiles keeps_store h files extractDir installDir dryRun st).
Qed.

Lemma copyUpdatedFiles_writes_only_destinations_witness :
  let st := set_fs ex_state (<[ ["x"; "package.json"] := File "new" ]>
                               (<[ ["x"] := Dir ]> ex_fs)) in
  let o := copyUpdatedFiles ex_host ["package.json"] ["x"] "/opt/cli" false st in
  res o = Ok tt
  /\ st_fs (final o) !! ["x"; "package.json"] = st_fs st !! ["x"; "package.json"]
  /\ st_store (final o) = st_store st.
Proof.
  intros st. apply copyUpdatedFiles_writes_only_destinations.
  intros f Hf. apply not_comparable_decide.
  repeat (apply elem_of_cons in Hf as [->|Hf]; [vm_compute; reflexivity|]).
  by apply elem_of_nil in Hf.
Defined.

(** ** Runs without an update to apply *)

Lemma applicable_update_offered `{Semver} h opts st :
  applicable_update h opts st
  = if ci_skips h opts || interval_skips h opts st then None else offered_update h opts.
Proof. reflexivity. Qed.

Lemma sat_bind_val {A B} R `{!ActionRel R} (m : M A) (k : A -> M B) (v : A) :
  sat R m -> (forall st, res (m st) = Ok v) -> sat R (k v) -> sat R (m ≫= k).
Proof.
  intros Hm Hv Hk st. rewrite (run_bind_ok _ _ _ _ (Hv st)). cbn [events final].
  eapply ar_trans; [apply Hm | apply Hk].
Qed.

Section Unoffered.
Context `{SV : Semver} (h : host).
Context (R : state -> list event -> state -> Prop) `{!ActionRel R}.
Context (Hemit : forall e, touches_files e = false -> sat R (emit e)).
Context (Hstamp : forall packageName, sat R (writeCurrentTimestamp h packageName)).

Local Ltac leaf :=
  repeat first [ sat_step | apply Hemit; reflexivity | apply Hstamp ].

Lemma unoffered_checkRegistry opts :
  offered_update h opts = None -> sat R (checkRegistry h opts).
Proof.
  intros Hoff. unfold checkRegistry.
  apply sat_bind; [tc_solve | leaf | intros _].
  apply (sat_bind_val R _ _
           (match h_registry h (registry_url h opts) with
            | FetchOk metadata => Some metadata
            | _ => None
            end)).
  { unfold fetchPackageMetadata. leaf. }
  { intros st. apply fetchPackageMetadata_spec. }
  unfold offered_update, resolved_latest in Hoff.
  destruct (h_registry h (registry_url h opts)) as [| | |metadata];
    cbv beta iota; try (by leaf).
  destruct (dist_tags metadata) as [tags|]; cbv beta iota; [|by leaf].
  destruct (tags !! the_channel opts) as [[|c latest]|]; cbv beta iota; try (by leaf).
  apply sat_bind; [tc_solve | leaf | intros _].
  apply (sat_bind_val R _ _ (update_needed (version opts) (String c latest))).
  { unfold isUpdateNeeded. leaf. }
  { intros st. apply isUpdateNeeded_spec. }
  destruct (update_needed (version opts) (String c latest));
    cbn [negb]; cbv beta iota; [|by leaf].
  unfold afterDecision.
  apply sat_bind; [tc_solve | leaf | intros _].
  apply (sat_bind_val R _ _ (policy metadata (String c latest))).
  { unfold extractVersionInfo. leaf. }
  { intros st. apply extractVersionInfo_spec. }
  destruct (policy metadata (String c latest)) as [versionInfo|];
    cbv beta iota; [|by leaf].
  apply sat_bind; [tc_solve | leaf | intros _].
  destruct (needReinstall (vi_upgear versionInfo)); [|done].
  unfold displayUpdateNotification. leaf.
Qed.
End Unoffered.

Section UnofferedRun.
Context `{SV : Semver} (h : host).
Context (R : state -> list event -> state -> Prop) `{!ActionRel R}.
Context (Hemit : forall e, touches_files e = false -> sat R (emit e)).
Context (Hstamp : forall packageName, sat R (writeCurrentTimestamp h packageName)).

Lemma unoffered_checkBody opts st :
  applicable_update h opts st = None ->
  let o := try_catch (checkBody h opts)
             (fun error => log_warn (MErrorUpdateCheck error)) st in
  R st (events o) (final o).
Proof.
  rewrite applicable_update_offered. intros Happ. cbv zeta.
  rewrite run_try_catch.
  assert (Hbody : R st (events (checkBody h opts st)) (final (checkBody h opts st))).
  { unfold checkBody. unfold ci_skips in Happ.
    destruct (the_skipOnCI opts && isCI h); [by apply Hemit|].
    cbn [orb] in Happ.
    destruct (intervalGate_spec h opts st) as [Hr Hf].
    rewrite (run_bind_ok _ _ _ _ Hr), Hf. cbn [events final].
    apply (ar_trans st _ st).
    - assert (Hg : sat R (intervalGate h opts)).
      { unfold intervalGate, readLastCheckTimestamp.
        repeat first [ sat_step | apply Hemit; reflexivity ]. }
      pose proof (Hg st) as Hgs. by rewrite Hf in Hgs.
    - destruct (interval_skips h opts st); cbn [negb]; [apply ar_refl|].
      by apply (unoffered_checkRegistry h R Hemit Hstamp). }
  destruct (res (checkBody h opts st)) as [[]|e]; [exact Hbody|].
  cbn [events final]. eapply ar_trans; [exact Hbody|]. by apply Hemit.
Qed.
End UnofferedRun.

(** X15: unless there is an update to apply (the gates are open, the
    registry offers a newer valid version under the channel, with a policy
    that does not ask for a reinstall), a run makes no file-system call
    and no archive request, and the file system is afterwards what it was. *)
Theorem no_update_leaves_files_alone `{Semver} h opts st :
  applicable_update h opts st = None ->
  let o := checkAndUpdate h opts st in
  st_fs (final o) = st_fs st
  /\ Forall (fun e => touches_files e = false) (events o).
Proof.
  intros Happ. cbv zeta. rewrite checkAndUpdate_run. cbv zeta.
  set (st0 := set_cleanup st fresh_cleanup).
  set (o1 := try_catch (checkBody h opts)
               (fun error => log_warn (MErrorUpdateCheck error)) st0).
  assert (Happ0 : applicable_update h opts st0 = None) by exact Happ.
  assert (Hcl : st_cleanup (final o1) = fresh_cleanup).
  { apply (unoffered_checkBody h keeps_cleanup); [| |exact Happ0].
    - intros e _. apply still_emit; tc_solve.
    - intros packageName s. unfold keeps_cleanup, writeCurrentTimestamp.
      by destruct (h_store_refuses h). }
  rewrite outerFinally_fresh by (by rewrite Hcl). cbn [events final].
  rewrite app_nil_r. split.
  - change (st_fs st) with (st_fs st0).
    apply (unoffered_checkBody h keeps_fs); [| |exact Happ0].
    + intros e _. apply still_emit; tc_solve.
    + intros packageName s. unfold keeps_fs, writeCurrentTimestamp.
      by destruct (h_store_refuses h).
  - constructor; [done|].
    apply (unoffered_checkBody h (events_in (fun e => touches_files e = false)));
      [| |exact Happ0].
    + intros e He. by apply events_emit.
    + intros packageName. by apply events_writeCurrentTimestamp.
Qed.

Lemma no_update_leaves_files_alone_witness :
  let o := @checkAndUpdate NodeSemver.instance ex_host
             (ex_options_with "1.1.0" None (Some "/opt/cli")) ex_state in
  st_fs (final o) = st_fs ex_state
  /\ Forall (fun e => touches_files e = false) (events o).
Proof.
  apply (@no_update_leaves_files_alone NodeSemver.instance). vm_compute. reflexivity.
Defined.

(** ** What a run records and reports *)

Lemma keeps_store_checkRegistry_rest `{Semver} h opts :
  sat keeps_store
    (fetched ← fetchPackageMetadata h (name opts) (the_registryBase opts);
     match fetched with
     | None => log_warn (MCouldNotCheck (name opts))
     | Some metadata =>
         match dist_tags metadata with
         | None => throw (ErrTypeError "metadata['dist-tags']")
         | Some tags =>
             match tags !! the_channel opts with
             | None | Some EmptyString =>
                 log_warn (MChannelNotFound (the_channel opts) (name opts))
             | Some latestVersion =>
                 log_debug (MVersions (version opts) latestVersion) ;;
                 needed ← isUpdateNeeded (version opts) latestVersion;
                 if negb needed then log_debug MNoUpdateNeeded
                 else afterDecision h opts metadata latestVersion
             end
         end
     end).
Proof.
  unfold afterDecision, applyUpdate, updateSteps, innerFinally, unlinkSync,
    fetchPackageMetadata, isUpdateNeeded, extractVersionInfo,
    displayUpdateNotification.
  sat_still;
    first [ apply only_fs_downloadTarball | apply only_fs_extractTarball
          | apply only_fs_call | apply only_fs_backupFiles
          | apply only_fs_copyUpdatedFiles | apply only_fs_cleanupTemporaryFiles
          | apply still_modify ]; try tc_solve; by intros.
Qed.

Lemma last_check_recorded `{Semver} h opts st :
  the_dryRun opts = false -> ci_skips h opts = false ->
  interval_skips h opts st = false -> h_store_refuses h = false ->
  last_check (final (checkAndUpdate h opts st)) (name opts) = h_now h.
Proof.
  intros Hdry Hci Hgate Hw.
  rewrite checkAndUpdate_run. cbv zeta. cbn [final].
  set (st0 := set_cleanup st fresh_cleanup).
  set (hd := fun error : error => log_warn (MErrorUpdateCheck error)).
  assert (Hof : sat keeps_store (outerFinally h opts)).
  { unfold outerFinally. sat_still. apply only_fs_cleanupTemporaryFiles; tc_solve. }
  pose proof (Hof (final (try_catch (checkBody h opts) hd st0))) as Hfin.
  unfold keeps_store in Hfin. unfold last_check. rewrite Hfin.
  rewrite (checkBody_open h opts st0 hd Hci Hgate). cbv zeta. cbn [final].
  unfold checkRegistry. rewrite Hdry. cbn [negb].
  set (st1 := final (writeCurrentTimestamp h (name opts) st0)).
  assert (Hst1 : st_store st1 = StoreData (<[name opts := h_now h]>
                   match st_store st0 with StoreData data => data | _ => ∅ end)).
  { unfold st1, writeCurrentTimestamp. by rewrite Hw. }
  match goal with
  | |- context [try_catch (_ ≫= ?k) hd st0] =>
      assert (Hrest : st_store (final (try_catch (writeCurrentTimestamp h (name opts) ≫= k) hd st0))
                      = st_store st1)
  end.
  { rewrite run_try_catch.
    rewrite (run_bind_ok (writeCurrentTimestamp h (name opts)) _ st0 tt
               (total_unit _ st0 (total_writeCurrentTimestamp h (name opts)))).
    fold st1. cbn [res final events].
    pose proof (keeps_store_checkRegistry_rest h opts st1) as Hk.
    unfold keeps_store in Hk.
    match goal with
    | |- context [res (?m st1)] => destruct (res (m st1)) as [[]|e]; exact Hk
    end. }
  rewrite Hrest, Hst1. by rewrite lookup_insert_eq.
Qed.

(** X16: a run that is not a dry run and that passes the CI gate and the
    interval gate records the current time as the time of the last check
    of the package, whatever the registry answers and whatever happens to
    the update afterwards, as long as the timestamp file can be written. *)
Theorem check_time_is_recorded `{Semver} h opts st :
  the_dryRun opts = false -> ci_skips h opts = false ->
  interval_skips h opts st = false -> h_store_refuses h = false ->
  res (readLastCheckTimestamp (name opts) (final (checkAndUpdate h opts st)))
  = Ok (h_now h).
Proof.
  intros Hdry Hci Hgate Hw. rewrite readLastCheckTimestamp_reads. f_equal.
  by apply last_check_recorded.
Qed.

Lemma check_time_is_recorded_witness :
  res (readLastCheckTimestamp (name ex_options)
         (final (@checkAndUpdate NodeSemver.instance ex_host ex_options ex_state)))
  = Ok (h_now ex_host).
Proof.
  apply (@check_time_is_recorded NodeSemver.instance);
    first [ reflexivity | vm_compute; reflexivity ].
Defined.

Lemma returns_warned_throw {A} e : returns_warned (throw e : M A).
Proof. by intros st a. Qed.

Lemma returns_warned_log_warn m : returns_warned (log_warn m).
Proof. by intros st a. Qed.

Lemma returns_warned_bind_r {A B} (m : M A) (k : A -> M B) :
  (forall a, returns_warned (k a)) -> returns_warned (m ≫= k).
Proof.
  intros Hk st b. rewrite run_bind. destruct (res (m st)) as [a|e]; [|done].
  cbn [res events]. intros Hb. apply existsb_app_r. by apply (Hk a _ b).
Qed.

Lemma returns_warned_bind_val {A B} (m : M A) (k : A -> M B) v :
  (forall st, res (m st) = Ok v) -> returns_warned (k v) -> returns_warned (m ≫= k).
Proof.
  intros Hv Hk st b. rewrite (run_bind_ok _ _ _ _ (Hv st)). cbn [res events].
  intros Hb. apply existsb_app_r. by apply (Hk _ b).
Qed.

Lemma returns_warned_checkRegistry `{Semver} h opts :
  resolved_latest h opts = None -> returns_warned (checkRegistry h opts).
Proof.
  intros Hres. unfold checkRegistry.
  apply returns_warned_bind_r. intros _.
  apply (returns_warned_bind_val _ _
           (match h_registry h (registry_url h opts) with
            | FetchOk metadata => Some metadata
            | _ => None
            end)).
  { intros st. apply fetchPackageMetadata_spec. }
  unfold resolved_latest in Hres.
  destruct (h_registry h (registry_url h opts)) as [| | |metadata];
    cbv beta iota; try apply returns_warned_log_warn.
  destruct (dist_tags metadata) as [tags|]; cbv beta iota;
    [|apply returns_warned_throw].
  destruct (tags !! the_channel opts) as [[|c latest]|]; cbv beta iota;
    first [ apply returns_warned_log_warn | discriminate Hres ].
Qed.

(** X17: when the gates are open and the check cannot be resolved (the
    registry request fails or is answered with an error status or with
    something that is not JSON, the metadata has no [dist-tags], or the
    channel is not among them), the run logs a warning. *)
Theorem unresolved_check_warns `{Semver} h opts st :
  ci_skips h opts = false -> interval_skips h opts st = false ->
  resolved_latest h opts = None ->
  existsb is_warning (events (checkAndUpdate h opts st)) = true.
Proof.
  intros Hci Hgate Hres. rewrite checkAndUpdate_run. cbv zeta. cbn [events existsb].
  apply orb_true_iff; right. apply existsb_app_l.
  set (st0 := set_cleanup st fresh_cleanup).
  set (hd := fun error : error => log_warn (MErrorUpdateCheck error)).
  rewrite (checkBody_open h opts st0 hd Hci Hgate). cbv zeta. cbn [events].
  apply existsb_app_r. rewrite run_try_catch.
  destruct (res (checkRegistry h opts st0)) as [[]|e] eqn:Hr.
  - by apply (returns_warned_checkRegistry h opts Hres st0 tt).
  - cbn [events]. by apply existsb_app_r.
Qed.

Lemma unresolved_check_warns_witness :
  existsb is_warning
    (events (@checkAndUpdate NodeSemver.instance ex_host
               {| debug := false; version := "1.0.0"; name := "my-cli";
                  registryBase := None; channel := Some "beta"; skipOnCI := None;
                  updateCheckIntervalMs := None; dryRun := None;
                  installDir := Some "/opt/cli"; onDisplay := None |} ex_state))
  = true.
Proof.
  apply (@unresolved_check_warns NodeSemver.instance);
    first [ reflexivity | vm_compute; reflexivity ].
Defined.

(** ** The reinstall-only update *)

Lemma shows_silent {A B} (f : event -> option B) (m : M A) :
  sat (events_in (fun e => f e = None)) m -> shows f [] m.
Proof. intros Hm st. apply omap_silent, Hm. Qed.

Lemma shows_bind_val {A A' B} (f : event -> option B) l (m : M A) (k : A -> M A') v :
  (forall st, res (m st) = Ok v) -> shows f [] m -> shows f l (k v) ->
  shows f l (m ≫= k).
Proof.
  intros Hv Hm Hk st. rewrite (run_bind_ok _ _ _ _ (Hv st)). cbn [events].
  by rewrite omap_app, Hm, Hk.
Qed.

Lemma shows_emit_bind {A B} (f : event -> option B) e b (k : unit -> M A) :
  f e = Some b -> shows f [] (k tt) -> shows f [b] (emit e ≫= k).
Proof.
  intros He Hk st. rewrite (run_bind_ok (emit e) _ st tt eq_refl).
  cbn [events emit final app omap list_omap]. by rewrite He, Hk.
Qed.

Lemma shows_try_catch_warn {B} (f : event -> option B) l (m : M unit) (w : error -> msg) :
  (forall e, f (EvLog Warn (w e)) = None) -> shows f l m ->
  shows f l (try_catch m (fun e => log_warn (w e))).
Proof.
  intros Hw Hm st. rewrite run_try_catch.
  destruct (res (m st)) as [[]|e]; [apply Hm|].
  cbn [events log_warn emit]. rewrite omap_app, Hm, (omap_cons_None f) by apply Hw.
  apply app_nil_r.
Qed.

Lemma shows_displayUpdateNotification version packageName reinstall changelog
    (dry : bool) (cb : option (DisplayInfo -> result unit)) :
  shows display_of
    (if dry then @nil (bool * DisplayInfo)
     else [(match cb with Some _ => true | None => false end,
            {| di_version := version; di_packageName := packageName;
               di_needReinstall := reinstall; di_changelogUrl := changelog |})])
    (displayUpdateNotification version packageName reinstall changelog dry cb).
Proof.
  unfold displayUpdateNotification. destruct dry; [by intros st|].
  destruct cb as [callback|]; [|by intros st].
  apply (shows_bind_val _ _ _ _ tt); [done | by intros st|].
  apply (shows_emit_bind display_of); [done|].
  intros st. by destruct (callback _).
Qed.

(** X18: when the gates are open and the policy of the newer version asks
    for a reinstall, the run shows exactly one notification, through the
    [onDisplay] callback when there is one, with [needReinstall] set and
    the version and changelog of the policy; in a dry run it shows none.
    This holds also when the callback throws. *)
Theorem reinstall_only_notifies `{Semver} h opts st metadata latest versionInfo :
  ci_skips h opts = false -> interval_skips h opts st = false ->
  resolved_latest h opts = Some (metadata, latest) ->
  update_needed (version opts) latest = true ->
  policy metadata latest = Some versionInfo ->
  needReinstall (vi_upgear versionInfo) = true ->
  omap display_of (events (checkAndUpdate h opts st))
  = if the_dryRun opts then @nil (bool * DisplayInfo)
    else [(match onDisplay opts with Some _ => true | None => false end,
           {| di_version := latest; di_packageName := name opts;
              di_needReinstall := true;
              di_changelogUrl := changelogUrl (vi_upgear versionInfo) |})].
Proof.
  intros Hci Hgate Hres Hneed Hpol Hre.
  destruct (checkAndUpdate_reach h opts st _ _ Hci Hgate Hres)
    as (pre & st1 & _ & _ & _ & Hpre & _ & ->).
  rewrite Hneed. cbv zeta. cbn [events]. rewrite !omap_app.
  rewrite (omap_silent display_of pre)
    by (eapply Forall_impl; [exact Hpre|]; by intros [] ?).
  assert (Hfin : shows display_of [] (outerFinally h opts)).
  { apply shows_silent. unfold outerFinally, cleanupTemporaryFiles, unlinkSync.
    sat_events; try done. apply events_deleteDirRecursive. done. }
  rewrite Hfin, app_nil_r. cbn [app].
  apply shows_try_catch_warn; [done|]. unfold afterDecision.
  apply (shows_bind_val _ _ _ _ tt); [done | by intros s|].
  apply (shows_bind_val _ _ _ _ (policy metadata latest)).
  { intros s. apply extractVersionInfo_spec. }
  { apply shows_silent. unfold extractVersionInfo. sat_events; done. }
  rewrite Hpol. cbv beta iota.
  apply (shows_bind_val _ _ _ _ tt); [done | by intros s|]. rewrite Hre.
  apply (shows_bind_val _ _ _ _ tt); [done | by intros s|].
  assert (Hv : vi_version versionInfo = latest).
  { unfold policy in Hpol. destruct (versions metadata) as [vs|]; [|done].
    destruct (vs !! latest) as [vd|]; [|done].
    destruct (vd_dist vd) as [[[|c u]|]|]; try done.
    destruct (vd_upgear vd); [|done]. by injection Hpol as <-. }
  rewrite <- Hv. apply shows_displayUpdateNotification.
Qed.

Lemma reinstall_only_notifies_witness :
  omap display_of
    (events (@checkAndUpdate NodeSemver.instance ex_host_reinstall ex_options ex_state))
  = [(false, {| di_version := "2.0.0"; di_packageName := "my-cli";
                di_needReinstall := true; di_changelogUrl := None |})].
Proof.
  apply (@reinstall_only_notifies NodeSemver.instance ex_host_reinstall ex_options
           ex_state ex_reinstall_metadata "2.0.0"
           {| vi_version := "2.0.0";
              vi_tarballUrl := "https://registry.npmjs.org/my-cli/-/my-cli-2.0.0.tgz";
              vi_upgear := {| files := ["dist"; "package.json"]; needReinstall := true;
                              changelogUrl := None |} |});
    first [ reflexivity | vm_compute; reflexivity ].
Defined.

(** ** Backup and replace of one regular file *)

Lemma push_spelled_segments allowAboveRoot acc seg :
  (push_spelled allowAboveRoot acc seg).2 = push_segment acc.2 seg.
Proof.
  unfold push_spelled, push_segment. repeat case_decide; try done.
  by destruct acc.2.
Qed.

Lemma foldl_push_spelled_segments allowAboveRoot segs acc :
  (foldl (push_spelled allowAboveRoot) acc segs).2 = foldl push_segment acc.2 segs.
Proof.
  revert acc. induction segs as [|seg segs IH]; intros acc; [done|].
  cbn [foldl]. by rewrite IH, push_spelled_segments.
Qed.

(** The segments of the spelling are the node that [join] gives. *)
Lemma sp_segments_pathe_join a b :
  sp_segments (pathe_join a b) = join (to_path a) b.
Proof.
  unfold pathe_join, to_path, join. cbn [sp_segments].
  by rewrite foldl_push_spelled_segments, foldl_app.
Qed.

(** Without a trailing separator, the backup of a node that has a name is
    its sibling [<name>.bak]. *)
Lemma backup_path_plain installDir filePath :
  trailing_separator installDir filePath = false ->
  join (to_path installDir) filePath <> [] ->
  backup_path installDir filePath
  = with_suffix (join (to_path installDir) filePath) ".bak".
Proof.
  unfold trailing_separator, backup_path, spelled_with_suffix. intros -> Hne.
  rewrite sp_segments_pathe_join. by destruct (join _ _).
Qed.

Lemma join_empty base : join base "" = base.
Proof. reflexivity. Qed.

(** The spellings at work: a backslash separates like a slash; a trailing
    separator stays in the spelling and puts the backup inside the
    directory; [.bak] after [/], after [.] and after [..]. *)
Example spellings_of_joined_paths :
  join (to_path "/opt/cli") ("dist" +:+ String backslash "index.js")
  = ["opt"; "cli"; "dist"; "index.js"]
  /\ join (to_path "/opt/cli") "dist/" = ["opt"; "cli"; "dist"]
  /\ trailing_separator "/opt/cli" "dist/" = true
  /\ backup_path "/opt/cli" "dist/" = ["opt"; "cli"; "dist"; ".bak"]
  /\ backup_path "/opt/cli" "dist" = ["opt"; "cli"; "dist.bak"]
  /\ backup_path "/opt/cli" "../.." = [".bak"]
  /\ backup_path "." "" = ["..bak"]
  /\ backup_path "cli" "../.." = ["...bak"].
Proof. repeat split; vm_compute; reflexivity. Qed.

(** Declared paths that end with a separator, on the concrete
    installation: the regular file is not found and is skipped by the
    backup; the directory is backed up into itself, and the copy of the new
    [.bak] entry into itself fails. *)
Example trailing_separator_on_declared_paths :
  events (backupFiles ex_host ["package.json/"; "dist/"] "/opt/cli" false ex_state)
  = [EvLog Debug (MBackupStart 2);
     EvLog Debug (MSkipBackup ["opt"; "cli"; "package.json"]);
     EvLog Debug (MBackingUpDir ["opt"; "cli"; "dist"] ["opt"; "cli"; "dist"; ".bak"]);
     EvFs OpMkdir ["opt"; "cli"; "dist"; ".bak"] true;
     EvFs OpCopyFile ["opt"; "cli"; "dist"; ".bak"; "index.js"] true;
     EvFs OpCp ["opt"; "cli"; "dist"; ".bak"; ".bak"] false;
     EvLog Warn (MErrorBackingUp ["opt"; "cli"; "dist"]
                   (ErrFs OpCp ["opt"; "cli"; "dist"; ".bak"; ".bak"] "ERR_FS_CP_EINVAL"));
     EvLog Debug MBackupDone].
Proof. vm_compute. reflexivity. Qed.

Lemma dirname_with_suffix (p : path) suffix :
  p <> [] -> dirname (with_suffix p suffix) = dirname p.
Proof.
  intros Hp. destruct (exists_last Hp) as (rest & l & ->).
  unfold with_suffix, dirname. rewrite reverse_snoc, reverse_involutive.
  by rewrite !removelast_last.
Qed.

Lemma copyFileSync_file h src dest st data :
  h_refuses h OpCopyFile dest = false ->
  lookup_node (st_fs st) src = Some (File data) ->
  lookup_node (st_fs st) (dirname dest) = Some Dir ->
  lookup_node (st_fs st) dest <> Some Dir ->
  copyFileSync h src dest st
  = Out [EvFs OpCopyFile dest true] (set_fs st (<[dest := File data]> (st_fs st))) (Ok tt).
Proof.
  intros Hr Hs Hd Hn. unfold copyFileSync, fs_call, copy_file, write_file.
  rewrite Hr, Hs, Hd. by destruct (lookup_node (st_fs st) dest) as [[]|].
Qed.

Lemma existsSync_run p st :
  existsSync p st
  = Out [] st (Ok (match lookup_node (st_fs st) p with Some _ => true | None => false end)).
Proof. reflexivity. Qed.

Lemma statSync_found p st n :
  lookup_node (st_fs st) p = Some n -> statSync p st = Out [] st (Ok n).
Proof. intros Hl. unfold statSync. by rewrite Hl. Qed.

Lemma backupOne_file h installDir filePath st old :
  let full := join (to_path installDir) filePath in
  let backup := backup_path installDir filePath in
  trailing_separator installDir filePath = false ->
  h_refuses h OpCopyFile backup = false ->
  lookup_node (st_fs st) full = Some (File old) ->
  lookup_node (st_fs st) backup = None ->
  lookup_node (st_fs st) (dirname full) = Some Dir ->
  backupOne h installDir false filePath st
  = Out [EvLog Debug (MBackingUpFile full backup); EvFs OpCopyFile backup true;
         EvLog Debug (MBackedUp full)]
        (set_fs st (<[backup := File old]> (st_fs st))) (Ok tt).
Proof.
  intros full backup Htr Hr Hfull Hbak Hdir.
  assert (Hne : full <> []) by (intros E; rewrite E in Hfull; discriminate).
  assert (Hb : backup = with_suffix full ".bak") by by apply backup_path_plain.
  unfold backupOne. fold full. fold backup. cbv zeta.
  rewrite existsSync_spelled_bind, Hfull, Htr.
  cbn [spelled_found negb]. rewrite run_try_catch.
  match goal with
  | |- context [(?m ≫= ?k) st] => rewrite (run_bind m k st)
  end.
  rewrite (run_bind (existsSync backup) _ st), existsSync_run, Hbak.
  cbn [res final events app].
  change (res ((mret tt : M unit) st)) with (Ok tt : result unit).
  change (final ((mret tt : M unit) st)) with st.
  change (events ((mret tt : M unit) st)) with (@nil event).
  cbn [res final events app].
  rewrite (run_bind (statSync full) _ st), (statSync_found _ _ _ Hfull).
  cbn [res final events app].
  match goal with
  | |- context [(?m ≫= ?k) st] => rewrite (run_bind m k st)
  end.
  rewrite (run_bind (log_debug _) _ st).
  change (res (log_debug (MBackingUpFile full backup) st)) with (Ok tt : result unit).
  change (final (log_debug (MBackingUpFile full backup) st)) with st.
  cbn [res final events app].
  rewrite (copyFileSync_file h full backup st old Hr Hfull).
  - reflexivity.
  - by rewrite Hb, dirname_with_suffix.
  - by rewrite Hbak.
Qed.

Lemma lookup_node_insert_ne (fs : gmap path node) p q n :
  p <> q -> lookup_node (<[p := n]> fs) q = lookup_node fs q.
Proof. intros Hne. destruct q; [done|]. cbn [lookup_node]. by apply lookup_insert_ne. Qed.

Lemma copyOne_file h base installDir filePath st new :
  let source := join base filePath in
  let dest := join (to_path installDir) filePath in
  ends_with_separator filePath = false ->
  h_refuses h OpCopyFile dest = false ->
  lookup_node (st_fs st) source = Some (File new) ->
  lookup_node (st_fs st) (dirname dest) = Some Dir ->
  lookup_node (st_fs st) dest <> Some Dir ->
  copyOne h base installDir false filePath st
  = Out [EvLog Debug (MCopyingFile source dest); EvFs OpCopyFile dest true;
         EvLog Debug (MCopied dest)]
        (set_fs st (<[dest := File new]> (st_fs st))) (Ok tt).
Proof.
  intros source dest Hsep Hr Hsrc Hdir Hdest.
  unfold copyOne. fold source. fold dest. cbv zeta.
  rewrite existsSync_spelled_bind, Hsrc, Hsep.
  cbn [spelled_found negb]. rewrite run_try_catch.
  match goal with
  | |- context [(?m ≫= ?k) st] => rewrite (run_bind m k st)
  end.
  rewrite (run_bind (existsSync (dirname dest)) _ st), existsSync_run, Hdir.
  cbn [res final events app].
  change (res ((mret tt : M unit) st)) with (Ok tt : result unit).
  change (final ((mret tt : M unit) st)) with st.
  change (events ((mret tt : M unit) st)) with (@nil event).
  cbn [res final events app].
  rewrite (run_bind (statSync source) _ st), (statSync_found _ _ _ Hsrc).
  cbn [res final events app].
  match goal with
  | |- context [(?m ≫= ?k) st] => rewrite (run_bind m k st)
  end.
  rewrite (run_bind (log_debug _) _ st).
  change (res (log_debug (MCopyingFile source dest) st)) with (Ok tt : result unit).
  change (final (log_debug (MCopyingFile source dest) st)) with st.
  cbn [res final events app].
  by rewrite (copyFileSync_file h source dest st new Hr Hsrc Hdir Hdest).
Qed.

Lemma backup_then_replace_one h base installDir filePath st old new :
  let source := join base filePath in
  let full := join (to_path installDir) filePath in
  let backup := backup_path installDir filePath in
  ends_with_separator filePath = false -> filePath <> "" ->
  h_refuses h OpCopyFile backup = false -> h_refuses h OpCopyFile full = false ->
  lookup_node (st_fs st) full = Some (File old) ->
  lookup_node (st_fs st) backup = None ->
  lookup_node (st_fs st) (dirname full) = Some Dir ->
  lookup_node (st_fs st) source = Some (File new) ->
  let st1 := set_fs st (<[backup := File old]> (st_fs st)) in
  backupOne h installDir false filePath st
  = Out [EvLog Debug (MBackingUpFile full backup); EvFs OpCopyFile backup true;
         EvLog Debug (MBackedUp full)] st1 (Ok tt)
  /\ copyOne h base installDir false filePath st1
     = Out [EvLog Debug (MCopyingFile source full); EvFs OpCopyFile full true;
            EvLog Debug (MCopied full)]
           (set_fs st1 (<[full := File new]> (st_fs st1))) (Ok tt).
Proof.
  intros source full backup Hsep Hf Hrb Hrf Hfull Hbak Hdir Hsrc st1.
  assert (Htr : trailing_separator installDir filePath = false).
  { unfold trailing_separator, pathe_join. cbn [sp_trailing]. by rewrite decide_False. }
  assert (Hfb : backup <> full).
  { intros E. rewrite E in Hbak. by rewrite Hbak in Hfull. }
  assert (Hsb : backup <> source).
  { intros E. rewrite E in Hbak. by rewrite Hbak in Hsrc. }
  split; [by apply backupOne_file|].
  apply copyOne_file.
  - exact Hsep.
  - exact Hrf.
  - fold source. unfold st1. cbn [st_fs set_fs]. by rewrite lookup_node_insert_ne.
  - fold full. unfold st1. cbn [st_fs set_fs].
    destruct (decide (backup = dirname full)) as [E|Hne];
      [|by rewrite lookup_node_insert_ne].
    exfalso. rewrite E in Hbak. by rewrite Hbak in Hdir.
  - fold full. unfold st1. cbn [st_fs set_fs].
    rewrite lookup_node_insert_ne by done. by rewrite Hfull.
Qed.

(** ** What the replace step can remove *)

#[global] Instance survives_rel K : ActionRel (survives K).
Proof.
  split; unfold survives; [done|].
  intros s1 e1 s2 e2 s3 H1 H2 q Hq Hs. apply (H2 q Hq), (H1 q Hq), Hs.
Qed.

#[global] Instance survives_still K : Still (survives K).
Proof. intros st evs q _ Hs. exact Hs. Qed.

Lemma mkdir_p_dom pre segs fs q :
  is_Some (fs !! q) -> is_Some ((mkdir_p pre segs fs).1 !! q).
Proof.
  intros Hs. destruct (mkdir_p_lookup pre segs fs q) as [->|(Hn & _)]; [done|].
  rewrite Hn in Hs. by destruct Hs.
Qed.

Lemma insert_dom (fs : gmap path node) p n q :
  is_Some (fs !! q) -> is_Some (<[p := n]> fs !! q).
Proof.
  intros Hs. destruct (decide (p = q)) as [->|Hne].
  - rewrite lookup_insert_eq. by eexists.
  - by rewrite lookup_insert_ne.
Qed.

Lemma write_file_dom p data fs q :
  is_Some (fs !! q) -> is_Some ((write_file p data fs).1 !! q).
Proof.
  intros Hs. unfold write_file.
  destruct (lookup_node fs (dirname p)) as [[]|]; simpl; try done.
  destruct (lookup_node fs p) as [[]|]; simpl; try done; by apply insert_dom.
Qed.

Lemma copy_file_dom src dest fs q :
  is_Some (fs !! q) -> is_Some ((copy_file src dest fs).1 !! q).
Proof.
  intros Hs. unfold copy_file. destruct (lookup_node fs src) as [[]|]; simpl; try done.
  by apply write_file_dom.
Qed.

Lemma cp_entries_dom refuses dest es fs q :
  is_Some (fs !! q) -> is_Some ((cp_entries refuses dest es fs).1 !! q).
Proof.
  revert fs. induction es as [|[r n] es IH]; intros fs Hs; simpl; [done|].
  destruct (refuses (dest ++ r)); simpl; [done|].
  destruct (lookup_node fs (dest ++ r)) as [[]|], n; simpl; try done;
    by apply IH, insert_dom.
Qed.

Lemma cp_tree_dom refuses src dest fs q :
  is_Some (fs !! q) -> is_Some ((cp_tree refuses src dest fs).1 !! q).
Proof.
  intros Hs. unfold cp_tree. destruct (lookup_node fs src) as [n|]; [|done].
  destruct (decide (src `prefix_of` dest)); [done|].
  pose proof (mkdir_p_dom [] (dirname dest) fs q Hs) as Hm.
  destruct (mkdir_p [] (dirname dest) fs) as [fs1 [code|]]; [exact Hm|].
  by apply cp_entries_dom.
Qed.

Section Survives.
Context (h : host) (K : path -> Prop).

Lemma survives_copyOne base installDir dryRun filePath :
  (forall q, K q -> q <> join (to_path installDir) filePath) ->
  sat (survives K) (copyOne h base installDir dryRun filePath).
Proof.
  intros HK. unfold copyOne, mkdirSync, copyFileSync, cpSync, unlinkSync.
  sat_still; apply still_fs_call; try tc_solve; intros st evs q Hq Hs;
    cbn [st_fs set_fs].
  - by apply mkdir_p_dom.
  - by apply copy_file_dom.
  - by apply cp_tree_dom.
  - rewrite unlink_frame; [done|]. by apply HK.
  - by apply cp_tree_dom.
Qed.

Lemma survives_copyUpdatedFiles files extractDir installDir dryRun :
  (forall q f, K q -> f ∈ files -> q <> join (to_path installDir) f) ->
  sat (survives K) (copyUpdatedFiles h files extractDir installDir dryRun).
Proof.
  intros HK. unfold copyUpdatedFiles, sourceBase. sat_still.
  all: apply survives_copyOne; intros q Hq; by apply HK.
Qed.
End Survives.

(** X20: the replace step deletes nothing but, at most, a destination
    path that is in the way of a directory of the package: every other
    node that was there before is there afterwards.  A file that the new
    version no longer ships stays in the installation. *)
Theorem copyUpdatedFiles_removes_no_other_node h files extractDir installDir dryRun st q :
  (forall f, f ∈ files -> q <> join (to_path installDir) f) ->
  is_Some (st_fs st !! q) ->
  is_Some (st_fs (final (copyUpdatedFiles h files extractDir installDir dryRun st)) !! q).
Proof.
  intros Hq Hs.
  apply (survives_copyUpdatedFiles h
           (fun q => forall f, f ∈ files -> q <> join (to_path installDir) f)
           files extractDir installDir dryRun (fun q f Hq Hf => Hq f Hf) st q Hq Hs).
Qed.

Lemma copyUpdatedFiles_removes_no_other_node_witness :
  let st := set_fs ex_state
              (<[ ["opt"; "cli"; "dist"; "old.js"] := File "stale" ]>
                 (<[ ["x"; "dist"; "index.js"] := File "new code" ]>
                    (<[ ["x"; "dist"] := Dir ]> (<[ ["x"] := Dir ]> ex_fs)))) in
  is_Some (st_fs (final (copyUpdatedFiles ex_host ["dist"] ["x"] "/opt/cli" false st))
             !! ["opt"; "cli"; "dist"; "old.js"]).
Proof.
  intros st. apply copyUpdatedFiles_removes_no_other_node.
  - intros f Hf He.
    repeat (apply elem_of_cons in Hf as [->|Hf]; [vm_compute in He; discriminate He|]).
    by apply elem_of_nil in Hf.
  - exists (File "stale"). vm_compute. reflexivity.
Defined.

(** ** The cleanup, the registry request and the timestamp file *)

(** X21: [cleanupTemporaryFiles] never throws; it only removes nodes, all
    of them in the scratch area of the paths it is given, and leaves the
    timestamp store alone. *)
Theorem cleanupTemporaryFiles_only_removes_scratch h ps dryRun st :
  let o := cleanupTemporaryFiles h (Some ps) dryRun st in
  res o = Ok tt
  /\ st_fs (final o) ⊆ st_fs st
  /\ (forall q, ~ scratch_area ps q -> st_fs (final o) !! q = st_fs st !! q)
  /\ st_store (final o) = st_store st.
Proof.
  cbv zeta. split; [apply total_unit, total_cleanupTemporaryFiles|].
  split; [|split].
  - assert (Hm : sat only_removes (cleanupTemporaryFiles h (Some ps) dryRun)); [|apply Hm].
    unfold cleanupTemporaryFiles, unlinkSync. sat_still.
    + apply still_fs_call; [tc_solve|]. intros s evs. unfold only_removes.
      cbn [st_fs set_fs]. unfold unlink.
      destruct (lookup_node _ _) as [[]|]; cbn [fst]; [apply delete_subseteq|done|done].
    + intros s. apply only_removes_deleteDirRecursive_fuel.
  - intros q Hq. by apply (outside_cleanupTemporaryFiles h ps dryRun st q).
  - apply (only_fs_cleanupTemporaryFiles keeps_store h (Some ps) dryRun st).
Qed.

Lemma gates_closed_keeps_store `{Semver} h opts st :
  ci_skips h opts = true \/ interval_skips h opts st = true ->
  st_store (final (checkAndUpdate h opts st)) = st_store st.
Proof.
  intros Hskip. destruct (ci_skips h opts) eqn:Hci.
  - rewrite checkAndUpdate_run. cbv zeta. cbn [final].
    set (st0 := set_cleanup st fresh_cleanup).
    assert (Hb : try_catch (checkBody h opts)
                   (fun error => log_warn (MErrorUpdateCheck error)) st0
                 = Out [EvLog Debug MSkipCI] st0 (Ok tt)).
    { rewrite run_try_catch. unfold checkBody. unfold ci_skips in Hci. by rewrite Hci. }
    rewrite Hb. cbn [final]. by rewrite outerFinally_fresh.
  - destruct Hskip as [|Hgate]; [done|].
    by rewrite (checkAndUpdate_throttled h opts st Hci Hgate).
Qed.

(** X22: a run that the CI gate or the interval gate skips, and a dry
    run, leave the timestamp file as it is. *)
Theorem skipped_or_dry_run_keeps_timestamps `{Semver} h opts st :
  ci_skips h opts || interval_skips h opts st || the_dryRun opts = true ->
  st_store (final (checkAndUpdate h opts st)) = st_store st.
Proof.
  intros Hc. apply orb_true_iff in Hc as [Hc|Hdry].
  - apply gates_closed_keeps_store. by apply orb_true_iff.
  - apply (dry_checkAndUpdate_keeps_files h opts Hdry st).
Qed.

Lemma skipped_or_dry_run_keeps_timestamps_witness :
  st_store (final (@checkAndUpdate NodeSemver.instance
                     (ex_host_with {[ "CI" := "true" ]} (fun _ _ => false))
                     ex_options ex_state))
  = st_store ex_state.
Proof.
  apply (@skipped_or_dry_run_keeps_timestamps NodeSemver.instance).
  vm_compute. reflexivity.
Defined.

Lemma checkAndUpdate_ci_skipped `{Semver} h opts st :
  ci_skips h opts = true ->
  checkAndUpdate h opts st
  = Out [EvLog Debug (MStart (options_view opts)); EvLog Debug MSkipCI]
        (set_cleanup st fresh_cleanup) (Ok tt).
Proof.
  intros Hci. rewrite checkAndUpdate_run. cbv zeta.
  set (st0 := set_cleanup st fresh_cleanup).
  assert (Hb : try_catch (checkBody h opts)
                 (fun error => log_warn (MErrorUpdateCheck error)) st0
               = Out [EvLog Debug MSkipCI] st0 (Ok tt)).
  { rewrite run_try_catch. unfold checkBody. unfold ci_skips in Hci. by rewrite Hci. }
  rewrite Hb. cbn [final events]. by rewrite outerFinally_fresh.
Qed.

Lemma shows_bind_val_l {A A' B} (f : event -> option B) l (m : M A) (k : A -> M A') v :
  (forall st, res (m st) = Ok v) -> shows f l m -> shows f [] (k v) ->
  shows f l (m ≫= k).
Proof.
  intros Hv Hm Hk st. rewrite (run_bind_ok _ _ _ _ (Hv st)). cbn [events].
  by rewrite omap_app, Hm, Hk, app_nil_r.
Qed.

Lemma fetchPackageMetadata_one_request h packageName registryBase :
  shows request_of [buildPackageUrl h packageName registryBase]
    (fetchPackageMetadata h packageName registryBase).
Proof.
  intros st. unfold fetchPackageMetadata. rewrite run_try_catch.
  rewrite (run_bind_ok (log_debug _) _ st tt eq_refl).
  rewrite (run_bind_ok (emit _) _ _ tt eq_refl).
  cbn [res final events log_debug emit].
  by destruct (h_registry h (buildPackageUrl h packageName registryBase)).
Qed.

Lemma no_request_after_fetch `{Semver} h opts fetched :
  sat (events_in (fun e => request_of e = None))
    (match fetched with
     | None => log_warn (MCouldNotCheck (name opts))
     | Some metadata =>
         match dist_tags metadata with
         | None => throw (ErrTypeError "metadata['dist-tags']")
         | Some tags =>
             match tags !! the_channel opts with
             | None | Some EmptyString =>
                 log_warn (MChannelNotFound (the_channel opts) (name opts))
             | Some latestVersion =>
                 log_debug (MVersions (version opts) latestVersion) ;;
                 needed ← isUpdateNeeded (version opts) latestVersion;
                 if negb needed then log_debug MNoUpdateNeeded
                 else afterDecision h opts metadata latestVersion
             end
         end
     end).
Proof.
  unfold afterDecision, applyUpdate, updateSteps, innerFinally,
    isUpdateNeeded, extractVersionInfo, displayUpdateNotification,
    downloadTarball, extractTarball, backupFiles, backupOne, copyUpdatedFiles,
    sourceBase, copyOne, cleanupTemporaryFiles,
    mkdirSync, unlinkSync, writeStream, cpSync, copyFileSync.
  sat_events; first [ reflexivity | by apply events_deleteDirRecursive ].
Qed.

(** X23: a run makes one request to the registry, at the URL of
    [buildPackageUrl], when the CI gate and the interval gate are both
    open, and none when one of them skips the check. *)
Theorem registry_is_asked_once `{Semver} h opts st :
  omap request_of (events (checkAndUpdate h opts st))
  = if ci_skips h opts || interval_skips h opts st then []
    else [registry_url h opts].
Proof.
  destruct (ci_skips h opts) eqn:Hci; [by rewrite checkAndUpdate_ci_skipped|].
  destruct (interval_skips h opts st) eqn:Hgate;
    [by rewrite (checkAndUpdate_throttled h opts st Hci Hgate)|].
  cbn [orb]. rewrite checkAndUpdate_run. cbv zeta. cbn [events].
  set (st0 := set_cleanup st fresh_cleanup).
  set (hd := fun error : error => log_warn (MErrorUpdateCheck error)).
  rewrite (omap_cons_None request_of) by reflexivity. rewrite omap_app.
  assert (Hfin : shows request_of [] (outerFinally h opts)).
  { apply shows_silent. unfold outerFinally, cleanupTemporaryFiles, unlinkSync.
    sat_events; first [ reflexivity | by apply events_deleteDirRecursive ]. }
  rewrite Hfin, app_nil_r.
  rewrite (checkBody_open h opts st0 hd Hci Hgate). cbv zeta. cbn [events].
  rewrite omap_app.
  assert (Hg : shows request_of [] (intervalGate h opts)).
  { apply shows_silent. unfold intervalGate. sat_events; reflexivity. }
  rewrite Hg. cbn [app].
  apply (shows_try_catch_warn request_of); [done|].
  unfold checkRegistry.
  apply (shows_bind_val _ _ _ _ tt).
  { intros s. destruct (the_dryRun opts); [done|].
    apply total_unit, total_writeCurrentTimestamp. }
  { apply shows_silent. sat_events; reflexivity. }
  apply (shows_bind_val_l _ _ _ _
           (match h_registry h (registry_url h opts) with
            | FetchOk metadata => Some metadata
            | _ => None
            end)).
  { intros s. apply fetchPackageMetadata_spec. }
  { apply fetchPackageMetadata_one_request. }
  apply shows_silent, no_request_after_fetch.
Qed.

(** X24: checks are throttled across runs: after a run that is not a dry
    run, has passed both gates and could write the timestamp file, a run
    started before the interval has elapsed is skipped by the interval
    gate and makes no registry request. *)
Theorem next_run_is_throttled `{Semver} h h' opts st :
  the_dryRun opts = false -> ci_skips h opts = false ->
  interval_skips h opts st = false -> h_store_refuses h = false ->
  (0 < h_now h)%Z ->
  (h_now h <= h_now h' < h_now h + the_updateCheckIntervalMs opts)%Z ->
  let st' := final (checkAndUpdate h opts st) in
  interval_skips h' opts st' = true
  /\ omap request_of (events (checkAndUpdate h' opts st')) = [].
Proof.
  intros Hdry Hci Hgate Hw Hpos Hnow st'.
  assert (Hskip : interval_skips h' opts st' = true).
  { unfold interval_skips. unfold st'.
    rewrite (last_check_recorded h opts st Hdry Hci Hgate Hw), Hdry. cbn [negb andb].
    apply andb_true_iff. split; [apply andb_true_iff; split|]; apply Z.ltb_lt; lia. }
  split; [exact Hskip|].
  destruct (ci_skips h' opts) eqn:Hci'.
  - by rewrite checkAndUpdate_ci_skipped.
  - by rewrite (checkAndUpdate_throttled h' opts st' Hci' Hskip).
Qed.

Lemma next_run_is_throttled_witness :
  let st' := final (@checkAndUpdate NodeSemver.instance ex_host ex_options ex_state) in
  @interval_skips ex_host ex_options st' = true
  /\ omap request_of
       (events (@checkAndUpdate NodeSemver.instance ex_host ex_options st')) = [].
Proof.
  apply (@next_run_is_throttled NodeSemver.instance ex_host ex_host ex_options ex_state);
    first [ reflexivity | vm_compute; reflexivity | vm_compute; split; [discriminate | reflexivity] ].
Defined.

(** X19: backup and replace of one regular file of a package that keeps
    its payload under [package], for a declared path that does not end
    with a separator, when neither copy is refused, the directory of the
    file is there and no backup is in the way: afterwards the backup path
    [`${fullPath}.bak`] holds the old content and the file holds the content
    of the package, nothing else has changed, and no warning is logged.
    (With a trailing separator [existsSync] does not find the file, and
    both steps skip it.) *)
Theorem backup_then_replace_file h extractDir installDir filePath st old new :
  let pkg := extractDir ++ ["package"] in
  let source := join pkg filePath in
  let full := join (to_path installDir) filePath in
  let backup := backup_path installDir filePath in
  ends_with_separator filePath = false ->
  h_refuses h OpCopyFile backup = false -> h_refuses h OpCopyFile full = false ->
  lookup_node (st_fs st) full = Some (File old) ->
  lookup_node (st_fs st) backup = None ->
  lookup_node (st_fs st) (dirname full) = Some Dir ->
  st_fs st !! pkg = Some Dir ->
  lookup_node (st_fs st) source = Some (File new) ->
  let o := (backupFiles h [filePath] installDir false ;;
            copyUpdatedFiles h [filePath] extractDir installDir false) st in
  res o = Ok tt
  /\ st_fs (final o) = <[full := File new]> (<[backup := File old]> (st_fs st))
  /\ existsb is_warning (events o) = false.
Proof.
  intros pkg source full backup Hsep Hrb Hrf Hfull Hbak Hdir Hpkg Hsrc. cbv zeta.
  assert (Hf : filePath <> "").
  { intros ->. unfold source in Hsrc. rewrite join_empty in Hsrc.
    unfold lookup_node, pkg in Hsrc. destruct extractDir; cbn in Hsrc;
      unfold pkg in Hpkg; cbn in Hpkg; by rewrite Hpkg in Hsrc. }
  destruct (backup_then_replace_one h pkg installDir filePath st old new
              Hsep Hf Hrb Hrf Hfull Hbak Hdir Hsrc) as [Hb Hc].
  fold source in Hc. fold full in Hb, Hc. fold backup in Hb, Hc.
  set (st1 := set_fs st (<[backup := File old]> (st_fs st))) in *.
  assert (Hbackup : backupFiles h [filePath] installDir false st
                    = Out [EvLog Debug (MBackupStart 1);
                           EvLog Debug (MBackingUpFile full backup);
                           EvFs OpCopyFile backup true;
                           EvLog Debug (MBackedUp full);
                           EvLog Debug MBackupDone] st1 (Ok tt)).
  { unfold backupFiles. cbn [for_each length].
    rewrite (run_bind_ok (log_debug _) _ st tt eq_refl).
    change (final (log_debug (MBackupStart 1) st)) with st.
    match goal with
    | |- context [(?m ≫= ?k) st] => rewrite (run_bind m k st)
    end.
    rewrite (run_bind (backupOne h installDir false filePath) _ st), Hb.
    reflexivity. }
  assert (Hpkg1 : st_fs st1 !! pkg = Some Dir).
  { unfold st1. cbn [st_fs set_fs]. rewrite lookup_insert_ne; [done|].
    intros E. unfold lookup_node in Hbak. rewrite E in Hbak.
    destruct pkg; [done|]. by rewrite Hbak in Hpkg. }
  assert (Hcopy : copyUpdatedFiles h [filePath] extractDir installDir false st1
                  = Out [EvLog Debug (MCopyStart 1);
                         EvLog Debug (MUsingPackageDir pkg);
                         EvLog Debug (MCopyingFile source full);
                         EvFs OpCopyFile full true;
                         EvLog Debug (MCopied full);
                         EvLog Debug MCopyDone]
                        (set_fs st1 (<[full := File new]> (st_fs st1))) (Ok tt)).
  { destruct (copyUpdatedFiles_run h [filePath] extractDir installDir false st1)
      as (_ & _ & ->).
    fold pkg. rewrite Hpkg1. cbn [for_each length].
    rewrite (run_bind_ok (log_debug _) _ st1 tt eq_refl).
    change (final (log_debug (MCopyStart 1) st1)) with st1.
    rewrite (run_bind_ok (log_debug _) _ st1 tt eq_refl).
    change (final (log_debug (MUsingPackageDir pkg) st1)) with st1.
    match goal with
    | |- context [(?m ≫= ?k) st1] => rewrite (run_bind m k st1)
    end.
    rewrite (run_bind (copyOne h pkg installDir false filePath) _ st1), Hc.
    reflexivity. }
  rewrite run_bind, Hbackup. cbn [res final events]. rewrite Hcopy.
  done.
Qed.

Lemma backup_then_replace_file_witness :
  let st := set_fs ex_state
              (<[ ["x"; "package"; "package.json"] := File "{ version: 1.1.0 }" ]>
                 (<[ ["x"; "package"] := Dir ]> (<[ ["x"] := Dir ]> ex_fs))) in
  let o := (backupFiles ex_host ["package.json"] "/opt/cli" false ;;
            copyUpdatedFiles ex_host ["package.json"] ["x"] "/opt/cli" false) st in
  res o = Ok tt
  /\ st_fs (final o)
     = <[ ["opt"; "cli"; "package.json"] := File "{ version: 1.1.0 }" ]>
         (<[ ["opt"; "cli"; "package.json.bak"] := File "{ version: 1.0.0 }" ]> (st_fs st))
  /\ existsb is_warning (events o) = false.
Proof.
  intros st.
  apply (backup_then_replace_file ex_host ["x"] "/opt/cli" "package.json" st
           "{ version: 1.0.0 }" "{ version: 1.1.0 }");
    first [ reflexivity | vm_compute; reflexivity ].
Defined.
